(** * chat-stream: the streaming relay ([src/app/api/chat/route.ts]) and the
    chat client ([src/components/chat-view.tsx]).

    The development embeds the two source files and the platform
    functions they call (TextDecoder, TextEncoder, the event pattern of
    the relay, JSON.parse, Map, FormData) and states the properties of the
    design document over that embedding. *)

From Stdlib Require Import ZArith NArith Lia String DecimalString.
From Stdlib.Strings Require Import Byte.
From stdpp Require Import gmap list.

Local Open Scope N_scope.
#[local] Set Warnings "-register-all".

(** A JavaScript string is a sequence of UTF-16 code units. *)
Abbreviation jsstring := (list N).
(** The chunks of a byte stream are [Uint8Array]s. *)
Abbreviation bytes := (list byte).

(* ===================================================================== *)
(** ** UTF-8: the decoder behind [TextDecoder] and the encoder behind
       [TextEncoder] (WHATWG Encoding Standard, sections 9.1 and 7) *)
(* ===================================================================== *)

Module UTF8.

(** State of the UTF-8 decoder: code point under construction, bytes
    seen, bytes needed, and the bounds of the next continuation byte. *)
Record state := State {
  code_point : N;
  bytes_seen : N;
  bytes_needed : N;
  lower : N;
  upper : N }.

Definition init : state := State 0 0 0 0x80 0xBF.

(** What the handler returns for one byte. [Error true] is the error
    that puts the byte back on the queue ("restore"). *)
Inductive result :=
| Continue
| Emit (cp : N)
| Error (restored : bool).

Definition between (lo hi b : N) : bool := (lo <=? b) && (b <=? hi).

(** The handler with [bytes_needed = 0]. *)
Definition lead (b : N) : result * state :=
  if between 0x00 0x7F b then (Emit b, init)
  else if between 0xC2 0xDF b then
    (Continue, State (N.land b 0x1F) 0 1 0x80 0xBF)
  else if between 0xE0 0xEF b then
    (Continue, State (N.land b 0xF) 0 2
                     (if b =? 0xE0 then 0xA0 else 0x80)
                     (if b =? 0xED then 0x9F else 0xBF))
  else if between 0xF0 0xF4 b then
    (Continue, State (N.land b 0x7) 0 3
                     (if b =? 0xF0 then 0x90 else 0x80)
                     (if b =? 0xF4 then 0x8F else 0xBF))
  else (Error false, init).

(** The handler proper. *)
Definition handler (s : state) (b : N) : result * state :=
  if bytes_needed s =? 0 then lead b
  else if negb (between (lower s) (upper s) b) then (Error true, init)
  else
    let cp := N.lor (N.shiftl (code_point s) 6) (N.land b 0x3F) in
    let seen := bytes_seen s + 1 in
    if negb (seen =? bytes_needed s)
    then (Continue, State cp seen (bytes_needed s) 0x80 0xBF)
    else (Emit cp, init).

(** One byte taken from the queue, with the restored byte handled again:
    the results in order, and the state afterwards. *)
Definition process (s : state) (b : N) : list result * state :=
  match handler s b with
  | (Error true, s') => let '(r, s'') := handler s' b in ([Error true; r], s'')
  | (r, s') => ([r], s')
  end.

Fixpoint run (s : state) (bs : bytes) : list result * state :=
  match bs with
  | [] => ([], s)
  | b :: bs' =>
      let '(r1, s1) := process s (Byte.to_N b) in
      let '(r2, s2) := run s1 bs' in
      (r1 ++ r2, s2)
  end.

(** End of queue: an unfinished sequence is an error. *)
Definition finish (s : state) : list result * state :=
  if bytes_needed s =? 0 then ([], s) else ([Error false], init).

(** Error mode "replacement": every error becomes U+FFFD. *)
Definition scalar_of (r : result) : list N :=
  match r with
  | Continue => []
  | Emit cp => [cp]
  | Error _ => [0xFFFD]
  end.

Definition scalars (rs : list result) : list N := rs ≫= scalar_of.

Definition is_error (r : result) : bool :=
  match r with Error _ => true | _ => false end.

(** A byte sequence "decodes validly": no byte is an error and no
    sequence is left unfinished at the end. *)
Definition valid (bs : bytes) : bool :=
  let '(rs, s) := run init bs in
  forallb (fun r => negb (is_error r)) rs && (bytes_needed s =? 0).

(** A scalar value as UTF-16 code units. *)
Definition code_units (cp : N) : jsstring :=
  if cp <? 0x10000 then [cp]
  else [0xD800 + N.shiftr (cp - 0x10000) 10;
        0xDC00 + N.land (cp - 0x10000) 0x3FF].

Definition is_high_surrogate (c : N) : bool := between 0xD800 0xDBFF c.
Definition is_low_surrogate (c : N) : bool := between 0xDC00 0xDFFF c.

(** A JavaScript string as scalar values (conversion to a USVString):
    surrogate pairs are joined, lone surrogates become U+FFFD. *)
Fixpoint to_scalars (s : jsstring) : list N :=
  match s with
  | [] => []
  | c :: rest =>
      if is_high_surrogate c then
        match rest with
        | d :: rest' =>
            if is_low_surrogate d
            then (0x10000 + N.shiftl (c - 0xD800) 10 + (d - 0xDC00))
                   :: to_scalars rest'
            else 0xFFFD :: to_scalars rest
        | [] => [0xFFFD]
        end
      else if is_low_surrogate c then 0xFFFD :: to_scalars rest
      else c :: to_scalars rest
  end.

Definition byte_of_N (n : N) : byte :=
  match Byte.of_N (n mod 256) with Some b => b | None => x00 end.

(** The UTF-8 encoder's handler. *)
Definition encode_scalar (cp : N) : bytes :=
  if cp <=? 0x7F then [byte_of_N cp]
  else if cp <=? 0x7FF then
    [byte_of_N (0xC0 + N.shiftr cp 6);
     byte_of_N (0x80 + N.land cp 0x3F)]
  else if cp <=? 0xFFFF then
    [byte_of_N (0xE0 + N.shiftr cp 12);
     byte_of_N (0x80 + N.land (N.shiftr cp 6) 0x3F);
     byte_of_N (0x80 + N.land cp 0x3F)]
  else
    [byte_of_N (0xF0 + N.shiftr cp 18);
     byte_of_N (0x80 + N.land (N.shiftr cp 12) 0x3F);
     byte_of_N (0x80 + N.land (N.shiftr cp 6) 0x3F);
     byte_of_N (0x80 + N.land cp 0x3F)].

End UTF8.

(* ===================================================================== *)
(** ** [TextDecoder] and [TextEncoder] objects *)
(* ===================================================================== *)

Module TextDecoder.

(** [new TextDecoder()]: UTF-8, error mode replacement, [ignoreBOM]
    false. The object keeps the decoder state, the "BOM seen" flag and the
    "do not flush" flag between calls of [decode]. *)
Record t := Make {
  decoder : UTF8.state;
  BOM_seen : bool;
  do_not_flush : bool }.

Definition new : t := Make UTF8.init false false.

(** "Serialize I/O queue": while the BOM has not been seen, the first
    scalar value sets the flag and is dropped when it is U+FEFF. *)
Definition serialize (bom_seen : bool) (out : list N) : jsstring * bool :=
  match out with
  | [] => ([], bom_seen)
  | cp :: rest =>
      if bom_seen then (out ≫= UTF8.code_units, true)
      else if cp =? 0xFEFF then (rest ≫= UTF8.code_units, true)
      else (out ≫= UTF8.code_units, true)
  end.

(** [d.decode(input, { stream })]. *)
Definition decode (d : t) (input : bytes) (stream : bool) : jsstring * t :=
  let d0 := if do_not_flush d then d
            else Make UTF8.init false (do_not_flush d) in
  let '(rs, s) := UTF8.run (decoder d0) input in
  let '(rs', s') := if stream then ([], s) else UTF8.finish s in
  let '(text, bom) := serialize (BOM_seen d0) (UTF8.scalars (rs ++ rs')) in
  (text, Make s' bom stream).

(** A decoder in the middle of a stream, nothing pending. *)
Definition streaming : t := Make UTF8.init false true.

(** The texts of successive calls [d.decode(chunk, { stream: true })],
    concatenated, and the decoder afterwards. *)
Fixpoint decode_chunks (d : t) (chunks : list bytes) : jsstring * t :=
  match chunks with
  | [] => ([], d)
  | chunk :: rest =>
      let '(text1, d1) := decode d chunk true in
      let '(text2, d2) := decode_chunks d1 rest in
      (text1 ++ text2, d2)
  end.

End TextDecoder.

Module TextEncoder.

(** [new TextEncoder().encode(s)]. *)
Definition encode (s : jsstring) : bytes :=
  UTF8.to_scalars s ≫= UTF8.encode_scalar.

End TextEncoder.

(* ===================================================================== *)
(** ** String literals and string functions of the language *)
(* ===================================================================== *)

Module JS.

(** A literal of the source text: the file is UTF-8, the string it
    denotes is the decoding of its bytes. *)
Definition lit (s : string) : jsstring :=
  fst (TextDecoder.decode TextDecoder.new (list_byte_of_string s) false).

(** For JSON in examples: a literal in which ['] stands for the double
    quote. *)
Definition dq (s : string) : jsstring :=
  (fun c => if c =? 39 then 34 else c) <$> lit s.

Definition is_line_terminator (c : N) : bool :=
  (c =? 0x0A) || (c =? 0x0D) || (c =? 0x2028) || (c =? 0x2029).

(** WhiteSpace and LineTerminator: what [\s] matches and what [trim]
    removes. *)
Definition is_white_space (c : N) : bool :=
  (c =? 0x09) || (c =? 0x0B) || (c =? 0x0C) || (c =? 0x20) || (c =? 0xA0)
  || (c =? 0x1680) || UTF8.between 0x2000 0x200A c || (c =? 0x202F)
  || (c =? 0x205F) || (c =? 0x3000) || (c =? 0xFEFF)
  || is_line_terminator c.

Fixpoint trim_start (s : jsstring) : jsstring :=
  match s with
  | c :: rest => if is_white_space c then trim_start rest else s
  | [] => []
  end.

Definition trim_end (s : jsstring) : jsstring := rev (trim_start (rev s)).

(** [s.trim()]. *)
Definition trim (s : jsstring) : jsstring := trim_end (trim_start s).
#[global] Arguments trim : simpl never.

(** [Number.prototype.toString] of a non-negative integer. *)
Definition nat_to_string (n : N) : jsstring :=
  lit (DecimalString.NilZero.string_of_uint (N.to_uint n)).

End JS.

(* ===================================================================== *)
(** ** The event pattern of the relay: [/data:\s*(\{.*\})/g] *)
(* ===================================================================== *)

Module Pattern.

Definition data_marker : jsstring := Eval vm_compute in JS.lit "data:".
Definition open_brace : N := 123.
Definition close_brace : N := 125.

Fixpoint strip_prefix (p s : jsstring) : option jsstring :=
  match p, s with
  | [], _ => Some s
  | a :: p', b :: s' => if a =? b then strip_prefix p' s' else None
  | _ :: _, [] => None
  end.

(** [.*\}] from the start of [s]. [.] matches any code unit but a line
    terminator; the star is greedy, so the longest run that still ends
    in a closing brace wins: the longer alternative is tried first, and
    the current character is taken as the closing brace only when that
    fails. Returns the run matched and what follows it. *)
Fixpoint dot_star_brace (s : jsstring) : option (jsstring * jsstring) :=
  match s with
  | [] => None
  | c :: rest =>
      if JS.is_line_terminator c then
        None
      else
        match dot_star_brace rest with
        | Some (m, after) => Some (c :: m, after)
        | None => if c =? close_brace then Some ([c], rest) else None
        end
  end.

(** One attempt of the pattern at the start of [s]: capture group 1 and
    what follows the match. [\s*] is greedy; giving back white space
    cannot help, since the next character must be the opening brace. *)
Definition match_at (s : jsstring) : option (jsstring * jsstring) :=
  match strip_prefix data_marker s with
  | None => None
  | Some rest =>
      match JS.trim_start rest with
      | c :: rest' =>
          if c =? open_brace then
            match dot_star_brace rest' with
            | Some (m, after) => Some (c :: m, after)
            | None => None
            end
          else None
      | [] => None
      end
  end.

(** The matches from left to right: after a match the search goes on
    where the match ended, after a failure one code unit further. No
    match is empty, so [fuel] above the length of [s] is never used
    up (lemma [matchAll_unfold]). *)
Fixpoint matchAll_from (fuel : nat) (s : jsstring) : list jsstring :=
  match fuel with
  | O => []
  | S fuel' =>
      match match_at s with
      | Some (capture, after) => capture :: matchAll_from fuel' after
      | None =>
          match s with
          | [] => []
          | _ :: s' => matchAll_from fuel' s'
          end
      end
  end.

(** [[...s.matchAll(/data:\s*(\{.*\})/g)]], each match given by its
    capture group [match[1]]. *)
Definition matchAll (s : jsstring) : list jsstring :=
  matchAll_from (S (length s)) s.

(** What follows an event in a text of whole events: nothing, or the
    marker of the next event. *)
Definition next_event (rest : jsstring) : Prop :=
  rest = [] ∨ ∃ r, rest = data_marker ++ r.

#[global] Arguments match_at : simpl never.
#[global] Arguments matchAll : simpl never.

End Pattern.

(* ===================================================================== *)
(** ** [JSON.parse] and the values it builds *)
(* ===================================================================== *)

Module JSON.

(** A number literal denotes [(-1)^negative * digits * 10^exponent]. *)
Record number := Number {
  negative : bool;
  digits : N;
  exponent : Z }.

Inductive value :=
| Null
| Bool (b : bool)
| Num (n : number)
| Str (s : jsstring)
| Arr (elements : list value)
| Obj (members : list (jsstring * value)).

Inductive result (A : Type) :=
| Ok (a : A) (rest : jsstring)
| SyntaxError
| OutOfFuel.
Arguments Ok {A} a rest.
Arguments SyntaxError {A}.
Arguments OutOfFuel {A}.

(** JSON white space: space, tab, line feed, carriage return. *)
Definition is_ws (c : N) : bool :=
  (c =? 0x20) || (c =? 0x09) || (c =? 0x0A) || (c =? 0x0D).

Fixpoint skip_ws (s : jsstring) : jsstring :=
  match s with
  | c :: rest => if is_ws c then skip_ws rest else s
  | [] => []
  end.

Definition hex_digit (c : N) : option N :=
  if UTF8.between 48 57 c then Some (c - 48)
  else if UTF8.between 97 102 c then Some (c - 87)
  else if UTF8.between 65 70 c then Some (c - 55)
  else None.

(** The character an escape letter stands for. *)
Definition unescape (c : N) : option N :=
  if c =? 34 then Some 34            (* quotation mark *)
  else if c =? 92 then Some 92       (* reverse solidus *)
  else if c =? 47 then Some 47       (* solidus *)
  else if c =? 98 then Some 8        (* b: backspace *)
  else if c =? 102 then Some 12      (* f: form feed *)
  else if c =? 110 then Some 10      (* n: line feed *)
  else if c =? 114 then Some 13      (* r: carriage return *)
  else if c =? 116 then Some 9       (* t: tab *)
  else None.

(** The characters of a string, after the opening quote, up to and
    including the closing quote. *)
Fixpoint parse_chars (s : jsstring) : option (jsstring * jsstring) :=
  match s with
  | [] => None
  | c :: rest =>
      if c =? 34 then Some ([], rest)
      else if c =? 92 then
        match rest with
        | [] => None
        | e :: rest1 =>
            if e =? 117 then
              match rest1 with
              | h1 :: h2 :: h3 :: h4 :: rest2 =>
                  match hex_digit h1, hex_digit h2,
                        hex_digit h3, hex_digit h4 with
                  | Some a, Some b, Some c', Some d =>
                      match parse_chars rest2 with
                      | Some (str, r) =>
                          Some ((a * 4096 + b * 256 + c' * 16 + d) :: str, r)
                      | None => None
                      end
                  | _, _, _, _ => None
                  end
              | _ => None
              end
            else
              match unescape e with
              | Some ch =>
                  match parse_chars rest1 with
                  | Some (str, r) => Some (ch :: str, r)
                  | None => None
                  end
              | None => None
              end
        end
      else if c <? 0x20 then None
      else
        match parse_chars rest with
        | Some (str, r) => Some (c :: str, r)
        | None => None
        end
  end.

Definition is_digit (c : N) : bool := UTF8.between 48 57 c.

(** A run of decimal digits appended to [acc]: the value, how many
    digits were read, and the rest. *)
Fixpoint take_digits (s : jsstring) (acc : N) (count : nat)
  : N * nat * jsstring :=
  match s with
  | c :: rest =>
      if is_digit c then take_digits rest (acc * 10 + (c - 48)) (S count)
      else (acc, count, s)
  | [] => (acc, count, [])
  end.

(** [-? int frac? exp?] *)
Definition parse_number (s : jsstring) : option (number * jsstring) :=
  let '(neg, s1) :=
    match s with
    | c :: rest => if c =? 45 then (true, rest) else (false, s)
    | [] => (false, s)
    end in
  let int_part :=
    match s1 with
    | c :: rest =>
        if c =? 48 then Some (0, rest)
        else if is_digit c then
          let '(n, _, r) := take_digits s1 0 0 in Some (n, r)
        else None
    | [] => None
    end in
  match int_part with
  | None => None
  | Some (n, s2) =>
      let frac :=
        match s2 with
        | c :: rest =>
            if c =? 46 then
              let '(m, k, r) := take_digits rest n 0 in
              match k with
              | O => None
              | S _ => Some (m, Z.of_nat k, r)
              end
            else Some (n, 0%Z, s2)
        | [] => Some (n, 0%Z, s2)
        end in
      match frac with
      | None => None
      | Some (m, k, s3) =>
          let exp :=
            match s3 with
            | c :: rest =>
                if (c =? 101) || (c =? 69) then
                  let '(minus, s4) :=
                    match rest with
                    | d :: rest' =>
                        if d =? 45 then (true, rest')
                        else if d =? 43 then (false, rest')
                        else (false, rest)
                    | [] => (false, rest)
                    end in
                  let '(e, j, r) := take_digits s4 0 0 in
                  match j with
                  | O => None
                  | S _ =>
                      Some (if minus then (- Z.of_N e)%Z
                            else Z.of_N e, r)
                  end
                else Some (0%Z, s3)
            | [] => Some (0%Z, s3)
            end in
          match exp with
          | None => None
          | Some (e, s5) => Some (Number neg m (e - k)%Z, s5)
          end
      end
  end.

Definition literal (word : jsstring) (v : value) (s : jsstring)
  : result value :=
  match Pattern.strip_prefix word s with
  | Some rest => Ok v rest
  | None => SyntaxError
  end.

Definition true_word : jsstring := Eval vm_compute in JS.lit "true".
Definition false_word : jsstring := Eval vm_compute in JS.lit "false".
Definition null_word : jsstring := Eval vm_compute in JS.lit "null".

(** A value at the start of [s] (white space already skipped). The
    elements of an array and the members of an object are read by the
    two companion loops, which collect them in reverse. *)
Fixpoint parse_value (fuel : nat) (s : jsstring) {struct fuel}
  : result value :=
  match fuel with
  | O => OutOfFuel
  | S fuel' =>
      match s with
      | [] => SyntaxError
      | c :: rest =>
          if c =? 123 then
            match skip_ws rest with
            | c' :: r =>
                if c' =? 125 then Ok (Obj []) r
                else parse_members fuel' (c' :: r) []
            | [] => SyntaxError
            end
          else if c =? 91 then
            match skip_ws rest with
            | c' :: r =>
                if c' =? 93 then Ok (Arr []) r
                else parse_elements fuel' (c' :: r) []
            | [] => SyntaxError
            end
          else if c =? 34 then
            match parse_chars rest with
            | Some (str, r) => Ok (Str str) r
            | None => SyntaxError
            end
          else if c =? 116 then literal true_word (Bool true) s
          else if c =? 102 then literal false_word (Bool false) s
          else if c =? 110 then literal null_word Null s
          else
            match parse_number s with
            | Some (n, r) => Ok (Num n) r
            | None => SyntaxError
            end
      end
  end

with parse_elements (fuel : nat) (s : jsstring) (acc : list value)
       {struct fuel} : result value :=
  match fuel with
  | O => OutOfFuel
  | S fuel' =>
      match parse_value fuel' s with
      | Ok v r =>
          match skip_ws r with
          | c :: r' =>
              if c =? 44 then parse_elements fuel' (skip_ws r') (v :: acc)
              else if c =? 93 then Ok (Arr (rev (v :: acc))) r'
              else SyntaxError
          | [] => SyntaxError
          end
      | SyntaxError => SyntaxError
      | OutOfFuel => OutOfFuel
      end
  end

with parse_members (fuel : nat) (s : jsstring)
       (acc : list (jsstring * value)) {struct fuel} : result value :=
  match fuel with
  | O => OutOfFuel
  | S fuel' =>
      match s with
      | c :: r0 =>
          if c =? 34 then
            match parse_chars r0 with
            | Some (key, r1) =>
                match skip_ws r1 with
                | c1 :: r2 =>
                    if c1 =? 58 then
                      match parse_value fuel' (skip_ws r2) with
                      | Ok v r3 =>
                          match skip_ws r3 with
                          | c3 :: r4 =>
                              if c3 =? 44 then
                                parse_members fuel' (skip_ws r4)
                                              ((key, v) :: acc)
                              else if c3 =? 125 then
                                Ok (Obj (rev ((key, v) :: acc))) r4
                              else SyntaxError
                          | [] => SyntaxError
                          end
                      | SyntaxError => SyntaxError
                      | OutOfFuel => OutOfFuel
                      end
                    else SyntaxError
                | [] => SyntaxError
                end
            | None => SyntaxError
            end
          else SyntaxError
      | [] => SyntaxError
      end
  end.

(** Fuel that is never used up: every recursive call but the first of
    an element list has read at least one code unit (lemmas [parse_fuel]
    and [parse_total]). *)
Definition fuel_for (s : jsstring) : nat := 2 * length s + 2.

(** The whole text: white space, one value, white space. *)
Definition parse_text (fuel : nat) (s : jsstring) : result value :=
  match parse_value fuel (skip_ws s) with
  | Ok v r =>
      match skip_ws r with
      | [] => Ok v []
      | _ :: _ => SyntaxError
      end
  | SyntaxError => SyntaxError
  | OutOfFuel => OutOfFuel
  end.

(** [JSON.parse(s)]; [None] when it throws a SyntaxError. *)
Definition parse (s : jsstring) : option value :=
  match parse_text (fuel_for s) s with
  | Ok v _ => Some v
  | _ => None
  end.

End JSON.

(* ===================================================================== *)
(** ** Operations of the language on parsed values *)
(* ===================================================================== *)

Module ES.
Import JSON.

(** A property read is by name or by array index. *)
Inductive property :=
| Name (n : jsstring)
| Index (i : nat).

(** The own property [k] of an object built by [JSON.parse]: of two
    members with the same name the later one has overwritten the
    earlier. *)
Fixpoint own_property (ms : list (jsstring * value)) (k : jsstring)
  : option value :=
  match ms with
  | [] => None
  | (k', v) :: rest =>
      match own_property rest k with
      | Some v' => Some v'
      | None => if decide (k' = k) then Some v else None
      end
  end.

(** [v[p]] for [v] other than [null]; [None] is [undefined]. The names
    the relay reads ([candidates], [content], [parts], [text]) are not
    properties of any prototype object, so for them only own
    properties answer; numbers and booleans have none. *)
Definition Get (v : value) (p : property) : option value :=
  match v, p with
  | Obj ms, Name n => own_property ms n
  | Obj ms, Index i => own_property ms (JS.nat_to_string (N.of_nat i))
  | Arr l, Index i => l !! i
  | Str s, Index i => (fun c => Str [c]) <$> s !! i
  | _, _ => None
  end.

(** [o?.p]: [undefined] when [o] is [undefined] or [null]. *)
Definition optional (o : option value) (p : property) : option value :=
  match o with
  | None | Some Null => None
  | Some v => Get v p
  end.

(** [o ?? d] *)
Definition nullish (o : option value) (d : value) : value :=
  match o with
  | None | Some Null => d
  | Some v => v
  end.

(** ToBoolean. A number is taken at the value its literal denotes. *)
Definition ToBoolean (v : value) : bool :=
  match v with
  | Null => false
  | Bool b => b
  | Num n => negb (digits n =? 0)
  | Str s => match s with [] => false | _ :: _ => true end
  | Arr _ | Obj _ => true
  end.

Fixpoint trailing_zeros (rev_digits : jsstring) : nat :=
  match rev_digits with
  | c :: rest => if c =? 48 then S (trailing_zeros rest) else O
  | [] => O
  end.

(** Number::toString in radix 10, from the decimal value of the
    literal: [s] are the significant digits, [k] their count and [n] the
    position of the decimal point. This is what the platform prints for
    every literal of at most 15 significant digits within the range of
    normal doubles; roundings of longer literals are not modelled. *)
Definition number_to_string (x : number) : jsstring :=
  if digits x =? 0 then [48]
  else
    let all := JS.nat_to_string (digits x) in
    let z := trailing_zeros (rev all) in
    let s := take (length all - z) all in
    let k := Z.of_nat (length s) in
    let n := (k + Z.of_nat z + exponent x)%Z in
    let body :=
      if ((k <=? n) && (n <=? 21))%Z then
        s ++ replicate (Z.to_nat (n - k)) 48
      else if ((0 <? n) && (n <=? 21))%Z then
        take (Z.to_nat n) s ++ [46] ++ drop (Z.to_nat n) s
      else if ((-6 <? n) && (n <=? 0))%Z then
        [48; 46] ++ replicate (Z.to_nat (- n)) 48 ++ s
      else
        let e := (n - 1)%Z in
        let mantissa :=
          match s with
          | d :: (_ :: _) as rest => d :: 46 :: rest
          | _ => s
          end in
        mantissa ++ [101; if (0 <=? e)%Z then 43 else 45]
                 ++ JS.nat_to_string (Z.to_N (Z.abs e)) in
    (if negative x then [45] else []) ++ body.

Definition comma : N := 44.

(** ToString. An array is its elements joined by commas, [null]
    elements left empty. *)
Fixpoint ToString (v : value) : jsstring :=
  match v with
  | Null => JS.lit "null"
  | Bool b => if b then JS.lit "true" else JS.lit "false"
  | Num n => number_to_string n
  | Str s => s
  | Arr l =>
      (fix join (l : list value) : jsstring :=
         match l with
         | [] => []
         | x :: rest =>
             let here := match x with Null => [] | _ => ToString x end in
             match rest with
             | [] => here
             | _ :: _ => here ++ comma :: join rest
             end
         end) l
  | Obj _ => JS.lit "[object Object]"
  end.

End ES.

(* ===================================================================== *)
(** ** [crypto.randomUUID] *)
(* ===================================================================== *)

Module UUID.

Definition hex_char (d : N) : N := if d <? 10 then 48 + d else 87 + d.

Definition hex2 (b : N) : jsstring :=
  [hex_char (N.shiftr b 4 mod 16); hex_char (b mod 16)].

(** Byte [i] of the 16 random bytes, drawn as one 128-bit number. *)
Definition octet (r : N) (i : N) : N := N.shiftr r (8 * (15 - i)) mod 256.

Definition dash : N := 45.

(** A version 4 UUID: the version nibble is 4 and the variant bits are
    [10]; the other 122 bits are random. *)
Definition v4 (r : N) : jsstring :=
  hex2 (octet r 0) ++ hex2 (octet r 1) ++ hex2 (octet r 2)
  ++ hex2 (octet r 3) ++ [dash]
  ++ hex2 (octet r 4) ++ hex2 (octet r 5) ++ [dash]
  ++ hex2 (N.lor (N.land (octet r 6) 0x0F) 0x40) ++ hex2 (octet r 7)
  ++ [dash]
  ++ hex2 (N.lor (N.land (octet r 8) 0x3F) 0x80) ++ hex2 (octet r 9)
  ++ [dash]
  ++ hex2 (octet r 10) ++ hex2 (octet r 11) ++ hex2 (octet r 12)
  ++ hex2 (octet r 13) ++ hex2 (octet r 14) ++ hex2 (octet r 15).

#[global] Arguments v4 : simpl never.

(** The bits of the draw that [v4] overwrites: the four of the version
    in byte 6 and the two of the variant in byte 8. *)
Definition fixed_bits : N :=
  N.lor (N.shiftl 0xF0 (8 * (15 - 6))) (N.shiftl 0xC0 (8 * (15 - 8))).

(** The 122 bits of the draw that [v4] keeps. *)
Definition random_bits (r : N) : N :=
  N.ldiff (N.land r (N.ones 128)) fixed_bits.

End UUID.

(* ===================================================================== *)
(** ** The relay: [src/app/api/chat/route.ts] *)
(* ===================================================================== *)

(** A byte stream as its reader sees it: the chunks read, and whether
    the read after the last chunk reports [done] or fails. *)
Module ByteStream.
Record t := Make {
  chunks : list bytes;
  errored : bool }.
End ByteStream.

(** The [contents] of the upstream request. *)
Module Gemini.
Record Part := { text : jsstring }.
Record Content := { role : jsstring; parts : list Part }.
End Gemini.

Module Relay.

Inductive Role := user | assistant.

#[global] Instance Role_eq_dec : EqDecision Role.
Proof. solve_decision. Defined.

Record ClientMessage := {
  role : Role;
  content : jsstring }.

Record StoredConversation := {
  messages : list ClientMessage;
  expiresAt : Z }.

Definition CONVO_TTL_MS : Z := 60 * 60 * 1000.

(** What the handler does to the world outside it, in order. *)
Inductive Effect :=
| Swept (now : Z)
| Stored (sid : jsstring) (entry : StoredConversation)
| Fetched (model key : jsstring) (contents : list Gemini.Content).

(** The module-level [conversations] map and the trace of effects. *)
Record World := {
  conversations : gmap jsstring StoredConversation;
  trace : list Effect }.

(** The response of the upstream to [fetch]. *)
Record UpstreamResponse := {
  status : N;
  statusText : jsstring;
  body : option ByteStream.t }.

Inductive FetchResult :=
| NetworkError
| Responded (upstream : UpstreamResponse).

(** What one invocation of the handler gets from its surroundings: the
    parsed request body ([None] when [req.json()] rejects), the
    credential, the two readings of the clock, the random bits of
    [crypto.randomUUID], and the outcome of the upstream call. *)
Record RequestBody := {
  body_messages : option (list ClientMessage);
  body_sessionId : option jsstring }.
(* The body is typed as the handler annotates it; the credential comes
   from the environment of the process, so [encodeURIComponent] does not
   throw on it. *)

Record Platform := {
  req_json : option RequestBody;
  GEMINI_API_KEY : option jsstring;
  now_sweep : Z;
  now_set : Z;
  random : N;
  fetch : list Gemini.Content -> FetchResult }.

Inductive ResponseBody :=
| Text (s : jsstring)
| Stream (s : ByteStream.t).

Record Response := {
  resp_status : N;
  resp_headers : list (jsstring * jsstring);
  resp_body : ResponseBody }.

(** *** Computations that change the world or throw *)

Inductive Outcome (A : Type) :=
| Returned (a : A)
| Thrown.
Arguments Returned {A} a.
Arguments Thrown {A}.

Definition M (A : Type) : Type := World -> Outcome A * World.

#[global] Instance M_ret : MRet M := fun A a w => (Returned a, w).
#[global] Instance M_bind : MBind M := fun A B f m w =>
  match m w with
  | (Returned a, w') => f a w'
  | (Thrown, w') => (Thrown, w')
  end.

Definition throw {A} : M A := fun w => (Thrown, w).

(** [try { body } catch { handler }] *)
Definition try_catch {A} (body handler : M A) : M A := fun w =>
  match body w with
  | (Returned a, w') => (Returned a, w')
  | (Thrown, w') => handler w'
  end.

Definition await {A} (o : option A) : M A :=
  match o with
  | Some a => mret a
  | None => throw
  end.

Definition effect (e : Effect) (f : gmap jsstring StoredConversation ->
                                    gmap jsstring StoredConversation)
  : M unit := fun w =>
  (Returned tt, {| conversations := f (conversations w);
                   trace := trace w ++ [e] |}).

(** *** The conversation cache *)

(** The loop of [cleanupExpired] over the entries of the map. *)
Definition sweep (now : Z) (entries : list (jsstring * StoredConversation))
    (m : gmap jsstring StoredConversation)
  : gmap jsstring StoredConversation :=
  fold_left (fun m '(k, v) =>
               if (expiresAt v <=? now)%Z then delete k m else m)
            entries m.

Definition cleanupExpired (now : Z) (m : gmap jsstring StoredConversation)
  : gmap jsstring StoredConversation :=
  sweep now (map_to_list m) m.

(** *** The stream of the reply *)

Definition candidates : jsstring := Eval vm_compute in JS.lit "candidates".
Definition content_ : jsstring := Eval vm_compute in JS.lit "content".
Definition parts : jsstring := Eval vm_compute in JS.lit "parts".
Definition text : jsstring := Eval vm_compute in JS.lit "text".

(** [json?.candidates?.[0]?.content?.parts?.[0]?.text ?? ""] *)
Definition text_of (json : JSON.value) : JSON.value :=
  let o := ES.optional (Some json) (ES.Name candidates) in
  let o := ES.optional o (ES.Index 0) in
  let o := ES.optional o (ES.Name content_) in
  let o := ES.optional o (ES.Name parts) in
  let o := ES.optional o (ES.Index 0) in
  let o := ES.optional o (ES.Name text) in
  ES.nullish o (JSON.Str []).

(** The body of the loop over the matches of one chunk: the state is
    [fullText] and the chunks enqueued so far. A payload [JSON.parse]
    throws on is caught and left out. *)
Definition forward (st : jsstring * list bytes) (payload : jsstring)
  : jsstring * list bytes :=
  let '(fullText, queue) := st in
  match JSON.parse payload with
  | None => st
  | Some json =>
      let text := text_of json in
      if ES.ToBoolean text then
        (fullText ++ ES.ToString text,
         queue ++ [TextEncoder.encode (ES.ToString text)])
      else st
  end.

(** The [while (true)] loop of [start] over the chunks read from the
    upstream body: what is enqueued on the controller, in order. *)
Fixpoint pump (decoder : TextDecoder.t) (fullText : jsstring)
    (upstream : list bytes) : list bytes :=
  match upstream with
  | [] => []
  | value :: rest =>
      let '(chunk, decoder') := TextDecoder.decode decoder value false in
      let matches := Pattern.matchAll chunk in
      let '(fullText', queue) := fold_left forward matches (fullText, []) in
      queue ++ pump decoder' fullText' rest
  end.

(** The stream handed to the client. When a read of the upstream body
    fails, [start] rejects and the stream ends in error as well. *)
Definition start (upstream : ByteStream.t) : ByteStream.t :=
  ByteStream.Make
    (pump TextDecoder.new [] (ByteStream.chunks upstream))
    (ByteStream.errored upstream).

(** *** The handler *)

Definition ok (r : UpstreamResponse) : bool :=
  UTF8.between 200 299 (status r).

(** [await upstream.text().catch(() => "")] *)
Definition text_or_empty (r : UpstreamResponse) : jsstring :=
  match body r with
  | None => []
  | Some b =>
      if ByteStream.errored b then []
      else fst (TextDecoder.decode TextDecoder.new
                  (concat (ByteStream.chunks b)) false)
  end.

Definition truthy (s : option jsstring) : option jsstring :=
  match s with
  | Some (_ :: _) => s
  | _ => None
  end.

Definition model : jsstring := Eval vm_compute in JS.lit "gemini-2.5-flash".

Definition stream_headers : list (jsstring * jsstring) :=
  [(JS.lit "Content-Type", JS.lit "text/plain; charset=utf-8");
   (JS.lit "Cache-Control", JS.lit "no-cache");
   (JS.lit "X-Accel-Buffering", JS.lit "no")].

Definition to_content (m : ClientMessage) : Gemini.Content :=
  {| Gemini.role := match role m with
                    | assistant => JS.lit "model"
                    | user => JS.lit "user"
                    end;
     Gemini.parts := [ {| Gemini.text := content m |} ] |}.

(** [!(m.role === "assistant" && !m.content)] *)
Definition keep (m : ClientMessage) : bool :=
  negb (bool_decide (role m = assistant)
        && match content m with [] => true | _ :: _ => false end).

Definition upstream_error (upstream : UpstreamResponse) : jsstring :=
  JS.lit "Upstream error: " ++ JS.nat_to_string (status upstream)
    ++ JS.lit " " ++ statusText upstream
    ++ [10] ++ text_or_empty upstream.

Definition POST (P : Platform) : M Response :=
  try_catch
    (req ← await (req_json P);
     let messages := default [] (body_messages req) in
     effect (Swept (now_sweep P)) (cleanupExpired (now_sweep P));;
     let sid := default (UUID.v4 (random P)) (truthy (body_sessionId req)) in
     match truthy (GEMINI_API_KEY P) with
     | None => mret (Build_Response 500 [] (Text (JS.lit "Missing GEMINI_API_KEY")))
     | Some apiKey =>
         let contents := to_content <$> messages in
         let toStore := List.filter keep messages in
         let entry := {| messages := toStore;
                         expiresAt := now_set P + CONVO_TTL_MS |} in
         effect (Stored sid entry) (insert sid entry);;
         effect (Fetched model apiKey contents) id;;
         match fetch P contents with
         | NetworkError => throw
         | Responded upstream =>
             if negb (ok upstream) || bool_decide (body upstream = None)
             then mret (Build_Response 502 [] (Text (upstream_error upstream)))
             else
               let stream := start (default (ByteStream.Make [] false)
                                            (body upstream)) in
               mret (Build_Response 200 stream_headers (Stream stream))
         end
     end)
    (mret (Build_Response 400 [] (Text (JS.lit "Bad Request")))).

(** *** Names for parts of the handler, used to state its properties *)

(** The keys the loop of [cleanupExpired] deletes. *)
Definition expired_in (now : Z)
    (entries : list (jsstring * StoredConversation)) (k : jsstring) : bool :=
  existsb (fun '(k', v) => bool_decide (k' = k) && (expiresAt v <=? now)%Z)
          entries.

(** [sessionId || crypto.randomUUID()] *)
Definition sid_of (P : Platform) (req : RequestBody) : jsstring :=
  default (UUID.v4 (random P)) (truthy (body_sessionId req)).

(** The entry of [conversations.set]. *)
Definition entry_of (P : Platform) (req : RequestBody) : StoredConversation :=
  {| messages := List.filter keep (default [] (body_messages req));
     expiresAt := now_set P + CONVO_TTL_MS |}.

Definition contents_of (req : RequestBody) : list Gemini.Content :=
  to_content <$> default [] (body_messages req).

Definition bad_request : Response :=
  Build_Response 400 [] (Text (JS.lit "Bad Request")).

Definition missing_key : Response :=
  Build_Response 500 [] (Text (JS.lit "Missing GEMINI_API_KEY")).

(** The upstream call failed with a response in hand. *)
Definition failed (upstream : UpstreamResponse) : bool :=
  negb (ok upstream) || bool_decide (body upstream = None).

(** The response of the handler once the upstream call has settled. *)
Definition reply (r : FetchResult) : Response :=
  match r with
  | NetworkError => bad_request
  | Responded upstream =>
      if failed upstream
      then Build_Response 502 [] (Text (upstream_error upstream))
      else Build_Response 200 stream_headers
             (Stream (start (default (ByteStream.Make [] false)
                                     (body upstream))))
  end.

(** The design document's reading of the stored history: "filtering
    out any trailing empty assistant message", every other message
    retained. *)
Definition without_trailing_empty_assistant (history : list ClientMessage)
  : list ClientMessage :=
  match rev history with
  | last :: before => if keep last then history else rev before
  | [] => []
  end.

(** [decoder.decode(value)] on its own. *)
Definition decode_once (value : bytes) : jsstring :=
  (TextDecoder.decode TextDecoder.new value false).1.

(** The text fragment of an event, from its payload: none when the
    payload does not parse or carries no text that counts as true. *)
Definition text_fragment (payload : jsstring) : option jsstring :=
  match JSON.parse payload with
  | None => None
  | Some json =>
      let text := text_of json in
      if ES.ToBoolean text then Some (ES.ToString text) else None
  end.

(** An event of the upstream as it is framed on the wire: the marker
    [data:], white space, the payload, and the line terminators that
    end the event. *)
Record Event := {
  gap : jsstring;
  payload : jsstring;
  terminator : jsstring }.

Definition render (e : Event) : jsstring :=
  Pattern.data_marker ++ gap e ++ payload e ++ terminator e.

(** A payload in the shape of an object: an opening brace, characters
    other than line terminators, a closing brace. *)
Definition framed (p : jsstring) : bool :=
  match p with
  | c :: rest =>
      (c =? Pattern.open_brace)
      && bool_decide (last rest = Some Pattern.close_brace)
      && forallb (fun c => negb (JS.is_line_terminator c)) rest
  | [] => false
  end.

#[global] Arguments render : simpl never.
#[global] Arguments text_fragment : simpl never.
#[global] Arguments decode_once : simpl never.

(** The usual framing: one space, and an empty line after the event. *)
Definition event (p : jsstring) : Event :=
  {| gap := [32]; payload := p; terminator := [10; 10] |}.

(** The worlds the handler can be in: the module starts with an empty
    map, and every request runs the handler once. *)
Inductive reachable : World -> Prop :=
| reachable_start : reachable {| conversations := ∅; trace := [] |}
| reachable_POST w P : reachable w -> reachable (POST P w).2.

End Relay.

(* ===================================================================== *)
(** ** The client: [src/components/chat-view.tsx] *)
(* ===================================================================== *)

Module ChatView.

Inductive Role := user | assistant.

#[global] Instance Role_eq_dec : EqDecision Role.
Proof. solve_decision. Defined.

Record Message := {
  id : jsstring;
  role : Role;
  content : jsstring }.

(** The sentinel of a placeholder. *)
Definition Thinking : jsstring := Eval vm_compute in JS.lit "Thinking…".

Definition went_wrong : jsstring :=
  Eval vm_compute in JS.lit "Something went wrong. Please try again.".

(** An activation of the async function [handleSend] that has not
    returned yet: it is suspended either at [await fetch(...)] or at
    [await reader.read()], with its local variables. *)
Inductive Suspended :=
| AtFetch
| AtRead (decoder : TextDecoder.t) (acc : jsstring).

Record Activation := {
  assistantDraft : jsstring;
  at_ : Suspended }.

(** The state of the component: the four [useState] cells, the value
    of the message input of the form, and the activations of
    [handleSend] in flight. Nothing in the type bounds their number. *)
Record State := {
  messages : list Message;
  loading : bool;
  error : option jsstring;
  sessionId : option jsstring;
  input : jsstring;
  running : list Activation }.

Definition initial : State :=
  {| messages := []; loading := false; error := None; sessionId := None;
     input := []; running := [] |}.

Definition truthy (s : option jsstring) : bool :=
  match s with
  | Some (_ :: _) => true
  | _ => false
  end.

(** The effect run on mount: the stored identifier, or a new one. *)
Definition mount (stored : option jsstring) (random : N) (st : State)
  : State :=
  let sid := if truthy stored then stored else Some (UUID.v4 random) in
  {| messages := messages st; loading := loading st; error := error st;
     sessionId := sid; input := input st; running := running st |}.

(** [handleSend(text)] up to its first [await]. *)
Definition handleSend (text : jsstring) (random1 random2 : N) (st : State)
  : State :=
  if negb (truthy (sessionId st)) then st
  else
    let userMsg := {| id := UUID.v4 random1; role := user;
                      content := text |} in
    let draftId := UUID.v4 random2 in
    let assistantDraft := {| id := draftId; role := assistant;
                             content := Thinking |} in
    let nextMessages := messages st ++ [userMsg; assistantDraft] in
    {| messages := nextMessages;
       error := None;
       loading := true;
       sessionId := sessionId st;
       input := input st;
       running := running st ++ [ {| assistantDraft := draftId;
                                     at_ := AtFetch |} ] |}.

(** The [disabled] attribute of the input and of the button as last
    rendered. *)
Definition disabled (st : State) : bool :=
  loading st || negb (truthy (sessionId st)).

(** The user types [value] into the input, which a disabled input
    does not let them do. *)
Definition type (value : jsstring) (st : State) : State :=
  if disabled st then st
  else
    {| messages := messages st; loading := loading st; error := error st;
       sessionId := sessionId st; input := value; running := running st |}.

(** [new FormData(form).get("message")]: a disabled control adds no
    entry to the form data, and [get] of a missing name is [null]. *)
Definition FormData_get (st : State) : option jsstring :=
  if disabled st then None else Some (input st).

(** [input.value = ""] *)
Definition clear_input (st : State) : State :=
  {| messages := messages st; loading := loading st; error := error st;
     sessionId := sessionId st; input := []; running := running st |}.

(** The [onSubmit] handler of the form. *)
Definition onSubmit (random1 random2 : N) (st : State) : State :=
  let text := JS.trim (default [] (FormData_get st)) in
  match text with
  | [] => st
  | _ :: _ => clear_input (handleSend text random1 random2 st)
  end.

(** [prev.map(m => m.id === assistantDraft.id
                   ? { ...m, content: acc || "Thinking…" } : m)] *)
Definition show_acc (draftId acc : jsstring) (prev : list Message)
  : list Message :=
  (fun m =>
     if decide (id m = draftId)
     then {| id := id m; role := role m;
             content := match acc with [] => Thinking | _ :: _ => acc end |}
     else m) <$> prev.

(** What an awaited promise settles to. *)
Inductive Settled :=
| FetchRejected
| FetchResolved (ok has_body : bool)
| ReadValue (value : bytes)
| ReadDone
| ReadRejected.

(** [finally { setLoading(false) }], after the [catch] when the
    activation failed; the activation is over. *)
Definition leave (i : nat) (failed : bool) (st : State) : State :=
  {| messages := messages st;
     loading := false;
     error := if failed then Some went_wrong else error st;
     sessionId := sessionId st;
     input := input st;
     running := delete i (running st) |}.

(** Activation [i] resumes with the settled value and runs to its next
    [await] or to its end. A value that does not fit the [await] the
    activation is suspended at cannot arrive and changes nothing. *)
Definition resume (i : nat) (r : Settled) (st : State) : State :=
  match running st !! i with
  | None => st
  | Some a =>
      match at_ a, r with
      | AtFetch, FetchRejected => leave i true st
      | AtFetch, FetchResolved ok has_body =>
          if negb ok || negb has_body then leave i true st
          else
            {| messages := messages st; loading := loading st;
               error := error st; sessionId := sessionId st;
               input := input st;
               running :=
                 <[i := {| assistantDraft := assistantDraft a;
                           at_ := AtRead TextDecoder.new [] |}]>
                   (running st) |}
      | AtRead decoder acc, ReadValue value =>
          let '(decoded, decoder') :=
            TextDecoder.decode decoder value true in
          let acc' := acc ++ decoded in
          {| messages := show_acc (assistantDraft a) acc' (messages st);
             loading := loading st; error := error st;
             sessionId := sessionId st; input := input st;
             running :=
               <[i := {| assistantDraft := assistantDraft a;
                         at_ := AtRead decoder' acc' |}]> (running st) |}
      | AtRead _ _, ReadDone => leave i false st
      | AtRead _ _, ReadRejected => leave i true st
      | _, _ => st
      end
  end.

(** What can happen to the component. *)
Inductive Event :=
| Mounted (stored : option jsstring) (random : N)
| Typed (value : jsstring)
| Submitted (random1 random2 : N)
| Resumed (i : nat) (r : Settled).

Definition step (st : State) (e : Event) : State :=
  match e with
  | Mounted stored random => mount stored random st
  | Typed value => type value st
  | Submitted r1 r2 => onSubmit r1 r2 st
  | Resumed i r => resume i r st
  end.

(** [crypto.randomUUID] does not repeat an identifier: the identifiers
    drawn at a submission are new to the transcript. *)
Definition fresh (st : State) (e : Event) : Prop :=
  match e with
  | Submitted _ r2 => UUID.v4 r2 ∉ id <$> messages st
  | _ => True
  end.

Inductive reachable : State -> Prop :=
| reachable_initial : reachable initial
| reachable_step st e :
    reachable st -> fresh st e -> reachable (step st e).


(** The reads of one response body, chunk by chunk, then [done]. *)
Definition read_all (i : nat) (chunks : list bytes) (st : State) : State :=
  resume i ReadDone
    (fold_left (fun st value => resume i (ReadValue value) st) chunks st).

(** The assistant messages that carry the draft identifier of [a]. *)
Definition drafts_of (a : Activation) (st : State) : list Message :=
  List.filter (fun m => bool_decide (role m = assistant)
                        && bool_decide (id m = assistantDraft a))
              (messages st).

(** What holds of every state the component reaches: a disabled input
    is empty; an activation in flight keeps [loading] set, there is at
    most one, and at most one assistant message carries its draft
    identifier. *)
Definition turn_invariant (st : State) : Prop :=
  (disabled st = true -> input st = [])
  ∧ match running st with
    | [] => True
    | [a] => loading st = true ∧ (length (drafts_of a st) ≤ 1)%nat
    | _ :: _ :: _ => False
    end.

End ChatView.

(* ===================================================================== *)
(** ** Concrete requests, worlds and streams *)
(* ===================================================================== *)

Module Sample.
Import Relay.

Definition hi : ClientMessage := {| role := user; content := JS.lit "hi" |}.
Definition blank : ClientMessage := {| role := assistant; content := [] |}.

Definition s1 : jsstring := JS.lit "session-1".
Definition s2 : jsstring := JS.lit "session-2".

Definition no_world : World := {| conversations := ∅; trace := [] |}.

(** Clock readings, in milliseconds: a first request, and a later one
    just when an entry stored by the first expires. *)
Definition t0 : Z := 1700000000000.
Definition t1 : Z := t0 + CONVO_TTL_MS.

Definition request (history : list ClientMessage) (sid : option jsstring)
  : RequestBody :=
  {| body_messages := Some history; body_sessionId := sid |}.

Definition platform (req : RequestBody) (key : option jsstring)
    (now : Z) (r : FetchResult) : Platform :=
  {| req_json := Some req; GEMINI_API_KEY := key;
     now_sweep := now; now_set := now; random := 0;
     fetch := fun _ => r |}.

Definition secret : option jsstring := Some (JS.lit "key").

(** An upstream answer 503 with a short body. *)
Definition unavailable : UpstreamResponse :=
  {| status := 503; statusText := JS.lit "Service Unavailable";
     body := Some (ByteStream.Make [TextEncoder.encode (JS.lit "busy")]
                                   false) |}.

(** The upstream call throws. *)
Definition P_network : Platform :=
  platform (request [hi] (Some s1)) secret t0 NetworkError.

Definition P_unavailable : Platform :=
  platform (request [hi] (Some s1)) secret t0 (Responded unavailable).

(** An empty assistant message that is not the last one. *)
Definition P_blank_first : Platform :=
  platform (request [blank; hi] (Some s1)) secret t0 NetworkError.

(** The world after a first request of session [s1] at [t0]: its entry
    expires at [t1]. *)
Definition stale_world : World := (POST P_network no_world).2.

(** No credential, at [t1]; the session of the request is the stale
    one. *)
Definition P_no_key : Platform :=
  platform (request [hi] (Some s1)) None t1 NetworkError.

(** No credential and no session identifier. *)
Definition P_no_key_no_sid : Platform :=
  platform (request [hi] None) None t0 NetworkError.

(** Two requests without a session identifier, with the credential. *)
Definition P_anonymous (random : N) : Platform :=
  {| req_json := Some (request [hi] None); GEMINI_API_KEY := secret;
     now_sweep := t0; now_set := t0; random := random;
     fetch := fun _ => NetworkError |}.

(** Events: the text [Hel], a payload that is not JSON, an object cut
    short, the text [lo]. *)
Definition Hel : Event :=
  event (JS.dq "{'candidates':[{'content':{'parts':[{'text':'Hel'}]}}]}").
Definition junk : Event := event (JS.dq "{'candidates': oops}").
Definition cut_short : Event := event (JS.dq "{'candidates':[{'content'").
Definition lo : Event :=
  event (JS.dq "{'candidates':[{'content':{'parts':[{'text':'lo'}]}}]}").

(** The bytes of the first event, whole and cut after 40 bytes. *)
Definition Hel_bytes : bytes := TextEncoder.encode (render Hel).
Definition Hel_head : bytes := take 40 Hel_bytes.
Definition Hel_tail : bytes := drop 40 Hel_bytes.

(** One chunk with the events: two carry text, two are malformed. *)
Definition four_events : bytes :=
  TextEncoder.encode
    (render Hel ++ render junk ++ render cut_short ++ render lo).


(** The text [H], a line separator U+2028, [i]: the payload is JSON,
    and the event is one line of an event stream. *)
Definition separated : Event :=
  event (JS.dq "{'candidates':[{'content':{'parts':[{'text':'H"
         ++ [0x2028] ++ JS.dq "i'}]}}]}").




(** A second request without a session identifier, a little later and
    with a longer history. *)
Definition P_anonymous_again (random : N) : Platform :=
  {| req_json := Some (request [hi; hi] None); GEMINI_API_KEY := secret;
     now_sweep := t0 + 1; now_set := t0 + 1; random := random;
     fetch := fun _ => NetworkError |}.

(** A request of session [s2], a little after [t0]. *)
Definition P_second : Platform :=
  platform (request [hi] (Some s2)) secret (t0 + 1) NetworkError.

(** The world after a request of session [s1] at [t0] and one of
    session [s2] after it. *)
Definition two_sessions : World := (POST P_second stale_world).2.

End Sample.

Module ClientSample.
Import ChatView.

(** The component once mounted, with nothing in local storage. *)
Definition ready : State := mount None 7 initial.

Definition hello : jsstring := JS.lit "  hello ".

(** The user has typed a message. *)
Definition typed : State := type hello ready.

(** A turn whose request is in flight. *)
Definition sending : State := onSubmit 1 2 typed.

(** The bytes of [é!], split in the middle of the two-byte sequence. *)
Definition split_chunks : list bytes := [[xc3]; [xa9; x21]].

End ClientSample.

(** ** The session identifier across page loads *)

Module Storage.

(** [window.localStorage] as far as the component uses it: the value
    under the key [chat_session_id], and whether [setItem] throws, as it
    does when the quota is exceeded or storage is refused. Reading is
    taken to succeed: the component does not catch an exception of
    [getItem]. *)
Record t := {
  chat_session_id : option jsstring;
  refuses : bool }.

Definition getItem (ls : t) : option jsstring := chat_session_id ls.

(** [None] when [setItem] throws. *)
Definition setItem (value : jsstring) (ls : t) : option t :=
  if refuses ls then None
  else Some {| chat_session_id := Some value; refuses := refuses ls |}.

End Storage.

Module Page.
Import ChatView.

Definition setSessionId (sid : option jsstring) (st : State) : State :=
  {| messages := messages st; loading := loading st; error := error st;
     sessionId := sid; input := input st; running := running st |}.

(** The effect of [ChatView] run after the first render, in the
    browser: the random bits are those of [crypto.randomUUID]. *)
Definition useEffect (random : N) (ls : Storage.t) (st : State)
  : State * Storage.t :=
  let sid := Storage.getItem ls in
  if negb (truthy sid) then
    let sid := UUID.v4 random in
    (* try { setItem } catch { ignore } *)
    let ls := default ls (Storage.setItem sid ls) in
    (setSessionId (Some sid) st, ls)
  else (setSessionId sid st, ls).

(** One load of the page: the component starts from its initial state
    and runs the effect. *)
Definition load (random : N) (ls : Storage.t) : State * Storage.t :=
  useEffect random ls initial.

End Page.

(** ** From the component to the handler *)

Module Wire.

Definition to_wire (m : ChatView.Message) : Relay.ClientMessage :=
  {| Relay.role := match ChatView.role m with
                   | ChatView.user => Relay.user
                   | ChatView.assistant => Relay.assistant
                   end;
     Relay.content := ChatView.content m |}.

(** The body [handleSend] posts, as [req.json()] gives it back to the
    handler: [[...messages, userMsg].map(m => ({ role, content }))]
    and the session identifier. *)
Definition request_body (text : jsstring) (random1 : N)
    (st : ChatView.State) : Relay.RequestBody :=
  let userMsg := {| ChatView.id := UUID.v4 random1;
                    ChatView.role := ChatView.user;
                    ChatView.content := text |} in
  {| Relay.body_messages :=
       Some (to_wire <$> (ChatView.messages st ++ [userMsg]));
     Relay.body_sessionId := ChatView.sessionId st |}.

End Wire.

(** ** Well-formed strings *)

Module Unicode.
Import UTF8.

(** [String.prototype.isWellFormed]: code units, with every surrogate
    part of a pair. *)
Fixpoint well_formed (s : jsstring) : bool :=
  match s with
  | [] => true
  | c :: rest =>
      if is_high_surrogate c then
        match rest with
        | d :: rest' => is_low_surrogate d && well_formed rest'
        | [] => false
        end
      else negb (is_low_surrogate c) && (c <? 0x10000) && well_formed rest
  end.

(** A Unicode scalar value: a code point that is not a surrogate. *)
Definition is_scalar (cp : N) : Prop :=
  cp < 0xD800 ∨ 0xE000 <= cp < 0x110000.

(** A string without the byte order mark it may start with. *)
Definition strip_bom (s : jsstring) : jsstring :=
  match s with
  | c :: rest => if c =? 0xFEFF then rest else s
  | [] => []
  end.

End Unicode.

(** ** The events of the upstream *)

Module Upstream.

(** A code unit that stands for itself in a JSON string: no control
    character, quotation mark or reverse solidus. The line separators
    U+2028 and U+2029 are among them. *)
Definition unescaped (c : N) : bool :=
  (0x20 <=? c) && negb (c =? 34) && negb (c =? 92).

(** The payload of an event of the reply, reduced to what the handler
    reads: one candidate whose content has one part, the text [t]
    written out as it is. *)
Definition payload_of (t : jsstring) : jsstring :=
  JS.dq "{'candidates':[{'content':{'parts':[{'text':'"
  ++ t ++ JS.dq "'}]}}]}".

#[global] Arguments payload_of : simpl never.

End Upstream.

(** ** Events as the pattern takes them *)

Module Framing.
Import Pattern Relay.

(** What the pattern does after the marker: white space, an opening
    brace, and on to the last closing brace of the line; the capture
    and what follows it. *)
Definition after_marker (s : jsstring) : option (jsstring * jsstring) :=
  match JS.trim_start s with
  | c :: rest =>
      if c =? open_brace then
        match dot_star_brace rest with
        | Some (m, after) => Some (c :: m, after)
        | None => None
        end
      else None
  | [] => None
  end.

(** The part of a payload the handler hands to [JSON.parse]. *)
Definition captured (p : jsstring) : option jsstring :=
  fst <$> after_marker p.

(** What is left of a payload for the search of further matches: what
    follows the part captured, or all of it when nothing is. *)
Definition beyond (p : jsstring) : jsstring :=
  match after_marker p with
  | Some (_, after) => after
  | None => p
  end.


Definition one_line (s : jsstring) : bool :=
  forallb (fun c => negb (JS.is_line_terminator c)) s.

(** An event that is ended: the marker, white space, a payload, and at
    least one line terminator. *)
Definition ended (e : Event) : bool :=
  forallb JS.is_white_space (gap e)
  && match terminator e with [] => false | _ :: _ => true end
  && forallb JS.is_line_terminator (terminator e).



(** No closing brace before the first line terminator. *)
Definition line_brace_free (s : jsstring) : Prop :=
  ∀ pre post, s = pre ++ close_brace :: post ->
              ∃ t, t ∈ pre ∧ JS.is_line_terminator t = true.

(** In words: [c] is the part of the payload [p] from its opening
    brace, which only white space precedes, to the last closing brace of
    that line, and [after] is what follows. *)
Definition parsed_part (p c after : jsstring) : Prop :=
  ∃ ws, p = ws ++ c ++ after
        ∧ forallb JS.is_white_space ws = true
        ∧ framed c = true
        ∧ line_brace_free after.

End Framing.

(** ** The headers of a response *)

Module Fetch.
Import Relay.

(** Header names are matched whatever their case. *)
Definition lower (c : N) : N := if UTF8.between 65 90 c then c + 32 else c.

Definition same_name (a b : jsstring) : bool :=
  bool_decide (lower <$> a = lower <$> b).

(** The type a body brings with it: a string is sent as UTF-8 text, a
    stream has no type of its own. *)
Definition body_type (b : ResponseBody) : option jsstring :=
  match b with
  | Text _ => Some (JS.lit "text/plain;charset=UTF-8")
  | Stream _ => None
  end.

(** The header list of [new Response(body, { status, headers })]: the
    headers given, in order, and then the type of the body unless a
    [Content-Type] is among them. The names and values the handler
    gives are valid, and carry no white space to strip. *)
Definition header_list (r : Response) : list (jsstring * jsstring) :=
  match body_type (resp_body r) with
  | Some type =>
      if existsb (fun h => same_name h.1 (JS.lit "Content-Type"))
                 (resp_headers r)
      then resp_headers r
      else resp_headers r ++ [(JS.lit "Content-Type", type)]
  | None => resp_headers r
  end.

(** [response.headers.get(name)]: the values under the name, joined by a
    comma and a space; [None] is [null]. *)
Definition get (r : Response) (name : jsstring) : option jsstring :=
  match List.filter (fun h => same_name h.1 name) (header_list r) with
  | [] => None
  | h :: hs => Some (fold_left (fun acc h' => acc ++ JS.lit ", " ++ h'.2)
                               hs h.2)
  end.

End Fetch.

(** ** The address of the upstream call *)

Module URI.

(** The characters [encodeURIComponent] leaves as they are: letters,
    digits and [- _ . ! ~ * ' ( )]. *)
Definition unreserved (c : N) : bool :=
  UTF8.between 65 90 c || UTF8.between 97 122 c || UTF8.between 48 57 c
  || (c =? 45) || (c =? 95) || (c =? 46) || (c =? 33) || (c =? 126)
  || (c =? 42) || (c =? 39) || (c =? 40) || (c =? 41).

(** A hexadecimal digit in upper case. *)
Definition hex_upper (d : N) : N := if d <? 10 then 48 + d else 55 + d.

(** The escape of one byte: a percent sign and two digits. *)
Definition percent (b : byte) : jsstring :=
  [37; hex_upper (Byte.to_N b / 16); hex_upper (Byte.to_N b mod 16)].

(** [encodeURIComponent(s)]; [None] when it throws a URIError, which
    it does on a surrogate that is not part of a pair. *)
Fixpoint encodeURIComponent (s : jsstring) : option jsstring :=
  match s with
  | [] => Some []
  | c :: rest =>
      if unreserved c then cons c <$> encodeURIComponent rest
      else if UTF8.is_high_surrogate c then
        match rest with
        | d :: rest' =>
            if UTF8.is_low_surrogate d then
              app (UTF8.encode_scalar
                     (0x10000 + N.shiftl (c - 0xD800) 10 + (d - 0xDC00))
                   ≫= percent)
              <$> encodeURIComponent rest'
            else None
        | [] => None
        end
      else if UTF8.is_low_surrogate c then None
      else app (UTF8.encode_scalar c ≫= percent) <$> encodeURIComponent rest
  end.

(** The address of the upstream call. *)
Definition url (model apiKey : jsstring) : option jsstring :=
  m ← encodeURIComponent model;
  k ← encodeURIComponent apiKey;
  Some (JS.lit "https://generativelanguage.googleapis.com/v1/models/"
        ++ m ++ JS.lit ":streamGenerateContent?alt=sse&key=" ++ k).

(** What an encoded component is made of. *)
Definition safe (c : N) : bool := unreserved c || (c =? 37).

End URI.

(** ** [JSON.stringify] and the body of the request *)

Module Stringify.

(** A hexadecimal digit in lower case. *)
Definition hex_lower (d : N) : N := if d <? 10 then 48 + d else 87 + d.

(** UnicodeEscape: a reverse solidus, [u] and four digits. *)
Definition unicode_escape (c : N) : jsstring :=
  [92; 117; hex_lower (c / 4096); hex_lower ((c / 256) mod 16);
   hex_lower ((c / 16) mod 16); hex_lower (c mod 16)].

(** QuoteJSONString, between the quotation marks: the short escapes,
    the Unicode escape for the other control characters and for a
    surrogate that is not part of a pair, every other character as it
    is. *)
Fixpoint quote_chars (s : jsstring) : jsstring :=
  match s with
  | [] => []
  | c :: rest =>
      if c =? 8 then 92 :: 98 :: quote_chars rest
      else if c =? 9 then 92 :: 116 :: quote_chars rest
      else if c =? 10 then 92 :: 110 :: quote_chars rest
      else if c =? 12 then 92 :: 102 :: quote_chars rest
      else if c =? 13 then 92 :: 114 :: quote_chars rest
      else if c =? 34 then 92 :: 34 :: quote_chars rest
      else if c =? 92 then 92 :: 92 :: quote_chars rest
      else if c <? 0x20 then unicode_escape c ++ quote_chars rest
      else if UTF8.is_high_surrogate c then
        match rest with
        | d :: rest' =>
            if UTF8.is_low_surrogate d then c :: d :: quote_chars rest'
            else unicode_escape c ++ quote_chars rest
        | [] => unicode_escape c
        end
      else if UTF8.is_low_surrogate c then
        unicode_escape c ++ quote_chars rest
      else c :: quote_chars rest
  end.

(** [JSON.stringify(s)] of a string. *)
Definition quote (s : jsstring) : jsstring := 34 :: quote_chars s ++ [34].

(** The texts of the elements or members, separated by commas. *)
Fixpoint join (items : list jsstring) : jsstring :=
  match items with
  | [] => []
  | x :: rest =>
      match rest with
      | [] => x
      | _ :: _ => x ++ 44 :: join rest
      end
  end.

(** SerializeJSONProperty without indentation: [JSON.stringify(v)]. *)
Fixpoint stringify (v : JSON.value) : jsstring :=
  match v with
  | JSON.Null => JSON.null_word
  | JSON.Bool b => if b then JSON.true_word else JSON.false_word
  | JSON.Num n => ES.number_to_string n
  | JSON.Str s => quote s
  | JSON.Arr l => 91 :: join (map stringify l) ++ [93]
  | JSON.Obj ms =>
      123 :: join (map (fun '(k, x) => quote k ++ 58 :: stringify x) ms)
          ++ [125]
  end.

(** The values whose text is read back as they are: strings and
    names are made of code units, and there is no number (a number is
    read back as the same number, written differently). *)
Fixpoint plain_value (v : JSON.value) : bool :=
  match v with
  | JSON.Null | JSON.Bool _ => true
  | JSON.Num _ => false
  | JSON.Str s => forallb (fun c => c <? 0x10000) s
  | JSON.Arr l => forallb plain_value l
  | JSON.Obj ms =>
      forallb (fun '(k, x) => forallb (fun c => c <? 0x10000) k
                              && plain_value x) ms
  end.

(** A text starts with a character that is not white space and closes
    neither an array nor an object. *)
Definition opens (s : jsstring) : Prop :=
  ∃ c tail, s = c :: tail ∧ JSON.is_ws c = false ∧ c ≠ 93 ∧ c ≠ 125.

(** With fuel left, the parser reads a value back from its text. *)
Definition reads_back (v : JSON.value) : Prop :=
  ∀ fuel rest,
    JSON.parse_value fuel (stringify v ++ rest) = JSON.Ok v rest
    ∨ JSON.parse_value fuel (stringify v ++ rest) = JSON.OutOfFuel.

End Stringify.

Module Body.

Definition messages_name : jsstring := Eval vm_compute in JS.lit "messages".
Definition sessionId_name : jsstring := Eval vm_compute in JS.lit "sessionId".
Definition role_name : jsstring := Eval vm_compute in JS.lit "role".
Definition content_name : jsstring := Eval vm_compute in JS.lit "content".
Definition user_word : jsstring := Eval vm_compute in JS.lit "user".
Definition assistant_word : jsstring := Eval vm_compute in JS.lit "assistant".

(** [{ role: m.role, content: m.content }] *)
Definition message (m : ChatView.Message) : JSON.value :=
  JSON.Obj [(role_name,
             JSON.Str match ChatView.role m with
                      | ChatView.user => user_word
                      | ChatView.assistant => assistant_word
                      end);
            (content_name, JSON.Str (ChatView.content m))].

(** The object [handleSend] hands to [JSON.stringify]. *)
Definition posted (text : jsstring) (random1 : N) (st : ChatView.State)
  : JSON.value :=
  let userMsg := {| ChatView.id := UUID.v4 random1;
                    ChatView.role := ChatView.user;
                    ChatView.content := text |} in
  JSON.Obj [(messages_name,
             JSON.Arr (message <$> (ChatView.messages st ++ [userMsg])));
            (sessionId_name,
             match ChatView.sessionId st with
             | Some sid => JSON.Str sid
             | None => JSON.Null
             end)].

(** The text of the request body. *)
Definition text_of_request (text : jsstring) (random1 : N)
    (st : ChatView.State) : jsstring :=
  Stringify.stringify (posted text random1 st).

(** A parsed message at the type the handler gives it; [None] when the
    value is not of that type, which the handler does not check. *)
Definition typed_message (v : JSON.value) : option Relay.ClientMessage :=
  match ES.Get v (ES.Name role_name), ES.Get v (ES.Name content_name) with
  | Some (JSON.Str r), Some (JSON.Str c) =>
      if decide (r = assistant_word)
      then Some {| Relay.role := Relay.assistant; Relay.content := c |}
      else if decide (r = user_word)
      then Some {| Relay.role := Relay.user; Relay.content := c |}
      else None
  | _, _ => None
  end.

(** [const { messages, sessionId } = await req.json()] on a parsed
    body, at the type of the annotation; a property that is [null] is
    taken as absent, as [messages || []] and [sessionId || ...] take
    it. *)
Definition typed (v : JSON.value) : option Relay.RequestBody :=
  match v with
  | JSON.Obj _ =>
      messages ← match ES.Get v (ES.Name messages_name) with
                 | None | Some JSON.Null => Some None
                 | Some (JSON.Arr l) => Some <$> mapM typed_message l
                 | Some _ => None
                 end;
      sessionId ← match ES.Get v (ES.Name sessionId_name) with
                  | None | Some JSON.Null => Some None
                  | Some (JSON.Str s) => Some (Some s)
                  | Some _ => None
                  end;
      Some {| Relay.body_messages := messages;
              Relay.body_sessionId := sessionId |}
  | _ => None
  end.

End Body.

(** ** The copy button of a code block *)

Module CodeBlock.

(** The [copied] cell of a [CodeBlock] and the timeouts it has set and
    that have not run yet, each by the time it is due, in
    milliseconds. *)
Record State := {
  copied : bool;
  timers : list N }.

Definition initial : State := {| copied := false; timers := [] |}.

(** [onCopy] from the moment [writeText] has settled, at time [now]:
    when the write was refused the exception is swallowed. *)
Definition onCopy (written : bool) (now : N) (st : State) : State :=
  if written then
    {| copied := true; timers := timers st ++ [now + 1200] |}
  else st.

(** The timeouts due by [now] run: each sets [copied] to [false]. *)
Definition run_timers (now : N) (st : State) : State :=
  {| copied := if existsb (fun due => due <=? now) (timers st)
               then false else copied st;
     timers := List.filter (fun due => now <? due) (timers st) |}.

(** What can happen to the block: a write to the clipboard settles, or
    time passes. *)
Inductive Event :=
| Settled (written : bool) (now : N)
| Passed (now : N).

Definition step (st : State) (e : Event) : State :=
  match e with
  | Settled written now => onCopy written now (run_timers now st)
  | Passed now => run_timers now st
  end.

Inductive reachable : State -> Prop :=
| reachable_initial : reachable initial
| reachable_step st e : reachable st -> reachable (step st e).

End CodeBlock.

(* ===================================================================== *)
(** * Properties *)
(* ===================================================================== *)

(** ** The conversation cache *)

Section Cache.
Import Relay.
Implicit Types (m : gmap jsstring StoredConversation) (k sid : jsstring).
Implicit Types (v : StoredConversation) (now : Z).

Lemma sweep_lookup now entries m k :
  sweep now entries m !! k
  = if expired_in now entries k then None else m !! k.
Proof.
  revert m. induction entries as [|[k0 v0] entries IH]; intros m; [done|].
  change (sweep now ((k0, v0) :: entries) m)
    with (sweep now entries
            (if (expiresAt v0 <=? now)%Z then delete k0 m else m)).
  change (expired_in now ((k0, v0) :: entries) k)
    with (bool_decide (k0 = k) && (expiresAt v0 <=? now)%Z
          || expired_in now entries k).
  rewrite IH. destruct (expired_in now entries k); [by rewrite orb_true_r|].
  rewrite orb_false_r.
  destruct (expiresAt v0 <=? now)%Z; simpl.
  - rewrite andb_true_r. case_bool_decide as Hk.
    + subst. apply lookup_delete_eq.
    + by apply lookup_delete_ne.
  - by rewrite andb_false_r.
Qed.

Lemma expired_in_map_to_list now m k :
  expired_in now (map_to_list m) k
  = match m !! k with
    | Some v => (expiresAt v <=? now)%Z
    | None => false
    end.
Proof.
  apply eq_true_iff_eq. unfold expired_in. rewrite existsb_exists. split.
  - intros [[k' v] [Hin Hb]]. apply andb_true_iff in Hb as [Hk Hv].
    apply bool_decide_eq_true in Hk. subst k'.
    apply list_elem_of_In, elem_of_map_to_list in Hin. by rewrite Hin.
  - destruct (m !! k) as [v|] eqn:Hm; [|done]. intros Hv.
    exists (k, v). split.
    + by apply list_elem_of_In, elem_of_map_to_list.
    + by rewrite bool_decide_eq_true_2.
Qed.

(** The sweep keeps exactly the entries whose expiry lies after [now],
    and keeps them as they are. *)
Lemma cleanupExpired_lookup now m k :
  cleanupExpired now m !! k
  = match m !! k with
    | Some v => if (expiresAt v <=? now)%Z then None else Some v
    | None => None
    end.
Proof.
  unfold cleanupExpired. rewrite sweep_lookup, expired_in_map_to_list.
  by destruct (m !! k).
Qed.

End Cache.

(** ** The handler, path by path *)

Section Handler.
Import Relay.
Implicit Types (P : Platform) (w : World) (req : RequestBody).

(** Runs the handler on a request body that is known. *)
Ltac run_POST Hreq :=
  unfold POST, try_catch, mbind, M_bind; rewrite Hreq; cbn.

Lemma POST_bad_json P w :
  req_json P = None -> POST P w = (Returned bad_request, w).
Proof. intros Hreq. by run_POST Hreq. Qed.

(** Without the credential: the sweep, then the 500 response. *)
Lemma POST_missing_key P w req :
  req_json P = Some req ->
  truthy (GEMINI_API_KEY P) = None ->
  POST P w
  = (Returned missing_key,
     {| conversations := cleanupExpired (now_sweep P) (conversations w);
        trace := trace w ++ [Swept (now_sweep P)] |}).
Proof.
  intros Hreq Hkey. run_POST Hreq. by rewrite Hkey.
Qed.

(** With the credential: the sweep, the [set], the upstream call, in
    this order, whatever the upstream call comes to. *)
Lemma POST_with_key P w req apiKey :
  req_json P = Some req ->
  truthy (GEMINI_API_KEY P) = Some apiKey ->
  POST P w
  = (Returned (reply (fetch P (contents_of req))),
     {| conversations :=
          <[sid_of P req := entry_of P req]>
            (cleanupExpired (now_sweep P) (conversations w));
        trace := trace w ++ [Swept (now_sweep P);
                             Stored (sid_of P req) (entry_of P req);
                             Fetched model apiKey (contents_of req)] |}).
Proof.
  intros Hreq Hkey. run_POST Hreq. rewrite Hkey. cbn.
  fold (contents_of req) (sid_of P req) (entry_of P req).
  rewrite <- !app_assoc. cbn [app].
  destruct (fetch P (contents_of req)) as [|upstream]; cbn; [done|].
  fold (failed upstream). by destruct (failed upstream).
Qed.

End Handler.

(** ** The cache across requests *)

Section CacheClaims.
Import Relay.
Implicit Types (P : Platform) (w : World) (req : RequestBody).
Implicit Types (m : gmap jsstring StoredConversation) (k sid : jsstring).

(** C8. The [set] of a request that passes the credential check writes
    the entry of its session with the expiry one TTL, an hour, after the
    clock reading, and the entry is in the map and in its enumeration
    right after the request. The sweep of a later request whose body is
    read, run at a time that is the TTL or more past that [set],
    removes the entry from the map and from its enumeration, unless that
    request sets the same session again. And the sweep of a request
    neither removes nor alters an entry whose expiry has not been
    reached: an entry of another session is in the map and in the
    enumeration, unchanged, after the request. *)
Theorem cache_set_then_sweep P w req apiKey :
  req_json P = Some req ->
  truthy (GEMINI_API_KEY P) = Some apiKey ->
  let sid := sid_of P req in
  let entry :=
    {| messages := List.filter keep (default [] (body_messages req));
       expiresAt := now_set P + 60 * 60 * 1000 |} in
  (conversations (POST P w).2 !! sid = Some entry
   ∧ (sid, entry) ∈ map_to_list (conversations (POST P w).2))
  ∧ (∀ P' w' req',
       req_json P' = Some req' ->
       conversations w' !! sid = Some entry ->
       (now_set P + 60 * 60 * 1000 <= now_sweep P')%Z ->
       truthy (GEMINI_API_KEY P') = None ∨ sid_of P' req' ≠ sid ->
       conversations (POST P' w').2 !! sid = None
       ∧ ∀ v, (sid, v) ∉ map_to_list (conversations (POST P' w').2))
  ∧ (∀ P' w' req' k v,
       req_json P' = Some req' ->
       conversations w' !! k = Some v ->
       (now_sweep P' < expiresAt v)%Z ->
       truthy (GEMINI_API_KEY P') = None ∨ sid_of P' req' ≠ k ->
       conversations (POST P' w').2 !! k = Some v
       ∧ (k, v) ∈ map_to_list (conversations (POST P' w').2)).
Proof.
  intros Hreq Hkey sid entry.
  assert (∀ P' w' req' k,
            req_json P' = Some req' ->
            truthy (GEMINI_API_KEY P') = None ∨ sid_of P' req' ≠ k ->
            conversations (POST P' w').2 !! k
            = match conversations w' !! k with
              | Some v => if (expiresAt v <=? now_sweep P')%Z
                          then None else Some v
              | None => None
              end) as Hother.
  { intros P' w' req' k Hreq' Hset. rewrite <- cleanupExpired_lookup.
    destruct (truthy (GEMINI_API_KEY P')) as [key'|] eqn:Hkey'.
    - destruct Hset as [|Hne]; [done|].
      rewrite (POST_with_key P' w' req' key' Hreq' Hkey').
      cbn [snd conversations]. by rewrite lookup_insert_ne.
    - by rewrite (POST_missing_key P' w' req' Hreq' Hkey'). }
  split; [|split].
  - assert (conversations (POST P w).2 !! sid = Some entry) as Hset.
    { rewrite (POST_with_key P w req apiKey Hreq Hkey).
      cbn [snd conversations]. apply lookup_insert_eq. }
    split; [exact Hset|]. apply elem_of_map_to_list. exact Hset.
  - intros P' w' req' Hreq' Hin Hlate Hset.
    assert (conversations (POST P' w').2 !! sid = None) as Hgone.
    { rewrite (Hother P' w' req' sid Hreq' Hset), Hin. cbn [expiresAt entry].
      destruct (Z.leb_spec (now_set P + 60 * 60 * 1000) (now_sweep P'));
        [done|lia]. }
    split; [done|]. intros v Hv. apply elem_of_map_to_list in Hv. congruence.
  - intros P' w' req' k v Hreq' Hin Hlive Hset.
    assert (conversations (POST P' w').2 !! k = Some v) as Hkept.
    { rewrite (Hother P' w' req' k Hreq' Hset), Hin.
      destruct (Z.leb_spec (expiresAt v) (now_sweep P')); [lia|done]. }
    split; [done|]. by apply elem_of_map_to_list.
Qed.

Lemma cache_set_then_sweep_witness :
  conversations Sample.stale_world !! Sample.s1
  = Some {| messages := [Sample.hi]; expiresAt := Sample.t1 |}
  ∧ conversations (POST Sample.P_no_key Sample.two_sessions).2 !! Sample.s1
    = None
  ∧ conversations (POST Sample.P_no_key Sample.two_sessions).2 !! Sample.s2
    = Some {| messages := [Sample.hi]; expiresAt := Sample.t1 + 1 |}.
Proof.
  destruct (cache_set_then_sweep Sample.P_network Sample.no_world
              (Sample.request [Sample.hi] (Some Sample.s1)) (JS.lit "key")
              eq_refl eq_refl) as ([Hset _] & Hgone & Hkept).
  split_and!.
  - exact Hset.
  - apply (Hgone Sample.P_no_key Sample.two_sessions
             (Sample.request [Sample.hi] (Some Sample.s1)) eq_refl).
    + vm_compute. reflexivity.
    + vm_compute. discriminate.
    + left. reflexivity.
  - apply (Hkept Sample.P_no_key Sample.two_sessions
             (Sample.request [Sample.hi] (Some Sample.s1)) Sample.s2
             _ eq_refl).
    + vm_compute. reflexivity.
    + reflexivity.
    + left. reflexivity.
Defined.

(** C10, as stated, fails: without the credential the sweep that runs
    first removes the entry of the request's own session when that
    entry has expired. *)
Lemma missing_key_entry_changes :
  Relay.reachable Sample.stale_world
  ∧ body_sessionId <$> req_json Sample.P_no_key = Some (Some Sample.s1)
  ∧ (POST Sample.P_no_key Sample.stale_world).1 = Returned missing_key
  ∧ conversations Sample.stale_world !! Sample.s1
    = Some {| messages := [Sample.hi]; expiresAt := Sample.t1 |}
  ∧ conversations (POST Sample.P_no_key Sample.stale_world).2 !! Sample.s1
    = None.
Proof.
  split; [apply reachable_POST, reachable_start|]. vm_compute. done.
Qed.

(** C10, amended. Without the credential the handler answers 500 and
    does no [set] and no upstream call: the cache is left as the sweep
    leaves it, so the entry of the request's session is unchanged
    unless it had expired, in which case the sweep has removed it. *)
Theorem missing_key_no_set P w req :
  req_json P = Some req ->
  truthy (GEMINI_API_KEY P) = None ->
  (POST P w).1 = Returned missing_key
  ∧ resp_status missing_key = 500
  ∧ conversations (POST P w).2
    = cleanupExpired (now_sweep P) (conversations w)
  ∧ trace (POST P w).2 = trace w ++ [Swept (now_sweep P)]
  ∧ conversations (POST P w).2 !! sid_of P req
    = match conversations w !! sid_of P req with
      | Some v => if (expiresAt v <=? now_sweep P)%Z then None else Some v
      | None => None
      end.
Proof.
  intros Hreq Hkey. rewrite (POST_missing_key P w req Hreq Hkey). cbn.
  split_and!; try done. apply cleanupExpired_lookup.
Qed.

Lemma missing_key_no_set_witness :
  conversations (POST Sample.P_no_key Sample.stale_world).2
  = cleanupExpired Sample.t1 (conversations Sample.stale_world).
Proof.
  apply (missing_key_no_set Sample.P_no_key Sample.stale_world
           (Sample.request [Sample.hi] (Some Sample.s1))); reflexivity.
Defined.

End CacheClaims.

(** ** The identifier drawn *)

Section Identifier.
Import UUID.
Ltac Zify.zify_post_hook ::= Z.to_euclidean_division_equations.

Lemma hex_char_inj d1 d2 :
  d1 < 16 -> d2 < 16 -> hex_char d1 = hex_char d2 -> d1 = d2.
Proof.
  unfold hex_char. intros H1 H2.
  destruct (N.ltb_spec d1 10), (N.ltb_spec d2 10); lia.
Qed.

Lemma octet_bound r i : octet r i < 256.
Proof. unfold octet. lia. Qed.

Lemma below_forallb (p : N -> bool) (m : nat) :
  forallb (fun k => p (N.of_nat k)) (seq 0 m) = true ->
  ∀ n, n < N.of_nat m -> p n = true.
Proof.
  intros Hall n Hn. rewrite forallb_forall in Hall.
  rewrite <- (N2Nat.id n). apply Hall, in_seq. lia.
Qed.

Lemma octet_testbit r i j :
  j < 8 -> N.testbit (octet r i) j = N.testbit r (j + 8 * (15 - i)).
Proof.
  intros Hj. unfold octet. change 256 with (2 ^ 8).
  rewrite N.mod_pow2_bits_low by done. apply N.shiftr_spec. lia.
Qed.

Lemma octet_testbit_high r i j : 8 <= j -> N.testbit (octet r i) j = false.
Proof.
  intros Hj. unfold octet. change 256 with (2 ^ 8).
  by apply N.mod_pow2_bits_high.
Qed.

Lemma fixed_bits_spec n :
  N.testbit fixed_bits n
  = ((76 <=? n) && (n <=? 79)) || ((62 <=? n) && (n <=? 63)).
Proof.
  destruct (N.lt_ge_cases n 128) as [Hn|Hn].
  - apply Bool.eqb_prop.
    apply (below_forallb
             (fun n => Bool.eqb (N.testbit fixed_bits n)
                         (((76 <=? n) && (n <=? 79))
                          || ((62 <=? n) && (n <=? 63)))) 128);
      [|done].
    vm_compute. reflexivity.
  - rewrite N.bits_above_log2 by (change (N.log2 fixed_bits) with 79; lia).
    assert ((n <=? 79) = false) as -> by (apply N.leb_gt; lia).
    assert ((n <=? 63) = false) as -> by (apply N.leb_gt; lia).
    by rewrite !andb_false_r.
Qed.

(** The kept bits are those of the draw below bit 128, the fixed ones
    cleared. *)
Lemma random_bits_testbit r n :
  N.testbit (random_bits r) n
  = N.testbit r n && (n <? 128)
    && negb (((76 <=? n) && (n <=? 79)) || ((62 <=? n) && (n <=? 63))).
Proof.
  unfold random_bits.
  rewrite N.ldiff_spec, N.land_spec, fixed_bits_spec. f_equal. f_equal.
  destruct (N.ltb_spec n 128).
  - by apply N.ones_spec_low.
  - by apply N.ones_spec_high.
Qed.

(** The bytes of the kept bits: those of the draw, the version and the
    variant bits cleared. *)
Lemma octet_random_bits r i :
  i < 16 ->
  octet (random_bits r) i
  = N.land (octet r i)
      (if i =? 6 then 0x0F else if i =? 8 then 0x3F else 0xFF).
Proof.
  intros Hi. apply N.bits_inj. intros j.
  rewrite N.land_spec.
  destruct (N.lt_ge_cases j 8) as [Hj|Hj].
  - rewrite !octet_testbit, random_bits_testbit by done.
    assert ((j + 8 * (15 - i) <? 128) = true) as -> by (apply N.ltb_lt; lia).
    rewrite andb_true_r. f_equal.
    apply Bool.eqb_prop.
    pose proof
      (below_forallb
         (fun i =>
            forallb
              (fun k =>
                 Bool.eqb
                   (negb (((76 <=? N.of_nat k + 8 * (15 - i))
                           && (N.of_nat k + 8 * (15 - i) <=? 79))
                          || ((62 <=? N.of_nat k + 8 * (15 - i))
                              && (N.of_nat k + 8 * (15 - i) <=? 63))))
                   (N.testbit
                      (if i =? 6 then 0x0F else if i =? 8 then 0x3F else 0xFF)
                      (N.of_nat k)))
              (seq 0 8)) 16) as Hall.
    specialize (Hall ltac:(vm_compute; reflexivity) i Hi).
    exact (below_forallb
             (fun j =>
                Bool.eqb
                  (negb (((76 <=? j + 8 * (15 - i))
                          && (j + 8 * (15 - i) <=? 79))
                         || ((62 <=? j + 8 * (15 - i))
                             && (j + 8 * (15 - i) <=? 63))))
                  (N.testbit
                     (if i =? 6 then 0x0F else if i =? 8 then 0x3F else 0xFF)
                     j))
             8 Hall j Hj).
  - rewrite !octet_testbit_high by done. done.
Qed.

Lemma hex2_byte b1 b2 :
  hex2 b1 = hex2 b2 -> N.land b1 0xFF = N.land b2 0xFF.
Proof.
  unfold hex2. rewrite !N.shiftr_div_pow2. change (2 ^ 4) with 16.
  intros [= Hhigh Hlow].
  apply hex_char_inj in Hhigh; [|lia|lia].
  apply hex_char_inj in Hlow; [|lia|lia].
  change 0xFF with (N.ones 8). rewrite !N.land_ones. change (2 ^ 8) with 256.
  lia.
Qed.

Lemma land_byte a : a < 256 -> N.land a 0xFF = a.
Proof.
  intros Ha. change 0xFF with (N.ones 8). rewrite N.land_ones.
  by apply N.mod_small.
Qed.

(** Setting the version or the variant leaves the other bits of the
    byte as they are. *)
Lemma stamp_kept o keep stamp :
  N.land 0xFF keep = keep -> N.land keep keep = keep ->
  N.land stamp keep = 0 ->
  N.land (N.land (N.lor (N.land o keep) stamp) 0xFF) keep = N.land o keep.
Proof.
  intros H1 H2 H3.
  rewrite <- N.land_assoc, H1, N.land_lor_distr_l, <- N.land_assoc, H2, H3.
  apply N.lor_0_r.
Qed.

(** A number of 128 bits is given by its 16 bytes. *)
Lemma octets_inj a b :
  (∀ n, 128 <= n -> N.testbit a n = false) ->
  (∀ n, 128 <= n -> N.testbit b n = false) ->
  (∀ i, i < 16 -> octet a i = octet b i) ->
  a = b.
Proof.
  intros Ha Hb Hoctets. apply N.bits_inj. intros n.
  destruct (N.lt_ge_cases n 128) as [Hn|Hn].
  - assert (n = n mod 8 + 8 * (15 - (15 - n / 8))) as -> by lia.
    rewrite <- !octet_testbit by lia. rewrite Hoctets; [done|lia].
  - by rewrite Ha, Hb.
Qed.

Lemma random_bits_high r n : 128 <= n -> N.testbit (random_bits r) n = false.
Proof.
  intros Hn. rewrite random_bits_testbit.
  assert ((n <? 128) = false) as -> by (apply N.ltb_ge; lia).
  by rewrite andb_false_r.
Qed.

(** The identifier is made of the kept bits of the draw alone. *)
Lemma v4_random_bits r : v4 r = v4 (random_bits r).
Proof.
  unfold v4. rewrite !octet_random_bits by done.
  cbn [N.eqb Pos.eqb]. rewrite !land_byte by apply octet_bound.
  rewrite <- !N.land_assoc. done.
Qed.

(** Two draws give the same identifier only when their kept bits are
    the same. *)
Lemma v4_inj r1 r2 : v4 r1 = v4 r2 -> random_bits r1 = random_bits r2.
Proof.
  intros H. unfold v4 in H.
  repeat (apply app_inj_1 in H as [? H]; [|done]).
  apply octets_inj; [apply random_bits_high|apply random_bits_high|].
  intros i Hi. rewrite !octet_random_bits by done.
  assert (i = 0 ∨ i = 1 ∨ i = 2 ∨ i = 3 ∨ i = 4 ∨ i = 5 ∨ i = 6 ∨ i = 7
          ∨ i = 8 ∨ i = 9 ∨ i = 10 ∨ i = 11 ∨ i = 12 ∨ i = 13 ∨ i = 14
          ∨ i = 15) as Hcases by lia.
  repeat destruct Hcases as [->|Hcases]; try subst i; cbn [N.eqb Pos.eqb];
    try (by apply hex2_byte).
  - rewrite <- (stamp_kept (octet r1 6) 0x0F 0x40) by done.
    rewrite <- (stamp_kept (octet r2 6) 0x0F 0x40) by done.
    f_equal. by apply hex2_byte.
  - rewrite <- (stamp_kept (octet r1 8) 0x3F 0x80) by done.
    rewrite <- (stamp_kept (octet r2 8) 0x3F 0x80) by done.
    f_equal. by apply hex2_byte.
Qed.

Lemma v4_same r1 r2 : v4 r1 = v4 r2 <-> random_bits r1 = random_bits r2.
Proof.
  split; [apply v4_inj|]. intros H.
  by rewrite (v4_random_bits r1), (v4_random_bits r2), H.
Qed.

End Identifier.

(** ** What a request stores, and under which key *)

Section StoreClaims.
Import Relay.
Implicit Types (P : Platform) (w : World) (req : RequestBody).

(** C3, as stated, fails: an empty assistant message that is not the
    last of the history is removed from the stored list as well. *)
Lemma stored_history_drops_inner_blank :
  without_trailing_empty_assistant [Sample.blank; Sample.hi]
  = [Sample.blank; Sample.hi]
  ∧ messages <$> conversations (POST Sample.P_blank_first Sample.no_world).2
                 !! Sample.s1
    = Some [Sample.hi]
  ∧ [Sample.hi] ≠ [Sample.blank; Sample.hi].
Proof. vm_compute. done. Qed.

(** C3, amended. A request that passes the credential check overwrites
    the entry of its session with the inbound history from which every
    assistant message of empty content is removed, trailing or not, the
    other messages kept in order, and with the expiry one TTL after the
    clock reading; the [set] comes before the upstream call and does not
    depend on its outcome. *)
Theorem stored_history P w req apiKey :
  req_json P = Some req ->
  truthy (GEMINI_API_KEY P) = Some apiKey ->
  conversations (POST P w).2 !! sid_of P req
  = Some {| messages :=
              List.filter
                (fun m => negb (bool_decide (role m = assistant)
                                && bool_decide (content m = [])))
                (default [] (body_messages req));
            expiresAt := now_set P + 60 * 60 * 1000 |}
  ∧ trace (POST P w).2
    = trace w ++ [Swept (now_sweep P);
                  Stored (sid_of P req) (entry_of P req);
                  Fetched model apiKey (contents_of req)].
Proof.
  intros Hreq Hkey. rewrite (POST_with_key P w req apiKey Hreq Hkey). cbn.
  split; [|done]. rewrite lookup_insert_eq. unfold entry_of. do 2 f_equal.
  apply filter_ext. intros m. unfold keep. by destruct (content m).
Qed.

Lemma stored_history_witness :
  conversations (POST Sample.P_blank_first Sample.no_world).2 !! Sample.s1
  = Some {| messages := [Sample.hi]; expiresAt := Sample.t1 |}.
Proof.
  destruct (stored_history Sample.P_blank_first Sample.no_world
              (Sample.request [Sample.blank; Sample.hi] (Some Sample.s1))
              (JS.lit "key") eq_refl eq_refl) as [Hstored _].
  exact Hstored.
Defined.

Lemma v4_not_empty r : UUID.v4 r ≠ [].
Proof. discriminate. Qed.

Lemma sid_of_not_empty P req : sid_of P req ≠ [].
Proof.
  unfold sid_of, truthy. destruct (body_sessionId req) as [[|c s]|]; cbn;
    try discriminate; apply v4_not_empty.
Qed.

(** No request stores anything under the empty string. *)
Lemma reachable_no_empty_key w :
  reachable w -> conversations w !! [] = None.
Proof.
  induction 1 as [|w P Hw IH]; [done|].
  destruct (req_json P) as [req|] eqn:Hreq.
  - destruct (truthy (GEMINI_API_KEY P)) as [apiKey|] eqn:Hkey.
    + rewrite (POST_with_key P w req apiKey Hreq Hkey). cbn.
      rewrite lookup_insert_ne by apply sid_of_not_empty.
      rewrite cleanupExpired_lookup. by rewrite IH.
    + rewrite (POST_missing_key P w req Hreq Hkey). cbn.
      rewrite cleanupExpired_lookup. by rewrite IH.
  - by rewrite (POST_bad_json P w Hreq).
Qed.

(** C9, as stated, fails. A request without a session identifier that
    does not pass the credential check stores nothing, under the
    generated key or any other. And two requests without a session
    identifier that both pass it are stored under the same key when
    the draws of [crypto.randomUUID] agree on the bits the identifier
    keeps: here the draws differ in a bit of the version, the second
    request overwrites the entry of the first, which had not expired,
    and the map holds one entry. *)
Lemma anonymous_requests_collide :
  body_sessionId (Sample.request [Sample.hi] None) = None
  ∧ (POST Sample.P_no_key_no_sid Sample.no_world).1 = Returned missing_key
  ∧ conversations (POST Sample.P_no_key_no_sid Sample.no_world).2
    !! UUID.v4 (random Sample.P_no_key_no_sid) = None
  ∧ conversations (POST Sample.P_no_key_no_sid Sample.no_world).2 = ∅
  ∧ (let w1 := (POST (Sample.P_anonymous 0) Sample.no_world).2 in
     let w2 := (POST (Sample.P_anonymous_again (2 ^ 76)) w1).2 in
     (0 : N) ≠ 2 ^ 76
     ∧ UUID.v4 0 = UUID.v4 (2 ^ 76)
     ∧ conversations w1 !! UUID.v4 0
       = Some {| messages := [Sample.hi]; expiresAt := Sample.t1 |}
     ∧ conversations w2 !! UUID.v4 0
       = Some {| messages := [Sample.hi; Sample.hi];
                 expiresAt := Sample.t1 + 1 |}
     ∧ size (conversations w2) = 1%nat).
Proof. vm_compute. done. Qed.

(** C9, amended. A request whose [sessionId] is absent or the empty
    string and that passes the credential check is stored under the
    identifier drawn from [crypto.randomUUID]; no world the handler
    reaches has an entry under the empty string; and two such requests
    are stored under the same key exactly when their draws agree on the
    122 bits the identifier keeps. The second is stored in any case;
    when the draws differ in one of those bits the entry of the first
    is not overwritten: it is still there, unless the sweep of the
    second request found it expired. *)
Theorem anonymous_request_key :
  (∀ P w req apiKey,
     req_json P = Some req ->
     truthy (GEMINI_API_KEY P) = Some apiKey ->
     body_sessionId req = None ∨ body_sessionId req = Some [] ->
     conversations (POST P w).2 !! UUID.v4 (random P)
     = Some (entry_of P req))
  ∧ (∀ w, reachable w -> conversations w !! [] = None)
  ∧ (∀ P1 P2 w req1 req2 key1 key2,
       req_json P1 = Some req1 -> req_json P2 = Some req2 ->
       truthy (GEMINI_API_KEY P1) = Some key1 ->
       truthy (GEMINI_API_KEY P2) = Some key2 ->
       truthy (body_sessionId req1) = None ->
       truthy (body_sessionId req2) = None ->
       let w1 := (POST P1 w).2 in
       let w2 := (POST P2 w1).2 in
       (sid_of P1 req1 = sid_of P2 req2
        <-> UUID.random_bits (random P1) = UUID.random_bits (random P2))
       ∧ conversations w2 !! sid_of P2 req2 = Some (entry_of P2 req2)
       ∧ (UUID.random_bits (random P1) ≠ UUID.random_bits (random P2) ->
          conversations w2 !! sid_of P1 req1
          = if (now_set P1 + CONVO_TTL_MS <=? now_sweep P2)%Z
            then None else Some (entry_of P1 req1))).
Proof.
  split_and!.
  - intros P w req apiKey Hreq Hkey Hsid.
    rewrite (POST_with_key P w req apiKey Hreq Hkey). cbn [snd conversations].
    assert (sid_of P req = UUID.v4 (random P)) as <-.
    { unfold sid_of. by destruct Hsid as [-> | ->]. }
    apply lookup_insert_eq.
  - apply reachable_no_empty_key.
  - intros P1 P2 w req1 req2 key1 key2 Hr1 Hr2 Hk1 Hk2 Hs1 Hs2 w1 w2.
    assert (sid_of P1 req1 = UUID.v4 (random P1)) as E1
      by (unfold sid_of; by rewrite Hs1).
    assert (sid_of P2 req2 = UUID.v4 (random P2)) as E2
      by (unfold sid_of; by rewrite Hs2).
    unfold w2. rewrite (POST_with_key P2 w1 req2 key2 Hr2 Hk2).
    cbn [snd conversations]. rewrite E1, E2.
    split_and!; [apply v4_same|apply lookup_insert_eq|].
    intros Hne. rewrite lookup_insert_ne by (by rewrite v4_same).
    rewrite cleanupExpired_lookup. unfold w1.
    rewrite (POST_with_key P1 w req1 key1 Hr1 Hk1). cbn [snd conversations].
    by rewrite E1, lookup_insert_eq.
Qed.

Lemma anonymous_request_key_witness :
  conversations (POST (Sample.P_anonymous_again 1)
                   (POST (Sample.P_anonymous 0) Sample.no_world).2).2
  !! UUID.v4 0
  = Some {| messages := [Sample.hi]; expiresAt := Sample.t1 |}.
Proof.
  destruct anonymous_request_key as (_ & _ & Htwo).
  destruct (Htwo (Sample.P_anonymous 0) (Sample.P_anonymous_again 1)
              Sample.no_world
              (Sample.request [Sample.hi] None)
              (Sample.request [Sample.hi; Sample.hi] None)
              (JS.lit "key") (JS.lit "key")
              eq_refl eq_refl eq_refl eq_refl eq_refl eq_refl)
    as (_ & _ & Hkept).
  refine (eq_trans (Hkept _) _).
  - vm_compute. discriminate.
  - vm_compute. reflexivity.
Defined.

End StoreClaims.

(** ** Upstream failures *)

Section UpstreamClaims.
Import Relay.
Implicit Types (P : Platform) (w : World) (req : RequestBody).

(** C2, as stated, fails: when the upstream [fetch] throws, the
    catch-all of the handler answers 400 "Bad Request", not 502. *)
Lemma network_error_is_bad_request :
  fetch Sample.P_network
        (contents_of (Sample.request [Sample.hi] (Some Sample.s1)))
  = NetworkError
  ∧ (POST Sample.P_network Sample.no_world).1
    = Returned {| resp_status := 400; resp_headers := [];
                  resp_body := Text (JS.lit "Bad Request") |}
  ∧ resp_status <$> (match (POST Sample.P_network Sample.no_world).1 with
                     | Returned r => Some r
                     | Thrown => None
                     end) ≠ Some 502.
Proof. vm_compute. done. Qed.

(** C2, amended. When the upstream call returns a response that is not
    a success or has no body, the relay answers 502 with a plain text
    made of the upstream status code, the status text and the error
    body text read from the upstream (empty when it cannot be read);
    when the upstream [fetch] throws there is no such response, and the
    handler answers 400 "Bad Request". *)
Theorem upstream_failure_response P w req apiKey :
  req_json P = Some req ->
  truthy (GEMINI_API_KEY P) = Some apiKey ->
  (∀ upstream,
     fetch P (contents_of req) = Responded upstream ->
     ok upstream = false ∨ body upstream = None ->
     (POST P w).1
     = Returned
         {| resp_status := 502; resp_headers := [];
            resp_body :=
              Text (JS.lit "Upstream error: "
                    ++ JS.nat_to_string (status upstream)
                    ++ JS.lit " " ++ statusText upstream
                    ++ [10] ++ text_or_empty upstream) |})
  ∧ (fetch P (contents_of req) = NetworkError ->
     (POST P w).1
     = Returned {| resp_status := 400; resp_headers := [];
                   resp_body := Text (JS.lit "Bad Request") |}).
Proof.
  intros Hreq Hkey. rewrite (POST_with_key P w req apiKey Hreq Hkey).
  cbn [fst]. split.
  - intros upstream -> Hfailed. unfold reply.
    assert (failed upstream = true) as ->; [|done].
    unfold failed. destruct Hfailed as [-> | ->]; [done|].
    by rewrite orb_true_r.
  - by intros ->.
Qed.

Lemma upstream_failure_response_witness :
  (POST Sample.P_unavailable Sample.no_world).1
  = Returned
      {| resp_status := 502; resp_headers := [];
         resp_body :=
           Text (JS.lit "Upstream error: " ++ JS.nat_to_string 503
                 ++ JS.lit " " ++ JS.lit "Service Unavailable"
                 ++ [10] ++ JS.lit "busy") |}.
Proof.
  destruct (upstream_failure_response Sample.P_unavailable Sample.no_world
              (Sample.request [Sample.hi] (Some Sample.s1)) (JS.lit "key")
              eq_refl eq_refl) as [Hfailed _].
  apply (Hfailed Sample.unavailable); [reflexivity | left; reflexivity].
Defined.

End UpstreamClaims.

(** ** The stateful decoder *)

Section Decoder.
Import TextDecoder.

Lemma run_app s a b :
  UTF8.run s (a ++ b)
  = let '(r1, s1) := UTF8.run s a in
    let '(r2, s2) := UTF8.run s1 b in
    (r1 ++ r2, s2).
Proof.
  revert s. induction a as [|x a IH]; intros s; cbn.
  - by destruct (UTF8.run s b).
  - destruct (UTF8.process s (Byte.to_N x)) as [r1 s1]. rewrite IH.
    destruct (UTF8.run s1 a) as [r2 s2].
    destruct (UTF8.run s2 b) as [r3 s3]. by rewrite app_assoc.
Qed.

Lemma scalars_app a b :
  UTF8.scalars (a ++ b) = UTF8.scalars a ++ UTF8.scalars b.
Proof. apply bind_app. Qed.

Lemma serialize_app bom o1 o2 :
  serialize bom (o1 ++ o2)
  = let '(t1, b1) := serialize bom o1 in
    let '(t2, b2) := serialize b1 o2 in
    (t1 ++ t2, b2).
Proof.
  destruct o1 as [|cp o1]; cbn.
  - destruct (serialize bom o2) as [t2 b2]. done.
  - destruct bom; [|destruct (cp =? 65279)];
      destruct o2 as [|cp2 o2]; cbn; rewrite ?app_nil_r; try done.
    all: by rewrite bind_app, <- ?app_assoc.
Qed.

(** Decoding in stream mode does not see where a chunk ends. *)
Lemma decode_stream_app d a b :
  do_not_flush d = true ->
  decode d (a ++ b) true
  = let '(t1, d1) := decode d a true in
    let '(t2, d2) := decode d1 b true in
    (t1 ++ t2, d2).
Proof.
  intros Hd. unfold decode. rewrite Hd, run_app.
  destruct (UTF8.run (decoder d) a) as [r1 s1].
  rewrite !app_nil_r.
  pose proof (serialize_app (BOM_seen d) (UTF8.scalars r1)) as Happ.
  destruct (serialize (BOM_seen d) (UTF8.scalars r1)) as [t1 b1]. cbn.
  destruct (UTF8.run s1 b) as [r2 s2].
  rewrite !app_nil_r, scalars_app, Happ.
  by destruct (serialize b1 (UTF8.scalars r2)) as [t2 b2].
Qed.

Lemma decode_stream_flag d a : do_not_flush (decode d a true).2 = true.
Proof.
  unfold decode.
  destruct (UTF8.run _ a) as [rs s].
  by destruct (serialize _ _).
Qed.

Lemma decode_stream_nil d : do_not_flush d = true -> decode d [] true = ([], d).
Proof. destruct d as [s bom f]. cbn. by intros ->. Qed.


Lemma decode_chunks_concat d chunks :
  do_not_flush d = true ->
  decode_chunks d chunks = decode d (concat chunks) true.
Proof.
  revert d. induction chunks as [|c chunks IH]; intros d Hd;
    cbn [decode_chunks concat].
  - by rewrite decode_stream_nil.
  - rewrite decode_stream_app by done.
    pose proof (decode_stream_flag d c) as Hflag.
    destruct (decode d c true) as [t1 d1]. by rewrite IH.
Qed.

(** The text of a stream decoded chunk by chunk, from a new decoder. *)
Lemma decode_chunks_new chunks :
  (decode_chunks new chunks).1 = (decode streaming (concat chunks) true).1.
Proof.
  destruct chunks as [|c chunks]; [done|].
  change (decode_chunks new (c :: chunks))
    with (decode_chunks streaming (c :: chunks)).
  by rewrite decode_chunks_concat.
Qed.

(** When no sequence is left unfinished at the end, flushing adds
    nothing. *)
Lemma decode_whole_complete all :
  UTF8.bytes_needed (UTF8.run UTF8.init all).2 = 0 ->
  (decode new all false).1 = (decode streaming all true).1.
Proof.
  unfold decode. cbn. destruct (UTF8.run UTF8.init all) as [rs s]. cbn.
  intros Hs. unfold UTF8.finish. rewrite Hs. cbn.
  by destruct (serialize false (UTF8.scalars (rs ++ []))).
Qed.

Lemma valid_complete all :
  UTF8.valid all = true ->
  UTF8.bytes_needed (UTF8.run UTF8.init all).2 = 0.
Proof.
  unfold UTF8.valid. destruct (UTF8.run UTF8.init all) as [rs s]. cbn.
  intros [_ H]%andb_true_iff. by apply N.eqb_eq.
Qed.

End Decoder.

(** ** The client: submitting *)

Section Submit.
Import ChatView.
Implicit Types (st : State) (value text : jsstring).

Lemma trim_start_white value :
  forallb JS.is_white_space value = true -> JS.trim_start value = [].
Proof.
  induction value as [|c value IH]; [done|]. cbn.
  intros [Hc Hrest]%andb_true_iff. rewrite Hc. by apply IH.
Qed.

Lemma trim_white value :
  forallb JS.is_white_space value = true -> JS.trim value = [].
Proof.
  intros H. unfold JS.trim, JS.trim_end.
  by rewrite (trim_start_white value H).
Qed.

Lemma onSubmit_disabled st r1 r2 :
  disabled st = true -> onSubmit r1 r2 st = st.
Proof. intros H. unfold onSubmit, FormData_get. by rewrite H. Qed.

Lemma handleSend_session st text r1 r2 :
  truthy (sessionId st) = true ->
  handleSend text r1 r2 st
  = {| messages :=
         messages st
         ++ [ {| id := UUID.v4 r1; role := user; content := text |};
              {| id := UUID.v4 r2; role := assistant;
                 content := Thinking |} ];
       error := None; loading := true; sessionId := sessionId st;
       input := input st;
       running := running st ++ [ {| assistantDraft := UUID.v4 r2;
                                     at_ := AtFetch |} ] |}.
Proof. intros H. unfold handleSend. by rewrite H. Qed.

(** A submission that goes through: the form is enabled and the input
    holds more than white space. *)
Lemma onSubmit_enabled st r1 r2 :
  disabled st = false ->
  JS.trim (input st) ≠ [] ->
  onSubmit r1 r2 st
  = {| messages :=
         messages st
         ++ [ {| id := UUID.v4 r1; role := user;
                 content := JS.trim (input st) |};
              {| id := UUID.v4 r2; role := assistant;
                 content := Thinking |} ];
       error := None; loading := true; sessionId := sessionId st;
       input := [];
       running := running st ++ [ {| assistantDraft := UUID.v4 r2;
                                     at_ := AtFetch |} ] |}.
Proof.
  intros Hdis Htext. unfold onSubmit, FormData_get. rewrite Hdis. cbn.
  destruct (JS.trim (input st)) as [|c text] eqn:E; [done|].
  apply orb_false_iff in Hdis as [_ Hsid%negb_false_iff].
  by rewrite handleSend_session.
Qed.

End Submit.

(** ** The client: one turn at a time *)

Section Turns.
Import ChatView.
Implicit Types (st : State) (a : Activation) (m : Message).

Lemma filter_show_acc (keep : Message -> bool) d acc prev :
  (∀ m content', keep {| id := id m; role := role m; content := content' |}
                 = keep m) ->
  length (List.filter keep (show_acc d acc prev))
  = length (List.filter keep prev).
Proof.
  intros Hkeep. induction prev as [|m prev IH]; [done|]. cbn.
  fold (show_acc d acc prev).
  assert (keep (if decide (id m = d)
                then {| id := id m; role := role m;
                        content := match acc with
                                   | [] => Thinking
                                   | _ :: _ => acc
                                   end |}
                else m) = keep m) as ->.
  { case_decide; [apply Hkeep|done]. }
  destruct (keep m); cbn; by rewrite IH.
Qed.

Lemma fresh_no_draft st r2 :
  UUID.v4 r2 ∉ id <$> messages st ->
  List.filter (fun m => bool_decide (role m = assistant)
                        && bool_decide (id m = UUID.v4 r2))
              (messages st) = [].
Proof.
  induction (messages st) as [|m l IH]; [done|]. cbn.
  intros [Hm Hl]%not_elem_of_cons.
  rewrite (bool_decide_eq_false_2 (id m = UUID.v4 r2)) by done.
  rewrite andb_false_r. by apply IH.
Qed.

Lemma truthy_v4 r : truthy (Some (UUID.v4 r)) = true.
Proof. reflexivity. Qed.

Lemma turn_invariant_step st e :
  turn_invariant st -> fresh st e -> turn_invariant (step st e).
Proof.
  intros [Hinput Hinv] Hfresh.
  destruct e as [stored random|value|r1 r2|i r]; cbn.
  - (* mount *)
    split; [|exact Hinv]. intros Hdis. apply Hinput.
    unfold disabled, mount in *. cbn [loading sessionId] in Hdis.
    destruct (loading st); [done|]. exfalso.
    destruct (truthy stored) eqn:Hstored.
    + by rewrite Hstored in Hdis.
    + by rewrite truthy_v4 in Hdis.
  - (* typing *)
    unfold type. destruct (disabled st) eqn:Hdis.
    { split; [intros _; by apply Hinput|done]. }
    split; [|exact Hinv]. unfold disabled in *. cbn. by rewrite Hdis.
  - (* submit *)
    destruct (disabled st) eqn:Hdis.
    { rewrite onSubmit_disabled by done.
      split; [intros _; by apply Hinput|done]. }
    destruct (JS.trim (input st)) as [|c text] eqn:Htext.
    { unfold onSubmit, FormData_get. rewrite Hdis. cbn. rewrite Htext.
      split; [by rewrite Hdis|done]. }
    rewrite onSubmit_enabled by (done || by rewrite Htext).
    apply orb_false_iff in Hdis as [Hload Hsid]. split; [done|]. cbn.
    destruct (running st) as [|a [|a' l]];
      [|by destruct Hinv; congruence|done].
    cbn. split; [done|]. unfold drafts_of. cbn.
    rewrite List.filter_app, length_app. cbn.
    rewrite (bool_decide_eq_false_2 (user = assistant)) by done.
    rewrite (bool_decide_eq_true_2 (UUID.v4 r2 = UUID.v4 r2)) by done.
    rewrite (bool_decide_eq_true_2 (assistant = assistant)) by done.
    rewrite fresh_no_draft by done. cbn. lia.
  - (* an activation resumes *)
    unfold resume. destruct (running st !! i) as [a|] eqn:Hi; [|done].
    destruct (running st) as [|a0 [|a1 l]] eqn:Hrun; [done| |done].
    destruct i as [|i]; [|done]. cbn in Hi. injection Hi as ->.
    destruct Hinv as [Hload Hone].
    assert (∀ failed, turn_invariant (leave 0 failed st)) as Hleave.
    { intros failed. unfold turn_invariant, leave. cbn. rewrite Hrun.
      split; [|done]. intros Hdis. apply Hinput. unfold disabled in *.
      cbn in Hdis. by rewrite Hdis, orb_true_r. }
    assert (turn_invariant st) as Hsame.
    { split; [done|]. by rewrite Hrun. }
    destruct (at_ a) as [|decoder acc], r as [|ok has_body|value| |];
      try done.
    + destruct (negb ok || negb has_body); [done|]. by split.
    + destruct (TextDecoder.decode decoder value true) as [decoded decoder'].
      split; [done|]. cbn. split; [done|].
      unfold drafts_of in *. cbn. by rewrite filter_show_acc.
Qed.

Lemma reachable_invariant st : reachable st -> turn_invariant st.
Proof.
  induction 1 as [|st e Hst IH Hfresh]; [by split|].
  by apply turn_invariant_step.
Qed.

(** C7. In every state the component reaches with a session identifier
    in place, submitting an input text that is not empty once trimmed
    appends one user message carrying that text and then one assistant
    placeholder holding the sentinel, in this order, at the end of the
    transcript, while the request of the turn is still awaiting its
    response; an empty or white-space-only input changes nothing. *)
Theorem submit_appends st r1 r2 :
  reachable st ->
  truthy (sessionId st) = true ->
  let text := JS.trim (input st) in
  let sent := onSubmit r1 r2 st in
  (text ≠ [] ->
   messages sent
   = messages st
     ++ [ {| id := UUID.v4 r1; role := user; content := text |};
          {| id := UUID.v4 r2; role := assistant; content := Thinking |} ]
   ∧ running sent
     = running st ++ [ {| assistantDraft := UUID.v4 r2; at_ := AtFetch |} ])
  ∧ (forallb JS.is_white_space (input st) = true -> sent = st).
Proof.
  intros [Hinput _]%reachable_invariant Hsid text sent. split.
  - intros Htext. destruct (disabled st) eqn:Hdis.
    + exfalso. apply Htext. unfold text. by rewrite Hinput.
    + unfold sent. by rewrite onSubmit_enabled.
  - intros Hwhite. unfold sent, onSubmit, FormData_get.
    destruct (disabled st); [done|]. cbn. by rewrite trim_white.
Qed.


End Turns.

Lemma ready_reachable : ChatView.reachable ClientSample.ready.
Proof.
  apply (ChatView.reachable_step ChatView.initial (ChatView.Mounted None 7)).
  - apply ChatView.reachable_initial.
  - exact I.
Qed.

Lemma typed_reachable : ChatView.reachable ClientSample.typed.
Proof.
  apply (ChatView.reachable_step ClientSample.ready
           (ChatView.Typed ClientSample.hello)).
  - apply ready_reachable.
  - exact I.
Qed.


Lemma submit_appends_witness :
  ChatView.messages ClientSample.sending
  = [ {| ChatView.id := UUID.v4 1; ChatView.role := ChatView.user;
         ChatView.content := JS.lit "hello" |};
      {| ChatView.id := UUID.v4 2; ChatView.role := ChatView.assistant;
         ChatView.content := ChatView.Thinking |} ].
Proof.
  destruct (submit_appends ClientSample.typed 1 2 typed_reachable eq_refl)
    as [Happended _].
  apply Happended. vm_compute. discriminate.
Defined.


(** ** The client: reading the reply *)

Section Reading.
Import ChatView.
Implicit Types (st : State) (a : Activation) (m : Message).

Lemma show_acc_again d acc1 acc2 prev :
  show_acc d acc2 (show_acc d acc1 prev) = show_acc d acc2 prev.
Proof.
  unfold show_acc. rewrite <- list_fmap_compose. apply list_fmap_ext.
  intros _ m _. cbn. destruct (decide (id m = d)) as [Hm|Hm]; cbn.
  - by rewrite decide_True.
  - by rewrite decide_False.
Qed.

(** The loop over the chunks of the body: the accumulator grows by
    what the stateful decoder returns, and after each chunk the
    placeholder shows the whole accumulator, or the sentinel while the
    accumulator is empty. *)
Lemma read_chunks i d chunks : ∀ decoder acc st,
  running st !! i = Some {| assistantDraft := d;
                            at_ := AtRead decoder acc |} ->
  let st' := fold_left (fun st value => resume i (ReadValue value) st)
                       chunks st in
  let text := (TextDecoder.decode_chunks decoder chunks).1 in
  let decoder' := (TextDecoder.decode_chunks decoder chunks).2 in
  running st' !! i = Some {| assistantDraft := d;
                             at_ := AtRead decoder' (acc ++ text) |}
  ∧ messages st'
    = match chunks with
      | [] => messages st
      | _ :: _ => show_acc d (acc ++ text) (messages st)
      end.
Proof.
  induction chunks as [|c chunks IH]; intros decoder acc st Hi.
  - cbn. by rewrite app_nil_r.
  - cbn [fold_left TextDecoder.decode_chunks].
    assert (i < length (running st))%nat as Hlt by by eapply lookup_lt_Some.
    assert (resume i (ReadValue c) st
            = {| messages :=
                   show_acc d (acc ++ (TextDecoder.decode decoder c true).1)
                            (messages st);
                 loading := loading st; error := error st;
                 sessionId := sessionId st; input := input st;
                 running :=
                   <[i := {| assistantDraft := d;
                             at_ := AtRead
                                      (TextDecoder.decode decoder c true).2
                                      (acc ++ (TextDecoder.decode
                                                 decoder c true).1) |}]>
                     (running st) |}) as ->.
    { unfold resume. rewrite Hi. cbn.
      by destruct (TextDecoder.decode decoder c true). }
    destruct (TextDecoder.decode decoder c true) as [t1 d1]. cbn [fst snd].
    match goal with |- context [fold_left _ chunks ?s] =>
      destruct (IH d1 (acc ++ t1) s) as [Hrun Hmsg] end.
    { cbn. by apply list_lookup_insert_eq. }
    destruct (TextDecoder.decode_chunks d1 chunks) as [t2 d2] eqn:E.
    cbn [fst snd] in *. rewrite app_assoc. split; [done|].
    rewrite Hmsg. cbn. destruct chunks; [|apply show_acc_again].
    cbn in E. injection E as <- <-. by rewrite app_nil_r.
Qed.

End Reading.

Section Reply.
Import ChatView.
Implicit Types (st : State).

(** C4, as stated, fails: a body without text decodes to the empty
    string, and the placeholder then holds the sentinel, not the empty
    string. *)
Lemma empty_reply_keeps_sentinel :
  UTF8.valid (concat []) = true
  ∧ (TextDecoder.decode TextDecoder.new (concat []) false).1 = []
  ∧ content <$> last (messages
                        (read_all 0 []
                           (resume 0 (FetchResolved true true)
                                   ClientSample.sending)))
    = Some Thinking
  ∧ Thinking ≠ [].
Proof. vm_compute. done. Qed.

(** C4, amended. Through a whole turn, for every sequence of chunks
    whose concatenation is valid UTF-8, wherever the chunks are cut, the
    placeholder ends up holding the decoding of the concatenated bytes
    when that decoding is not empty, and the sentinel when it is
    empty. *)
Theorem streamed_reply_content st r1 r2 chunks :
  disabled st = false ->
  JS.trim (input st) ≠ [] ->
  UTF8.valid (concat chunks) = true ->
  let i := length (running st) in
  let opened := resume i (FetchResolved true true) (onSubmit r1 r2 st) in
  let closed := read_all i chunks opened in
  let decoded :=
    (TextDecoder.decode TextDecoder.new (concat chunks) false).1 in
  last (messages closed)
  = Some {| id := UUID.v4 r2; role := assistant;
            content := match decoded with
                       | [] => Thinking
                       | _ :: _ => decoded
                       end |}.
Proof.
  intros Hdis Htext Hvalid i opened closed decoded.
  assert (decoded = (TextDecoder.decode_chunks TextDecoder.new chunks).1)
    as Hdecoded.
  { unfold decoded. rewrite decode_chunks_new.
    apply decode_whole_complete. by apply valid_complete. }
  (* the submission *)
  pose proof (onSubmit_enabled st r1 r2 Hdis Htext) as Hsent.
  (* the response *)
  set (draft := {| id := UUID.v4 r2; role := assistant;
                   content := Thinking |}) in *.
  set (transcript := messages st
                     ++ [ {| id := UUID.v4 r1; role := user;
                             content := JS.trim (input st) |};
                          draft ]) in *.
  assert (messages opened = transcript
          ∧ running opened !! i
            = Some {| assistantDraft := UUID.v4 r2;
                      at_ := AtRead TextDecoder.new [] |}) as [Hmsgs Hrun].
  { unfold opened, resume. rewrite Hsent. cbn [running].
    rewrite list_lookup_middle by done. cbn. split; [done|].
    apply list_lookup_insert_eq. rewrite length_app. cbn. lia. }
  (* the reads *)
  destruct (read_chunks i (UUID.v4 r2) chunks TextDecoder.new [] opened Hrun)
    as [Hrun' Hmsgs'].
  cbn [app] in Hrun', Hmsgs'. rewrite <- Hdecoded in Hrun', Hmsgs'.
  assert (messages closed
          = match chunks with
            | [] => transcript
            | _ :: _ => show_acc (UUID.v4 r2) decoded transcript
            end) as ->.
  { unfold closed, read_all. unfold resume at 1. rewrite Hrun'. cbn.
    rewrite Hmsgs'. by rewrite Hmsgs. }
  assert (last (show_acc (UUID.v4 r2) decoded transcript)
          = Some {| id := UUID.v4 r2; role := assistant;
                    content := match decoded with
                               | [] => Thinking
                               | _ :: _ => decoded
                               end |}) as Hshown.
  { unfold show_acc, transcript. rewrite fmap_app, last_app. cbn.
    by rewrite decide_True. }
  destruct chunks as [|c chunks]; [|done].
  unfold transcript. rewrite last_app. cbn.
  by replace decoded with (@nil N) by (by rewrite Hdecoded).
Qed.

Lemma streamed_reply_content_witness :
  content <$> last (messages
                      (read_all 0 ClientSample.split_chunks
                         (resume 0 (FetchResolved true true)
                                 ClientSample.sending)))
  = Some [233; 33].
Proof.
  refine (eq_trans
            (f_equal (fmap content)
               (streamed_reply_content ClientSample.typed
                  1 2 ClientSample.split_chunks eq_refl _ eq_refl)) _).
  - vm_compute. discriminate.
  - reflexivity.
Defined.

End Reply.

(** ** The event pattern *)

Section Matching.
Import Pattern.

Lemma strip_prefix_length p s rest :
  strip_prefix p s = Some rest -> (length rest <= length s)%nat.
Proof.
  revert s. induction p as [|a p IH]; intros [|b s]; cbn; try done.
  - intros [= <-]. done.
  - intros [= <-]. done.
  - destruct (a =? b); [|done]. intros H%IH. lia.
Qed.

Lemma trim_start_length s : (length (JS.trim_start s) <= length s)%nat.
Proof.
  induction s as [|c s IH]; cbn; [done|].
  destruct (JS.is_white_space c); cbn; lia.
Qed.

Lemma dot_star_brace_length s m after :
  dot_star_brace s = Some (m, after) -> (length after < length s)%nat.
Proof.
  revert m after. induction s as [|c s IH]; intros m after; cbn; [done|].
  destruct (JS.is_line_terminator c); [done|].
  destruct (dot_star_brace s) as [[m' after']|].
  - intros [= <- <-]. specialize (IH _ _ eq_refl). lia.
  - destruct (c =? close_brace); [|done]. intros [= <- <-]. lia.
Qed.

(** A match is never empty: what follows it is shorter. *)
Lemma match_at_length s capture after :
  match_at s = Some (capture, after) -> (length after < length s)%nat.
Proof.
  unfold match_at.
  destruct (strip_prefix data_marker s) as [rest|] eqn:Hp; [|done].
  apply strip_prefix_length in Hp.
  pose proof (trim_start_length rest) as Ht.
  destruct (JS.trim_start rest) as [|c rest']; [done|].
  destruct (c =? open_brace); [|done].
  destruct (dot_star_brace rest') as [[m after']|] eqn:Hd; [|done].
  apply dot_star_brace_length in Hd. intros [= <- <-]. cbn in Ht. lia.
Qed.

Lemma matchAll_from_fuel n : ∀ m s,
  (length s < n)%nat -> (length s < m)%nat ->
  matchAll_from n s = matchAll_from m s.
Proof.
  induction n as [|n IH]; intros m s Hn Hm; [lia|].
  destruct m as [|m]; [lia|]. cbn.
  destruct (match_at s) as [[capture after]|] eqn:Hs.
  - apply match_at_length in Hs. f_equal. apply IH; lia.
  - destruct s as [|c s]; [done|]. cbn in Hn, Hm. apply IH; lia.
Qed.

(** The search as the engine runs it, the fuel gone. *)
Lemma matchAll_unfold s :
  matchAll s
  = match match_at s with
    | Some (capture, after) => capture :: matchAll after
    | None =>
        match s with
        | [] => []
        | _ :: s' => matchAll s'
        end
    end.
Proof.
  unfold matchAll at 1. cbn [matchAll_from].
  destruct (match_at s) as [[capture after]|] eqn:Hs.
  - apply match_at_length in Hs. f_equal. apply matchAll_from_fuel; lia.
  - destruct s as [|c s]; [done|]. apply matchAll_from_fuel; cbn; lia.
Qed.

End Matching.

(** ** [JSON.parse] never runs out of fuel *)

Section Fuel.
Import JSON.
Implicit Types (s r rest : jsstring) (v : value).

Lemma skip_ws_length s : (length (skip_ws s) <= length s)%nat.
Proof.
  induction s as [|c s IH]; cbn; [done|]. destruct (is_ws c); cbn; lia.
Qed.

Lemma parse_chars_length s : ∀ str r,
  parse_chars s = Some (str, r) -> (length r < length s)%nat.
Proof.
  induction s as [s IH] using (induction_ltof1 _ (@length N)).
  unfold ltof in IH. intros str r. destruct s as [|c rest]; [done|]. cbn.
  destruct (c =? 34). { intros [= <- <-]. lia. }
  destruct (c =? 92).
  - destruct rest as [|e rest1]; [done|].
    destruct (e =? 117).
    + destruct rest1 as [|h1 [|h2 [|h3 [|h4 rest2]]]]; try done.
      destruct (hex_digit h1), (hex_digit h2), (hex_digit h3),
               (hex_digit h4); try done.
      destruct (parse_chars rest2) as [[str' r']|] eqn:E; [|done].
      apply IH in E; [|cbn; lia]. intros [= <- <-]. cbn. lia.
    + destruct (unescape e); [|done].
      destruct (parse_chars rest1) as [[str' r']|] eqn:E; [|done].
      apply IH in E; [|cbn; lia]. intros [= <- <-]. cbn. lia.
  - destruct (c <? 32); [done|].
    destruct (parse_chars rest) as [[str' r']|] eqn:E; [|done].
    apply IH in E; [|cbn; lia]. intros [= <- <-]. lia.
Qed.

Lemma take_digits_length s : ∀ acc count,
  (length (take_digits s acc count).2 <= length s)%nat.
Proof.
  induction s as [|c s IH]; intros acc count; cbn; [done|].
  destruct (is_digit c); cbn; [|done].
  specialize (IH (acc * 10 + (c - 48)) (S count)). lia.
Qed.

Lemma parse_number_length s n r :
  parse_number s = Some (n, r) -> (length r < length s)%nat.
Proof.
  unfold parse_number.
  set (signed := match s with
                 | c :: rest => if c =? 45 then (true, rest) else (false, s)
                 | [] => (false, s)
                 end).
  assert (length signed.2 <= length s)%nat as Hsign.
  { subst signed. destruct s as [|c rest]; [done|].
    destruct (c =? 45); cbn; lia. }
  destruct signed as [neg s1]. cbn in Hsign.
  set (int_part := match s1 with
                   | c :: rest =>
                       if c =? 48 then Some (0, rest)
                       else if is_digit c then
                         let '(n, _, r) := take_digits s1 0 0 in Some (n, r)
                       else None
                   | [] => None
                   end).
  assert (∀ i s2, int_part = Some (i, s2) ->
                  (length s2 < length s1)%nat) as Hint.
  { subst int_part. intros i s2. destruct s1 as [|c rest]; [done|].
    destruct (c =? 48). { intros [= <- <-]. cbn. lia. }
    destruct (is_digit c) eqn:Hc; [|done]. cbn. rewrite Hc.
    pose proof (take_digits_length rest (0 * 10 + (c - 48)) 1) as Hlen.
    destruct (take_digits rest _ 1) as [[i' k] r']. intros [= <- <-].
    cbn in *. lia. }
  destruct int_part as [[i s2]|]; [|done].
  specialize (Hint i s2 eq_refl).
  set (frac := match s2 with
               | c :: rest =>
                   if c =? 46 then
                     let '(m, k, r) := take_digits rest i 0 in
                     match k with
                     | O => None
                     | S _ => Some (m, Z.of_nat k, r)
                     end
                   else Some (i, 0%Z, s2)
               | [] => Some (i, 0%Z, s2)
               end).
  assert (∀ m k s3, frac = Some (m, k, s3) ->
                    (length s3 <= length s2)%nat) as Hfrac.
  { subst frac. intros m k s3. destruct s2 as [|c rest].
    - by intros [= <- <- <-].
    - destruct (c =? 46); [|by intros [= <- <- <-]].
      pose proof (take_digits_length rest i 0) as Hlen.
      destruct (take_digits rest i 0) as [[m' k'] r'].
      destruct k'; [done|]. intros [= <- <- <-]. cbn in *. lia. }
  destruct frac as [[[m k] s3]|]; [|done].
  specialize (Hfrac m k s3 eq_refl).
  set (exp := match s3 with
              | c :: rest =>
                  if (c =? 101) || (c =? 69) then
                    let '(minus, s4) :=
                      match rest with
                      | d :: rest' =>
                          if d =? 45 then (true, rest')
                          else if d =? 43 then (false, rest')
                          else (false, rest)
                      | [] => (false, rest)
                      end in
                    let '(e, j, r) := take_digits s4 0 0 in
                    match j with
                    | O => None
                    | S _ =>
                        Some (if minus then (- Z.of_N e)%Z
                              else Z.of_N e, r)
                    end
                  else Some (0%Z, s3)
              | [] => Some (0%Z, s3)
              end).
  assert (∀ e s5, exp = Some (e, s5) ->
                  (length s5 <= length s3)%nat) as Hexp.
  { subst exp. intros e s5. destruct s3 as [|c rest].
    - by intros [= <- <-].
    - destruct ((c =? 101) || (c =? 69)); [|by intros [= <- <-]].
      set (sign := match rest with
                   | d :: rest' =>
                       if d =? 45 then (true, rest')
                       else if d =? 43 then (false, rest')
                       else (false, rest)
                   | [] => (false, rest)
                   end).
      assert (length sign.2 <= length rest)%nat as Hs4.
      { subst sign. destruct rest as [|d rest']; [done|].
        destruct (d =? 45); [cbn; lia|]. destruct (d =? 43); cbn; lia. }
      destruct sign as [minus s4]. cbn in Hs4.
      pose proof (take_digits_length s4 0 0) as Hlen.
      destruct (take_digits s4 0 0) as [[e' j] r'].
      destruct j; [done|]. intros [= <- <-]. cbn in *. lia. }
  destruct exp as [[e s5]|]; [|done].
  specialize (Hexp e s5 eq_refl). intros [= <- <-]. lia.
Qed.

Lemma literal_length word v s v' r :
  word ≠ [] -> literal word v s = Ok v' r -> (length r < length s)%nat.
Proof.
  unfold literal. intros Hword.
  destruct (Pattern.strip_prefix word s) as [rest|] eqn:E; [|done].
  intros [= <- <-]. destruct word as [|a word]; [done|].
  destruct s as [|b s]; [done|]. cbn in E.
  destruct (a =? b); [|done]. apply strip_prefix_length in E. cbn. lia.
Qed.

(** With fuel above twice the length of the text, the three loops
    return a value or a syntax error, and a value leaves a shorter
    rest. *)
Lemma parse_fuel fuel :
  (∀ s, (2 * length s + 1 <= fuel)%nat ->
        parse_value fuel s ≠ OutOfFuel
        ∧ ∀ v r, parse_value fuel s = Ok v r -> (length r < length s)%nat)
  ∧ (∀ s acc, (2 * length s + 2 <= fuel)%nat ->
        parse_elements fuel s acc ≠ OutOfFuel
        ∧ ∀ v r, parse_elements fuel s acc = Ok v r ->
                 (length r < length s)%nat)
  ∧ (∀ s acc, (2 * length s + 1 <= fuel)%nat ->
        parse_members fuel s acc ≠ OutOfFuel
        ∧ ∀ v r, parse_members fuel s acc = Ok v r ->
                 (length r < length s)%nat).
Proof.
  induction fuel as [|fuel (IHv & IHe & IHm)].
  { split_and!; intros; lia. }
  split_and!.
  - (* a value *)
    intros s Hfuel. destruct s as [|c rest]; [done|]. cbn in Hfuel.
    cbn [parse_value].
    destruct (c =? 123).
    { pose proof (skip_ws_length rest) as Hws.
      destruct (skip_ws rest) as [|c' r']; [done|]. cbn in Hws.
      destruct (c' =? 125).
      { split; [done|]. intros v r [= <- <-]. cbn. lia. }
      destruct (IHm (c' :: r') []) as [Hfuel' Hlen]; [cbn; lia|].
      split; [done|]. intros v r Hr%Hlen. cbn in *. lia. }
    destruct (c =? 91).
    { pose proof (skip_ws_length rest) as Hws.
      destruct (skip_ws rest) as [|c' r']; [done|]. cbn in Hws.
      destruct (c' =? 93).
      { split; [done|]. intros v r [= <- <-]. cbn. lia. }
      destruct (IHe (c' :: r') []) as [Hfuel' Hlen]; [cbn; lia|].
      split; [done|]. intros v r Hr%Hlen. cbn in *. lia. }
    destruct (c =? 34).
    { destruct (parse_chars rest) as [[str r']|] eqn:E; [|done].
      apply parse_chars_length in E. split; [done|].
      intros v r [= <- <-]. cbn. lia. }
    destruct (c =? 116).
    { split; [by unfold literal; destruct (Pattern.strip_prefix _ _)|].
      intros v r. by apply literal_length. }
    destruct (c =? 102).
    { split; [by unfold literal; destruct (Pattern.strip_prefix _ _)|].
      intros v r. by apply literal_length. }
    destruct (c =? 110).
    { split; [by unfold literal; destruct (Pattern.strip_prefix _ _)|].
      intros v r. by apply literal_length. }
    destruct (parse_number (c :: rest)) as [[n r']|] eqn:E; [|done].
    apply parse_number_length in E. split; [done|].
    by intros v r [= <- <-].
  - (* the elements of an array *)
    intros s acc Hfuel. cbn [parse_elements].
    destruct (IHv s) as [Hv Hlen]; [lia|].
    destruct (parse_value fuel s) as [v r| |] eqn:E; [|done|done].
    specialize (Hlen v r eq_refl).
    pose proof (skip_ws_length r) as Hws.
    destruct (skip_ws r) as [|c r']; [done|]. cbn in Hws.
    destruct (c =? 44).
    { pose proof (skip_ws_length r') as Hws'.
      destruct (IHe (skip_ws r') (v :: acc)) as [Hfuel' Hlen']; [lia|].
      split; [done|]. intros v' r'' Hr%Hlen'. lia. }
    destruct (c =? 93); [|done].
    split; [done|]. intros v' r'' [= <- <-]. lia.
  - (* the members of an object *)
    intros s acc Hfuel. cbn [parse_members].
    destruct s as [|c r0]; [done|]. cbn in Hfuel.
    destruct (c =? 34); [|done].
    destruct (parse_chars r0) as [[key r1]|] eqn:E1; [|done].
    apply parse_chars_length in E1.
    pose proof (skip_ws_length r1) as Hws1.
    destruct (skip_ws r1) as [|c1 r2]; [done|]. cbn in Hws1.
    destruct (c1 =? 58); [|done].
    pose proof (skip_ws_length r2) as Hws2.
    destruct (IHv (skip_ws r2)) as [Hv Hlen]; [lia|].
    destruct (parse_value fuel (skip_ws r2)) as [v r3| |] eqn:E3;
      [|done|done].
    specialize (Hlen v r3 eq_refl).
    pose proof (skip_ws_length r3) as Hws3.
    destruct (skip_ws r3) as [|c3 r4]; [done|]. cbn in Hws3.
    destruct (c3 =? 44).
    { pose proof (skip_ws_length r4) as Hws4.
      destruct (IHm (skip_ws r4) ((key, v) :: acc)) as [Hfuel' Hlen'];
        [lia|].
      split; [done|]. intros v' r' Hr%Hlen'. cbn. lia. }
    destruct (c3 =? 125); [|done].
    split; [done|]. intros v' r' [= <- <-]. cbn. lia.
Qed.

(** [JSON.parse] returns a value or throws a SyntaxError; it never
    stops for lack of fuel. *)
Lemma parse_total s :
  parse_text (fuel_for s) s ≠ OutOfFuel
  ∧ (parse s = None <-> parse_text (fuel_for s) s = SyntaxError).
Proof.
  assert (parse_text (fuel_for s) s ≠ OutOfFuel) as Hfuel.
  { unfold parse_text, fuel_for.
    pose proof (skip_ws_length s) as Hws.
    destruct (parse_fuel (2 * length s + 2)) as (Hv & _ & _).
    destruct (Hv (skip_ws s)) as [Hv' _]; [lia|].
    destruct (parse_value _ (skip_ws s)) as [v r| |]; [|done|done].
    by destruct (skip_ws r). }
  split; [done|]. unfold parse.
  destruct (parse_text (fuel_for s) s); done.
Qed.

(** *** Where the rest of a parse lies, and what an object needs *)

Lemma skip_ws_suffix s : skip_ws s `suffix_of` s.
Proof.
  induction s as [|c s IH]; cbn; [done|].
  destruct (is_ws c); [by apply suffix_cons_r|done].
Qed.

Lemma strip_prefix_suffix p s rest :
  Pattern.strip_prefix p s = Some rest -> rest `suffix_of` s.
Proof.
  revert s. induction p as [|a p IH]; intros [|b s]; cbn; try done.
  - by intros [= <-].
  - by intros [= <-].
  - destruct (a =? b); [|done]. intros H%IH. by apply suffix_cons_r.
Qed.

Lemma parse_chars_suffix s : ∀ str r,
  parse_chars s = Some (str, r) -> r `suffix_of` s.
Proof.
  induction s as [s IH] using (induction_ltof1 _ (@length N)).
  unfold ltof in IH. intros str r. destruct s as [|c rest]; [done|]. cbn.
  destruct (c =? 34). { intros [= <- <-]. by apply suffix_cons_r. }
  destruct (c =? 92).
  - destruct rest as [|e rest1]; [done|].
    destruct (e =? 117).
    + destruct rest1 as [|h1 [|h2 [|h3 [|h4 rest2]]]]; try done.
      destruct (hex_digit h1), (hex_digit h2), (hex_digit h3),
               (hex_digit h4); try done.
      destruct (parse_chars rest2) as [[str' r']|] eqn:E; [|done].
      apply IH in E; [|cbn; lia]. intros [= <- <-].
      by do 6 apply suffix_cons_r.
    + destruct (unescape e); [|done].
      destruct (parse_chars rest1) as [[str' r']|] eqn:E; [|done].
      apply IH in E; [|cbn; lia]. intros [= <- <-].
      by do 2 apply suffix_cons_r.
  - destruct (c <? 32); [done|].
    destruct (parse_chars rest) as [[str' r']|] eqn:E; [|done].
    apply IH in E; [|cbn; lia]. intros [= <- <-]. by apply suffix_cons_r.
Qed.

Lemma take_digits_suffix s : ∀ acc count,
  (take_digits s acc count).2 `suffix_of` s.
Proof.
  induction s as [|c s IH]; intros acc count; cbn; [done|].
  destruct (is_digit c); cbn; [|done]. by apply suffix_cons_r.
Qed.

Lemma parse_number_suffix s n r :
  parse_number s = Some (n, r) -> r `suffix_of` s.
Proof.
  unfold parse_number.
  set (signed := match s with
                 | c :: rest => if c =? 45 then (true, rest) else (false, s)
                 | [] => (false, s)
                 end).
  assert (signed.2 `suffix_of` s) as Hsign.
  { subst signed. destruct s as [|c rest]; [done|].
    destruct (c =? 45); cbn; [by apply suffix_cons_r|done]. }
  destruct signed as [neg s1]. cbn in Hsign.
  set (int_part := match s1 with
                   | c :: rest =>
                       if c =? 48 then Some (0, rest)
                       else if is_digit c then
                         let '(n, _, r) := take_digits s1 0 0 in Some (n, r)
                       else None
                   | [] => None
                   end).
  assert (∀ i s2, int_part = Some (i, s2) -> s2 `suffix_of` s1) as Hint.
  { subst int_part. intros i s2. destruct s1 as [|c rest]; [done|].
    destruct (c =? 48). { intros [= <- <-]. by apply suffix_cons_r. }
    destruct (is_digit c) eqn:Hc; [|done].
    pose proof (take_digits_suffix (c :: rest) 0 0) as Hsuf.
    destruct (take_digits (c :: rest) 0 0) as [[i' k] r'].
    by intros [= <- <-]. }
  destruct int_part as [[i s2]|]; [|done].
  specialize (Hint i s2 eq_refl).
  set (frac := match s2 with
               | c :: rest =>
                   if c =? 46 then
                     let '(m, k, r) := take_digits rest i 0 in
                     match k with
                     | O => None
                     | S _ => Some (m, Z.of_nat k, r)
                     end
                   else Some (i, 0%Z, s2)
               | [] => Some (i, 0%Z, s2)
               end).
  assert (∀ m k s3, frac = Some (m, k, s3) -> s3 `suffix_of` s2) as Hfrac.
  { subst frac. intros m k s3. destruct s2 as [|c rest].
    - by intros [= <- <- <-].
    - destruct (c =? 46); [|by intros [= <- <- <-]].
      pose proof (take_digits_suffix rest i 0) as Hsuf.
      destruct (take_digits rest i 0) as [[m' k'] r'].
      destruct k'; [done|]. intros [= <- <- <-]. by apply suffix_cons_r. }
  destruct frac as [[[m k] s3]|]; [|done].
  specialize (Hfrac m k s3 eq_refl).
  set (exp := match s3 with
              | c :: rest =>
                  if (c =? 101) || (c =? 69) then
                    let '(minus, s4) :=
                      match rest with
                      | d :: rest' =>
                          if d =? 45 then (true, rest')
                          else if d =? 43 then (false, rest')
                          else (false, rest)
                      | [] => (false, rest)
                      end in
                    let '(e, j, r) := take_digits s4 0 0 in
                    match j with
                    | O => None
                    | S _ =>
                        Some (if minus then (- Z.of_N e)%Z
                              else Z.of_N e, r)
                    end
                  else Some (0%Z, s3)
              | [] => Some (0%Z, s3)
              end).
  assert (∀ e s5, exp = Some (e, s5) -> s5 `suffix_of` s3) as Hexp.
  { subst exp. intros e s5. destruct s3 as [|c rest].
    - by intros [= <- <-].
    - destruct ((c =? 101) || (c =? 69)); [|by intros [= <- <-]].
      set (sign := match rest with
                   | d :: rest' =>
                       if d =? 45 then (true, rest')
                       else if d =? 43 then (false, rest')
                       else (false, rest)
                   | [] => (false, rest)
                   end).
      assert (sign.2 `suffix_of` rest) as Hs4.
      { subst sign. destruct rest as [|d rest']; [done|].
        destruct (d =? 45); [by apply suffix_cons_r|].
        destruct (d =? 43); [by apply suffix_cons_r|done]. }
      destruct sign as [minus s4]. cbn in Hs4.
      pose proof (take_digits_suffix s4 0 0) as Hsuf.
      destruct (take_digits s4 0 0) as [[e' j] r'].
      destruct j; [done|]. intros [= <- <-]. cbn in Hsuf.
      apply suffix_cons_r. by etrans. }
  destruct exp as [[e s5]|]; [|done].
  specialize (Hexp e s5 eq_refl). intros [= <- <-].
  etrans; [exact Hexp|]. etrans; [exact Hfrac|]. by etrans.
Qed.

Lemma suffix_elem (x : N) r s : r `suffix_of` s -> x ∈ r -> x ∈ s.
Proof. intros [k ->] Hx. apply elem_of_app. by right. Qed.

(** Whatever the fuel: the rest of a parse is a suffix of the text;
    the loop over elements builds an array; and an object is built only
    from a text that holds a closing brace. *)
Lemma parse_shape fuel :
  (∀ s v r, parse_value fuel s = Ok v r ->
            r `suffix_of` s
            ∧ ((∃ ms, v = Obj ms) -> Pattern.close_brace ∈ s))
  ∧ (∀ s acc v r, parse_elements fuel s acc = Ok v r ->
                  r `suffix_of` s ∧ ∃ l, v = Arr l)
  ∧ (∀ s acc v r, parse_members fuel s acc = Ok v r ->
                  r `suffix_of` s ∧ Pattern.close_brace ∈ s).
Proof.
  induction fuel as [|fuel (IHv & IHe & IHm)]; [done|].
  split_and!.
  - (* a value *)
    intros s v r. destruct s as [|c rest]; [done|]. cbn [parse_value].
    destruct (c =? 123).
    { pose proof (skip_ws_suffix rest) as Hws.
      destruct (skip_ws rest) as [|c' r']; [done|].
      destruct (N.eqb_spec c' 125) as [->|_].
      { intros [= <- <-]. split.
        - apply suffix_cons_r. by eapply suffix_cons_l.
        - intros _. apply elem_of_cons. right.
          eapply suffix_elem; [exact Hws|]. by left. }
      intros [Hsuf Hbrace]%IHm. split.
      - apply suffix_cons_r. by etrans.
      - intros _. apply elem_of_cons. right. by eapply suffix_elem. }
    destruct (c =? 91).
    { pose proof (skip_ws_suffix rest) as Hws.
      destruct (skip_ws rest) as [|c' r']; [done|].
      destruct (c' =? 93).
      { intros [= <- <-]. split; [|by intros [ms [=]]].
        apply suffix_cons_r. by eapply suffix_cons_l. }
      intros [Hsuf [l ->]]%IHe. split; [|by intros [ms [=]]].
      apply suffix_cons_r. by etrans. }
    destruct (c =? 34).
    { destruct (parse_chars rest) as [[str r']|] eqn:E; [|done].
      apply parse_chars_suffix in E. intros [= <- <-].
      split; [by apply suffix_cons_r|by intros [ms [=]]]. }
    assert (∀ word w, literal word w (c :: rest) = Ok v r ->
                      (∀ ms, w ≠ Obj ms) ->
                      r `suffix_of` c :: rest
                      ∧ ((∃ ms, v = Obj ms) -> Pattern.close_brace ∈ c :: rest))
      as Hliteral.
    { intros word w. unfold literal.
      destruct (Pattern.strip_prefix word (c :: rest)) as [rest'|] eqn:E;
        [|done].
      apply strip_prefix_suffix in E. intros [= <- <-] Hw.
      split; [done|]. intros [ms ->]. by destruct (Hw ms). }
    destruct (c =? 116). { intros H. by apply (Hliteral _ _ H). }
    destruct (c =? 102). { intros H. by apply (Hliteral _ _ H). }
    destruct (c =? 110). { intros H. by apply (Hliteral _ _ H). }
    destruct (parse_number (c :: rest)) as [[n r']|] eqn:E; [|done].
    apply parse_number_suffix in E. intros [= <- <-].
    split; [done|by intros [ms [=]]].
  - (* the elements of an array *)
    intros s acc v r. cbn [parse_elements].
    destruct (parse_value fuel s) as [v1 r1| |] eqn:E; [|done|done].
    apply IHv in E as [Hsuf _].
    pose proof (skip_ws_suffix r1) as Hws.
    destruct (skip_ws r1) as [|c r']; [done|].
    destruct (c =? 44).
    { intros [Hsuf' Harr]%IHe. split; [|done].
      etrans; [exact Hsuf'|]. etrans; [apply skip_ws_suffix|].
      etrans; [|exact Hsuf]. etrans; [|exact Hws]. by apply suffix_cons_r. }
    destruct (c =? 93); [|done]. intros [= <- <-]. split; [|by eexists].
    etrans; [|exact Hsuf]. etrans; [|exact Hws]. by apply suffix_cons_r.
  - (* the members of an object *)
    intros s acc v r. cbn [parse_members].
    destruct s as [|c r0]; [done|].
    destruct (c =? 34); [|done].
    destruct (parse_chars r0) as [[key r1]|] eqn:E1; [|done].
    apply parse_chars_suffix in E1.
    pose proof (skip_ws_suffix r1) as Hws1.
    destruct (skip_ws r1) as [|c1 r2]; [done|].
    destruct (c1 =? 58); [|done].
    destruct (parse_value fuel (skip_ws r2)) as [v3 r3| |] eqn:E3;
      [|done|done].
    apply IHv in E3 as [Hsuf3 _].
    pose proof (skip_ws_suffix r3) as Hws3.
    assert (skip_ws r3 `suffix_of` c :: r0) as Hall.
    { apply suffix_cons_r. etrans; [exact Hws3|]. etrans; [exact Hsuf3|].
      etrans; [apply skip_ws_suffix|]. etrans; [|exact E1].
      etrans; [|exact Hws1]. by apply suffix_cons_r. }
    destruct (skip_ws r3) as [|c3 r4]; [done|].
    destruct (c3 =? 44).
    { intros [Hsuf Hbrace]%IHm.
      assert (skip_ws r4 `suffix_of` c :: r0) as Hr4.
      { etrans; [apply skip_ws_suffix|]. by eapply suffix_cons_l. }
      split; [by etrans|by eapply suffix_elem]. }
    destruct (N.eqb_spec c3 125) as [->|_]; [|done].
    intros [= <- <-]. split; [by eapply suffix_cons_l|].
    eapply suffix_elem; [exact Hall|]. by left.
Qed.

End Fuel.

(** ** Events received whole *)

Section Events.
Import Pattern Relay Framing.
Implicit Types (e : Event) (es : list Event).
Implicit Types (s y z rest capture after : jsstring).

Lemma strip_prefix_app p s : strip_prefix p (p ++ s) = Some s.
Proof. induction p as [|a p IH]; cbn; [done|]. by rewrite N.eqb_refl. Qed.

Lemma strip_prefix_inv p : ∀ s rest,
  strip_prefix p s = Some rest -> s = p ++ rest.
Proof.
  induction p as [|a p IH]; intros s rest; cbn.
  - by intros [= ->].
  - destruct s as [|b s]; [done|].
    destruct (N.eqb_spec a b) as [->|]; [|done].
    intros H. by rewrite (IH s rest H).
Qed.

Lemma trim_start_gap g s :
  forallb JS.is_white_space g = true ->
  JS.trim_start (g ++ s) = JS.trim_start s.
Proof.
  induction g as [|c g IH]; [done|]. cbn.
  intros [-> Hg]%andb_true_iff. by apply IH.
Qed.

Lemma trim_start_split s :
  ∃ ws, s = ws ++ JS.trim_start s ∧ forallb JS.is_white_space ws = true.
Proof.
  induction s as [|c s (ws & Hs & Hws)]; [by exists []|]. cbn.
  destruct (JS.is_white_space c) eqn:Hc.
  - exists (c :: ws). cbn. rewrite Hc, Hws. split; [|done]. by f_equal.
  - by exists [].
Qed.

Lemma terminators_white term :
  forallb JS.is_line_terminator term = true ->
  forallb JS.is_white_space term = true.
Proof.
  induction term as [|t term IH]; [done|]. cbn.
  intros [Ht Hterm]%andb_true_iff. rewrite IH by done.
  unfold JS.is_white_space. rewrite Ht. by rewrite !orb_true_r.
Qed.

Lemma framed_inv p :
  framed p = true ->
  ∃ mid, p = open_brace :: mid ++ [close_brace]
         ∧ forallb (fun c => negb (JS.is_line_terminator c)) mid = true.
Proof.
  destruct p as [|c rest]; [done|]. cbn.
  intros [[Hc Hlast]%andb_true_iff Hline]%andb_true_iff.
  apply N.eqb_eq in Hc. apply bool_decide_eq_true in Hlast.
  apply last_Some in Hlast as [mid ->]. exists mid. split; [by subst|].
  rewrite forallb_app in Hline. by apply andb_true_iff in Hline as [? _].
Qed.

(** *** What the pattern captures *)

(** [.*\}] takes a run without line terminators that ends in a closing
    brace, and the last such brace of the line. *)
Lemma dot_star_brace_inv s : ∀ m after,
  dot_star_brace s = Some (m, after) ->
  s = m ++ after
  ∧ last m = Some close_brace
  ∧ forallb (fun c => negb (JS.is_line_terminator c)) m = true
  ∧ ∀ pre post, after = pre ++ close_brace :: post ->
                ∃ t, t ∈ pre ∧ JS.is_line_terminator t = true.
Proof.
  induction s as [|c s IH]; intros m after; [done|]. cbn.
  destruct (JS.is_line_terminator c) eqn:Hc; [done|].
  destruct (dot_star_brace s) as [[m' after']|] eqn:Hs.
  - intros [= <- <-]. destruct (IH m' after' eq_refl) as (-> & Hl & Hm & Hmax).
    split_and!; [done| |by cbn; rewrite Hc|done].
    destruct m'; [done|]. done.
  - destruct (N.eqb_spec c close_brace) as [->|]; [|done].
    intros [= <- <-]. split_and!; try done.
    intros pre post ->.
    assert (∀ z, dot_star_brace z = None ->
              ∀ pre post, z = pre ++ close_brace :: post ->
                ∃ t, t ∈ pre ∧ JS.is_line_terminator t = true) as Hnone.
    { clear. intros z. induction z as [|c z IHz]; intros Hz pre post Heq.
      - by destruct pre.
      - cbn in Hz. destruct (JS.is_line_terminator c) eqn:Hc.
        + destruct pre as [|p pre]; injection Heq as -> ->.
          * done.
          * exists p. split; [by left|done].
        + destruct (dot_star_brace z) as [[m a]|] eqn:Hdz; [done|].
          destruct pre as [|p pre]; injection Heq as -> ->.
          * done.
          * destruct (IHz eq_refl pre post eq_refl) as (t & Ht & Hterm).
            exists t. split; [by right|done]. }
    by eapply Hnone.
Qed.

Lemma match_at_inv s capture after :
  match_at s = Some (capture, after) ->
  framed capture = true
  ∧ (∃ ws, s = data_marker ++ ws ++ capture ++ after
           ∧ forallb JS.is_white_space ws = true)
  ∧ ∀ pre post, after = pre ++ close_brace :: post ->
                ∃ t, t ∈ pre ∧ JS.is_line_terminator t = true.
Proof.
  unfold match_at.
  destruct (strip_prefix data_marker s) as [rest|] eqn:Hrest; [|done].
  apply strip_prefix_inv in Hrest as ->.
  destruct (trim_start_split rest) as (ws & Hrest & Hws).
  destruct (JS.trim_start rest) as [|c rest']; [done|].
  destruct (N.eqb_spec c open_brace) as [->|]; [|done].
  destruct (dot_star_brace rest') as [[m after']|] eqn:Hm; [|done].
  intros [= <- <-].
  destruct (dot_star_brace_inv rest' m after' Hm)
    as (-> & Hlast & Hline & Hmax).
  split_and!.
  - cbn. rewrite Hline. by rewrite bool_decide_eq_true_2.
  - exists ws. by rewrite Hrest.
  - done.
Qed.

Lemma match_at_after_marker s :
  match_at s = strip_prefix data_marker s ≫= after_marker.
Proof. unfold match_at. by destruct (strip_prefix data_marker s). Qed.

(** *** Line terminators *)

Lemma match_at_terminator t rest :
  JS.is_line_terminator t = true -> match_at (t :: rest) = None.
Proof.
  intros Ht. assert ((100 =? t) = false) as E.
  { apply N.eqb_neq. intros <-. discriminate. }
  unfold match_at, data_marker. cbn [strip_prefix]. by rewrite E.
Qed.

Lemma matchAll_terminator term rest :
  forallb JS.is_line_terminator term = true ->
  matchAll (term ++ rest) = matchAll rest.
Proof.
  induction term as [|t term IH]; [done|]. cbn.
  intros [Ht Hterm]%andb_true_iff.
  rewrite matchAll_unfold, match_at_terminator by done. by apply IH.
Qed.

Lemma dot_star_brace_app r t z :
  JS.is_line_terminator t = true ->
  dot_star_brace (r ++ t :: z)
  = match dot_star_brace r with
    | Some (m, after) => Some (m, after ++ t :: z)
    | None => None
    end.
Proof.
  intros Ht. induction r as [|c r IH]; cbn; [by rewrite Ht|].
  destruct (JS.is_line_terminator c); [done|]. rewrite IH.
  destruct (dot_star_brace r) as [[m after]|]; [done|].
  by destruct (c =? close_brace).
Qed.

Lemma trim_start_app p z :
  JS.trim_start (p ++ z)
  = match JS.trim_start p with
    | c :: r => c :: r ++ z
    | [] => JS.trim_start z
    end.
Proof.
  induction p as [|c p IH]; [done|]. cbn.
  by destruct (JS.is_white_space c).
Qed.

Lemma after_marker_app p t z :
  JS.is_line_terminator t = true ->
  after_marker (t :: z) = None ->
  after_marker (p ++ t :: z)
  = (fun '(c, a) => (c, a ++ t :: z)) <$> after_marker p.
Proof.
  intros Ht Hz. unfold after_marker in *. rewrite trim_start_app.
  destruct (JS.trim_start p) as [|c r]; [by rewrite Hz|].
  destruct (c =? open_brace); [|done].
  rewrite dot_star_brace_app by done.
  by destruct (dot_star_brace r) as [[m after]|].
Qed.

(** *** A text of whole events *)

Lemma next_event_events es : next_event (concat (render <$> es)).
Proof.
  destruct es as [|e es]; [by left|]. right. cbn. unfold render.
  rewrite <- app_assoc. by eexists.
Qed.

(** After the terminator of an event the pattern finds no opening
    brace: the text ends, or the next marker stands there. *)
Lemma after_marker_terminator t term rest :
  JS.is_line_terminator t = true ->
  forallb JS.is_line_terminator term = true ->
  next_event rest ->
  after_marker (t :: term ++ rest) = None.
Proof.
  intros Ht Hterm Hrest. unfold after_marker.
  change (t :: term ++ rest) with ((t :: term) ++ rest).
  rewrite trim_start_gap.
  - by destruct Hrest as [-> | [r ->]].
  - apply (terminators_white (t :: term)). cbn. by rewrite Ht.
Qed.

Lemma strip_prefix_line y t z :
  JS.is_line_terminator t = true ->
  strip_prefix data_marker (y ++ t :: z)
  = (fun r => r ++ t :: z) <$> strip_prefix data_marker y.
Proof.
  intros Ht.
  assert (∀ p, t ∉ p -> strip_prefix p (y ++ t :: z)
                       = (fun r => r ++ t :: z) <$> strip_prefix p y) as H.
  { intros p. revert y. induction p as [|a p IH]; intros y Hp; [done|].
    apply not_elem_of_cons in Hp as [Ha Hp]. destruct y as [|b y]; cbn.
    - destruct (N.eqb_spec a t); [by subst|done].
    - destruct (a =? b); [by apply IH|done]. }
  apply H. unfold data_marker. intros Hin.
  repeat (apply elem_of_cons in Hin as [->|Hin]; [done|]).
  by apply elem_of_nil in Hin.
Qed.

Lemma match_at_line y t z :
  JS.is_line_terminator t = true ->
  after_marker (t :: z) = None ->
  match_at (y ++ t :: z)
  = (fun '(c, a) => (c, a ++ t :: z)) <$> match_at y.
Proof.
  intros Ht Hz. rewrite !match_at_after_marker, strip_prefix_line by done.
  destruct (strip_prefix data_marker y) as [r|]; [|done]. cbn.
  by apply after_marker_app.
Qed.

(** The matches in a text that a line terminator ends are found in the
    text alone; the search then goes on after it. *)
Lemma matchAll_line y : ∀ t z,
  JS.is_line_terminator t = true ->
  after_marker (t :: z) = None ->
  matchAll (y ++ t :: z) = matchAll y ++ matchAll z.
Proof.
  induction y as [y IH] using (induction_ltof1 _ (@length N)).
  intros t z Ht Hz. rewrite (matchAll_unfold (y ++ t :: z)).
  rewrite (matchAll_unfold y), match_at_line by done.
  destruct (match_at y) as [[c a]|] eqn:Hm; cbn.
  - rewrite IH; [done| |done|done]. by eapply match_at_length.
  - destruct y as [|x y]; cbn.
    + done.
    + apply IH; [|done|done]. unfold ltof. cbn. lia.
Qed.

(** The matches in a text of events are those in each event taken on
    its own, terminator left out, in order. *)
Lemma matchAll_ended es :
  forallb ended es = true ->
  matchAll (concat (render <$> es))
  = es ≫= fun e => matchAll (data_marker ++ gap e ++ payload e).
Proof.
  induction es as [|e es IH]; [done|]. cbn [fmap list_fmap concat forallb].
  intros [[[Hgap Hsome]%andb_true_iff Hterm]%andb_true_iff Hes]%andb_true_iff.
  cbn [mbind list_bind]. rewrite <- IH by done. unfold render at 1.
  destruct (terminator e) as [|t term]; [done|].
  cbn in Hterm. apply andb_true_iff in Hterm as [Ht Hterm].
  rewrite !app_assoc, <- (app_assoc _ (t :: term)).
  change ((t :: term) ++ concat (render <$> es))
    with (t :: term ++ concat (render <$> es)).
  rewrite matchAll_line;
    [|done|apply after_marker_terminator; [done|done|apply next_event_events]].
  by rewrite (matchAll_terminator term).
Qed.

(** *** One event *)






(** No match starts at a code unit other than the [d] of the marker. *)
Lemma match_at_other c s : c ≠ 100 -> match_at (c :: s) = None.
Proof.
  intros Hc. unfold match_at, data_marker. cbn [strip_prefix].
  by destruct (N.eqb_spec 100 c); [subst|].
Qed.

Lemma matchAll_other pre s :
  forallb (fun c => negb (c =? 100)) pre = true ->
  matchAll (pre ++ s) = matchAll s.
Proof.
  induction pre as [|c pre IH]; [done|]. cbn [forallb app].
  intros [Hc Hpre]%andb_true_iff. apply negb_true_iff, N.eqb_neq in Hc.
  rewrite matchAll_unfold, match_at_other by done. by apply IH.
Qed.

Lemma white_space_other g :
  forallb JS.is_white_space g = true ->
  forallb (fun c => negb (c =? 100)) g = true.
Proof.
  induction g as [|c g IH]; [done|]. cbn.
  intros [Hc Hg]%andb_true_iff. rewrite IH by done.
  by destruct (N.eqb_spec c 100) as [->|].
Qed.

Lemma after_marker_gap g p :
  forallb JS.is_white_space g = true ->
  after_marker (g ++ p) = after_marker p.
Proof. intros Hg. unfold after_marker. by rewrite trim_start_gap. Qed.

(** The matches in one event, its terminator left out: the part the
    pattern captures after the marker, and whatever the search finds
    in what the pattern has left of the payload. *)
Lemma matchAll_event g p :
  forallb JS.is_white_space g = true ->
  matchAll (data_marker ++ g ++ p)
  = match captured p with
    | Some c => c :: matchAll (beyond p)
    | None => matchAll (beyond p)
    end.
Proof.
  intros Hg. rewrite matchAll_unfold, match_at_after_marker.
  rewrite strip_prefix_app. cbn [mbind option_bind].
  rewrite after_marker_gap by done. unfold captured, beyond.
  destruct (after_marker p) as [[c after]|]; [done|].
  unfold data_marker. cbn [fmap option_fmap option_map app].
  change (97 :: 116 :: 97 :: 58 :: g ++ p)
    with ([97; 116; 97; 58] ++ g ++ p).
  rewrite (matchAll_other [97; 116; 97; 58]) by done.
  rewrite matchAll_other; [done|by apply white_space_other].
Qed.




(** *** The part parsed, in words *)

Lemma line_brace_free_none s :
  line_brace_free s -> dot_star_brace s = None.
Proof.
  induction s as [|c s IH]; intros Hs; [done|]. cbn.
  destruct (JS.is_line_terminator c) eqn:Hc; [done|].
  rewrite IH.
  - destruct (N.eqb_spec c close_brace) as [->|]; [|done].
    destruct (Hs [] s eq_refl) as (t & Ht & _). by apply elem_of_nil in Ht.
  - intros pre post ->.
    destruct (Hs (c :: pre) post eq_refl) as (t & Ht & Hterm).
    apply elem_of_cons in Ht as [->|Ht]; [congruence|by exists t].
Qed.

Lemma dot_star_brace_last mid after :
  one_line mid = true ->
  line_brace_free after ->
  dot_star_brace (mid ++ close_brace :: after)
  = Some (mid ++ [close_brace], after).
Proof.
  intros Hmid Hafter. induction mid as [|c mid IH]; cbn.
  - by rewrite line_brace_free_none.
  - cbn in Hmid. apply andb_true_iff in Hmid as [Hc Hmid].
    apply negb_true_iff in Hc. by rewrite Hc, IH.
Qed.

Lemma after_marker_spec p c after :
  after_marker p = Some (c, after) <-> parsed_part p c after.
Proof.
  split.
  - unfold after_marker. destruct (trim_start_split p) as (ws & Hp & Hws).
    destruct (JS.trim_start p) as [|b rest]; [done|].
    destruct (N.eqb_spec b open_brace) as [->|]; [|done].
    destruct (dot_star_brace rest) as [[m after']|] eqn:Hm; [|done].
    intros [= <- <-].
    destruct (dot_star_brace_inv rest m after' Hm)
      as (-> & Hlast & Hline & Hmax).
    exists ws. split_and!; [done|done| |done].
    cbn. rewrite Hline. by rewrite bool_decide_eq_true_2.
  - intros (ws & -> & Hws & Hc & Hafter).
    apply framed_inv in Hc as (mid & -> & Hmid).
    rewrite after_marker_gap by done. unfold after_marker.
    cbn. rewrite <- app_assoc. cbn. by rewrite dot_star_brace_last.
Qed.

(** *** The loop of the handler *)

(** A call of [decode] that flushes starts from nothing and leaves
    nothing behind. *)
Lemma decode_flushed d value :
  TextDecoder.do_not_flush d = false ->
  (TextDecoder.decode d value false).1 = decode_once value
  ∧ TextDecoder.do_not_flush (TextDecoder.decode d value false).2 = false.
Proof.
  intros Hd. unfold decode_once, TextDecoder.decode. rewrite Hd. cbn.
  destruct (UTF8.run UTF8.init value) as [rs s].
  destruct (UTF8.finish s) as [rs' s'].
  by destruct (TextDecoder.serialize false _).
Qed.

Lemma forward_fragment fullText queue p :
  forward (fullText, queue) p
  = match text_fragment p with
    | Some text => (fullText ++ text, queue ++ [TextEncoder.encode text])
    | None => (fullText, queue)
    end.
Proof.
  unfold forward, text_fragment. destruct (JSON.parse p) as [json|]; [|done].
  by destruct (ES.ToBoolean (text_of json)).
Qed.

(** The loop over the matches of a chunk enqueues the fragments of the
    payloads that have one, and passes over the others. *)
Lemma fold_forward payloads : ∀ fullText queue,
  fold_left forward payloads (fullText, queue)
  = (fullText ++ concat (omap text_fragment payloads),
     queue ++ (TextEncoder.encode <$> omap text_fragment payloads)).
Proof.
  induction payloads as [|p payloads IH]; intros fullText queue.
  - cbn. by rewrite !app_nil_r.
  - cbn [fold_left omap list_omap]. rewrite forward_fragment.
    destruct (text_fragment p) as [text|]; rewrite IH; [|done].
    cbn. by rewrite <- !app_assoc.
Qed.

(** What the relay enqueues, chunk by chunk: each chunk is decoded on
    its own, and each match in it forwards its fragment, if any. *)
Lemma pump_chunks chunks : ∀ d fullText,
  TextDecoder.do_not_flush d = false ->
  pump d fullText chunks
  = chunks ≫= fun value =>
      TextEncoder.encode
        <$> omap text_fragment (matchAll (decode_once value)).
Proof.
  induction chunks as [|value chunks IH]; intros d fullText Hd; [done|].
  cbn [pump]. destruct (decode_flushed d value Hd) as [Htext Hflag].
  destruct (TextDecoder.decode d value false) as [chunk d']. cbn in *.
  subst chunk. rewrite fold_forward. cbn. by rewrite IH.
Qed.

End Events.

(** ** What the relay forwards *)

Section Forwarding.
Import Relay Framing.
Implicit Types (e : Event) (es : list Event).

(** C1, on the code: an event whose bytes arrive in two chunks is
    forwarded when the chunks are joined and lost when they are not,
    because each chunk is decoded and matched on its own. *)
Theorem split_event_is_lost :
  Sample.Hel_head ++ Sample.Hel_tail = Sample.Hel_bytes
  ∧ ByteStream.chunks (start (ByteStream.Make [Sample.Hel_bytes] false))
    = [TextEncoder.encode (JS.lit "Hel")]
  ∧ ByteStream.chunks
      (start (ByteStream.Make [Sample.Hel_head; Sample.Hel_tail] false))
    = [].
Proof. vm_compute. done. Qed.




End Forwarding.

(* ===================================================================== *)
(** * Further properties of the relay *)
(* ===================================================================== *)

(** ** The sweep as a whole *)

Section Sweep.
Import Relay.
Implicit Types (m : gmap jsstring StoredConversation) (k : jsstring).
Implicit Types (v : StoredConversation) (now : Z).

(** X1. The loop of [cleanupExpired], which deletes from the map it
    iterates over, leaves exactly the entries whose expiry lies after
    the clock reading: nothing expired stays, nothing live goes, and no
    entry is altered or added. *)
Theorem cleanupExpired_filter now m :
  cleanupExpired now m
  = filter (fun kv => (now < expiresAt kv.2)%Z) m.
Proof.
  apply map_eq. intros k.
  rewrite cleanupExpired_lookup, map_lookup_filter.
  destruct (m !! k) as [v|]; [|done]. cbn.
  destruct (Z.leb_spec (expiresAt v) now).
  - by rewrite option_guard_False by lia.
  - by rewrite option_guard_True.
Qed.

(** X2. Two sweeps in a row do what one sweep at the later of the two
    clock readings does; in particular a sweep repeated at the same
    reading changes nothing more. *)
Theorem cleanupExpired_twice now1 now2 m :
  cleanupExpired now2 (cleanupExpired now1 m)
  = cleanupExpired (Z.max now1 now2) m
  ∧ cleanupExpired now1 (cleanupExpired now1 m) = cleanupExpired now1 m.
Proof.
  assert (∀ a b, cleanupExpired b (cleanupExpired a m)
                 = cleanupExpired (Z.max a b) m) as Htwice.
  { intros a b. apply map_eq. intros k. rewrite !cleanupExpired_lookup.
    destruct (m !! k) as [v|]; [|done].
    destruct (Z.leb_spec (expiresAt v) a),
             (Z.leb_spec (expiresAt v) (Z.max a b)); try lia; try done.
    - destruct (Z.leb_spec (expiresAt v) b); [done|lia].
    - destruct (Z.leb_spec (expiresAt v) b); [lia|done]. }
  split; [apply Htwice|]. rewrite Htwice. by rewrite Z.max_id.
Qed.

End Sweep.

(** ** The handler as a whole *)

Section HandlerTotal.
Import Relay.
Implicit Types (P : Platform) (w : World) (req : RequestBody).
Implicit Types (k : jsstring).

(** Computes the names of the headers, in lower case. *)
Ltac lower_names :=
  repeat match goal with
  | |- context [Fetch.lower <$> JS.lit ?s] =>
      let l := eval vm_compute in (Fetch.lower <$> JS.lit s) in
      change (Fetch.lower <$> JS.lit s) with l
  end.

Lemma text_headers status s name :
  Fetch.get (Build_Response status [] (Text s)) name
  = if Fetch.same_name name (JS.lit "content-type")
    then Some (JS.lit "text/plain;charset=UTF-8") else None.
Proof.
  unfold Fetch.get, Fetch.header_list, Fetch.same_name.
  cbn [resp_body resp_headers Fetch.body_type existsb app List.filter fst].
  lower_names. repeat case_bool_decide; done || congruence.
Qed.

Lemma stream_headers_get stream name :
  Fetch.get (Build_Response 200 stream_headers (Stream stream)) name
  = if Fetch.same_name name (JS.lit "content-type")
    then Some (JS.lit "text/plain; charset=utf-8")
    else if Fetch.same_name name (JS.lit "cache-control")
    then Some (JS.lit "no-cache")
    else if Fetch.same_name name (JS.lit "x-accel-buffering")
    then Some (JS.lit "no")
    else None.
Proof.
  unfold Fetch.get, Fetch.header_list, Fetch.same_name, stream_headers.
  cbn [resp_body resp_headers Fetch.body_type List.filter fst].
  lower_names. repeat case_bool_decide; try done; exfalso; congruence.
Qed.

(** X3. The handler never throws on a request whose body cannot be
    read or is read at the type of the handler's annotation (a body of
    another shape is not covered here): the request is answered with
    400 when the body cannot be read or the upstream call throws, 500
    without the credential, 502 when the upstream answers outside
    200..299 or without a body, and 200 otherwise. Only the 200 answer
    carries a stream, under the three streaming headers and no other;
    every other answer is a text, and its only header is the
    [Content-Type] [text/plain;charset=UTF-8] that the [Response]
    constructor gives to a string. *)
Theorem POST_answers P w :
  ∃ r, (POST P w).1 = Returned r
  ∧ resp_status r
    = match req_json P with
      | None => 400
      | Some req =>
          match truthy (GEMINI_API_KEY P) with
          | None => 500
          | Some _ =>
              match fetch P (contents_of req) with
              | NetworkError => 400
              | Responded upstream => if failed upstream then 502 else 200
              end
          end
      end
  ∧ match resp_body r with
    | Stream _ =>
        resp_status r = 200
        ∧ ∀ name,
            Fetch.get r name
            = if Fetch.same_name name (JS.lit "content-type")
              then Some (JS.lit "text/plain; charset=utf-8")
              else if Fetch.same_name name (JS.lit "cache-control")
              then Some (JS.lit "no-cache")
              else if Fetch.same_name name (JS.lit "x-accel-buffering")
              then Some (JS.lit "no")
              else None
    | Text _ =>
        resp_status r ≠ 200
        ∧ ∀ name,
            Fetch.get r name
            = if Fetch.same_name name (JS.lit "content-type")
              then Some (JS.lit "text/plain;charset=UTF-8") else None
    end.
Proof.
  destruct (req_json P) as [req|] eqn:Hreq.
  - destruct (truthy (GEMINI_API_KEY P)) as [apiKey|] eqn:Hkey.
    + rewrite (POST_with_key P w req apiKey Hreq Hkey). cbn [fst].
      eexists. split; [done|].
      destruct (fetch P (contents_of req)) as [|upstream]; cbn [reply].
      * split; [done|]. split; [done|]. apply text_headers.
      * destruct (failed upstream).
        -- split; [done|]. split; [done|]. apply text_headers.
        -- split; [done|]. split; [done|]. apply stream_headers_get.
    + rewrite (POST_missing_key P w req Hreq Hkey). eexists.
      split; [done|]. split; [done|]. split; [done|]. apply text_headers.
  - rewrite (POST_bad_json P w Hreq). eexists.
    split; [done|]. split; [done|]. split; [done|]. apply text_headers.
Qed.

(** X4. What one request does to the world, in order, when its body
    cannot be read or is read at the type of the handler's annotation:
    [messages] absent, [null] or a list of messages with a role and a
    string for content, [sessionId] absent, [null] or a string (a body
    of another shape is not covered here). Nothing at all when the body
    cannot be read; the sweep alone without the credential; otherwise
    the sweep, one [set] and one upstream call, made with the
    credential, the fixed model and every message of the request. For
    such a request the upstream is thus called at most once, and never
    before the history is stored. *)
Theorem POST_effects P w :
  match req_json P with
  | None => (POST P w).2 = w
  | Some req =>
      match truthy (GEMINI_API_KEY P) with
      | None =>
          trace (POST P w).2 = trace w ++ [Swept (now_sweep P)]
      | Some apiKey =>
          trace (POST P w).2
          = trace w ++ [Swept (now_sweep P);
                        Stored (sid_of P req) (entry_of P req);
                        Fetched model apiKey
                          (to_content <$> default [] (body_messages req))]
      end
  end.
Proof.
  destruct (req_json P) as [req|] eqn:Hreq.
  - destruct (truthy (GEMINI_API_KEY P)) as [apiKey|] eqn:Hkey.
    + by rewrite (POST_with_key P w req apiKey Hreq Hkey).
    + by rewrite (POST_missing_key P w req Hreq Hkey).
  - by rewrite (POST_bad_json P w Hreq).
Qed.

(** The map after a request whose body was read. *)
Lemma POST_conversations P w req k :
  req_json P = Some req ->
  conversations (POST P w).2 !! k
  = match truthy (GEMINI_API_KEY P) with
    | Some _ =>
        if decide (sid_of P req = k) then Some (entry_of P req)
        else cleanupExpired (now_sweep P) (conversations w) !! k
    | None => cleanupExpired (now_sweep P) (conversations w) !! k
    end.
Proof.
  intros Hreq. destruct (truthy (GEMINI_API_KEY P)) as [apiKey|] eqn:Hkey.
  - rewrite (POST_with_key P w req apiKey Hreq Hkey). cbn.
    destruct (decide (sid_of P req = k)) as [->|Hne].
    + by rewrite lookup_insert_eq.
    + by rewrite lookup_insert_ne.
  - by rewrite (POST_missing_key P w req Hreq Hkey).
Qed.

(** X5. A request writes under its own session only: the entry of any
    other session is after the request what the sweep made of it, that
    is, unchanged when its expiry had not been reached and gone
    otherwise. *)
Theorem POST_other_sessions P w req k :
  req_json P = Some req ->
  k ≠ sid_of P req ->
  conversations (POST P w).2 !! k
  = match conversations w !! k with
    | Some v => if (expiresAt v <=? now_sweep P)%Z then None else Some v
    | None => None
    end.
Proof.
  intros Hreq Hk. rewrite (POST_conversations P w req k Hreq).
  rewrite <- cleanupExpired_lookup.
  destruct (truthy (GEMINI_API_KEY P)); [|done].
  by destruct (decide (sid_of P req = k)) as [<-|].
Qed.

Lemma POST_other_sessions_witness :
  conversations
    (POST (Sample.platform (Sample.request [Sample.hi] (Some Sample.s2))
             Sample.secret (Sample.t0 + 1) NetworkError)
          Sample.stale_world).2 !! Sample.s1
  = Some {| messages := [Sample.hi]; expiresAt := Sample.t1 |}.
Proof.
  refine (eq_trans
            (POST_other_sessions
               (Sample.platform (Sample.request [Sample.hi] (Some Sample.s2))
                  Sample.secret (Sample.t0 + 1) NetworkError)
               Sample.stale_world
               (Sample.request [Sample.hi] (Some Sample.s2))
               Sample.s1 eq_refl _) _).
  - vm_compute. discriminate.
  - vm_compute. reflexivity.
Defined.

(** X6. When the clock does not run backwards between the sweep and
    the [set], no entry of the map has expired, as of the sweep, once a
    request whose body was read has been handled. *)
Theorem POST_leaves_live P w req :
  req_json P = Some req ->
  (now_sweep P <= now_set P)%Z ->
  map_Forall (fun _ v => (now_sweep P < expiresAt v)%Z)
             (conversations (POST P w).2).
Proof.
  intros Hreq Hclock k v. rewrite (POST_conversations P w req k Hreq).
  assert (cleanupExpired (now_sweep P) (conversations w) !! k = Some v ->
          (now_sweep P < expiresAt v)%Z) as Hswept.
  { rewrite cleanupExpired_lookup.
    destruct (conversations w !! k) as [v'|]; [|done].
    destruct (Z.leb_spec (expiresAt v') (now_sweep P)); [done|].
    intros [= <-]. lia. }
  destruct (truthy (GEMINI_API_KEY P)); [|done].
  destruct (decide (sid_of P req = k)); [|done].
  intros [= <-]. cbn. unfold CONVO_TTL_MS. lia.
Qed.

Lemma POST_leaves_live_witness :
  map_Forall (fun _ v => (Sample.t1 < expiresAt v)%Z)
    (conversations
       (POST (Sample.platform (Sample.request [Sample.hi] (Some Sample.s2))
                Sample.secret Sample.t1 NetworkError)
             Sample.stale_world).2).
Proof.
  refine (POST_leaves_live
            (Sample.platform (Sample.request [Sample.hi] (Some Sample.s2))
               Sample.secret Sample.t1 NetworkError)
            Sample.stale_world
            (Sample.request [Sample.hi] (Some Sample.s2)) eq_refl _).
  vm_compute. discriminate.
Defined.

End HandlerTotal.

(* ===================================================================== *)
(** * Further properties of the component *)
(* ===================================================================== *)

(** ** The session identifier *)

Section SessionIdentifier.
Import ChatView.
Implicit Types (st : State) (ls : Storage.t).

(** X7. Whatever the storage holds and whether or not it accepts
    writes, the effect run on mount leaves the component with a session
    identifier that counts as true, the one [mount] describes. A stored
    identifier that counts as true is taken as it is and the storage is
    not written; otherwise the storage, when it accepts the write, holds
    the new identifier afterwards, and is left as it was when it
    refuses. *)
Theorem useEffect_session random ls st :
  let st' := (Page.useEffect random ls st).1 in
  let ls' := (Page.useEffect random ls st).2 in
  st' = mount (Storage.getItem ls) random st
  ∧ truthy (sessionId st') = true
  ∧ (if truthy (Storage.getItem ls)
     then ls' = ls ∧ sessionId st' = Storage.getItem ls
     else sessionId st' = Some (UUID.v4 random)
          ∧ if Storage.refuses ls then ls' = ls
            else Storage.getItem ls' = sessionId st').
Proof.
  unfold Page.useEffect, mount, Storage.setItem.
  destruct (truthy (Storage.getItem ls)) eqn:Hsid; cbn.
  - done.
  - by destruct (Storage.refuses ls).
Qed.

(** X8. With a storage that accepts writes, a second load of the page
    comes up with the session identifier of the first, whatever
    [crypto.randomUUID] draws the second time, and leaves the storage as
    the first load left it. *)
Theorem session_survives_reload random1 random2 ls :
  Storage.refuses ls = false ->
  let first := Page.load random1 ls in
  let second := Page.load random2 first.2 in
  sessionId second.1 = sessionId first.1 ∧ second.2 = first.2.
Proof.
  intros Hls. unfold Page.load, Page.useEffect, Storage.setItem.
  rewrite Hls.
  destruct (truthy (Storage.getItem ls)) eqn:Hsid; cbn.
  - by rewrite Hsid.
  - done.
Qed.

Lemma session_survives_reload_witness :
  sessionId
    (Page.load 8 (Page.load 7 {| Storage.chat_session_id := None;
                                 Storage.refuses := false |}).2).1
  = Some (UUID.v4 7).
Proof.
  exact (proj1 (session_survives_reload 7 8
                  {| Storage.chat_session_id := None;
                     Storage.refuses := false |} eq_refl)).
Defined.

End SessionIdentifier.

(** ** What holds of every state the component reaches *)

Section Reachable.
Import ChatView.
Implicit Types (st : State) (e : Event) (m : Message).

Lemma loading_running_step st e :
  (loading st = true -> running st ≠ []) ->
  loading (step st e) = true -> running (step st e) ≠ [].
Proof.
  intros Hinv. destruct e as [stored random|value|r1 r2|i r]; cbn.
  - done.
  - unfold type. by destruct (disabled st).
  - unfold onSubmit. destruct (JS.trim _); [done|].
    unfold handleSend. destruct (negb (truthy (sessionId st))); [done|].
    cbn. intros _ Hnil. by apply app_eq_nil in Hnil as [_ ?].
  - unfold resume. destruct (running st !! i) as [a|] eqn:Hi; [|done].
    assert (∀ b, <[i := b]> (running st) ≠ []) as Hins.
    { intros b Hnil. apply (f_equal length) in Hnil.
      rewrite length_insert in Hnil. apply lookup_lt_Some in Hi.
      cbn in Hnil. lia. }
    destruct (at_ a) as [|decoder acc], r as [|ok has_body|value| |];
      cbn; try done.
    + destruct (negb ok || negb has_body); cbn; [done|]. intros _. apply Hins.
    + destruct (TextDecoder.decode decoder value true). cbn.
      intros _. apply Hins.
Qed.

(** X9. In every state the component reaches, [loading] is set exactly
    while an activation of [handleSend] is in flight, so the input and
    the button are enabled exactly when a session identifier is in place
    and no turn is in flight: a turn that has ended, well or badly,
    never leaves the form disabled. *)
Theorem loading_while_in_flight st :
  reachable st ->
  (loading st = true ↔ running st ≠ [])
  ∧ (disabled st = false ↔ truthy (sessionId st) = true ∧ running st = []).
Proof.
  intros Hst.
  assert (loading st = true ↔ running st ≠ []) as Hiff.
  { split.
    - induction Hst as [|st e Hst IH Hfresh]; [done|].
      by apply loading_running_step.
    - destruct (reachable_invariant st Hst) as [_ Hone].
      destruct (running st) as [|a [|b l]]; [done| |done].
      by destruct Hone. }
  split; [done|]. unfold disabled.
  destruct (loading st), (truthy (sessionId st)); cbn; split;
    try done; try (by intros [? ?]).
  - intros [_ Hnil]. exfalso. by apply (proj1 Hiff).
  - intros _. split; [done|]. destruct (running st); [done|].
    exfalso. by assert (false = true) by (by apply Hiff).
Qed.

Lemma loading_while_in_flight_witness :
  (loading ClientSample.sending = true ↔ running ClientSample.sending ≠ [])
  ∧ (disabled ClientSample.sending = false
     ↔ truthy (sessionId ClientSample.sending) = true
       ∧ running ClientSample.sending = []).
Proof.
  apply loading_while_in_flight.
  apply (reachable_step _ (Submitted 1 2)).
  - apply (reachable_step _ (Typed ClientSample.hello)); [|exact I].
    apply (reachable_step _ (Mounted None 7)); [|exact I].
    apply reachable_initial.
  - vm_compute. by intros ?%list_elem_of_In.
Defined.

Lemma show_acc_not_blank d acc prev :
  Forall (fun m => content m ≠ []) prev ->
  Forall (fun m => content m ≠ []) (show_acc d acc prev).
Proof.
  intros H. unfold show_acc. apply Forall_fmap.
  eapply Forall_impl; [exact H|]. intros m Hm. cbn.
  destruct (decide (id m = d)); [|done]. cbn. by destruct acc.
Qed.

Lemma not_blank_step st e :
  Forall (fun m => content m ≠ []) (messages st) ->
  Forall (fun m => content m ≠ []) (messages (step st e)).
Proof.
  intros Hinv. destruct e as [stored random|value|r1 r2|i r]; cbn.
  - done.
  - unfold type. by destruct (disabled st).
  - unfold onSubmit. destruct (JS.trim _) as [|c text] eqn:Htext; [done|].
    unfold handleSend. destruct (negb (truthy (sessionId st))); [done|].
    cbn. apply Forall_app. split; [done|]. by repeat constructor.
  - unfold resume. destruct (running st !! i) as [a|]; [|done].
    destruct (at_ a) as [|decoder acc], r as [|ok has_body|value| |];
      cbn; try done.
    + by destruct (negb ok || negb has_body).
    + destruct (TextDecoder.decode decoder value true). cbn.
      by apply show_acc_not_blank.
Qed.

(** X10. No message of a transcript the component reaches has empty
    content: a user message carries a trimmed text that is not empty,
    and a placeholder carries the sentinel until text has arrived. *)
Theorem no_blank_message st :
  reachable st -> Forall (fun m => content m ≠ []) (messages st).
Proof.
  induction 1 as [|st e Hst IH Hfresh]; [by constructor|].
  by apply not_blank_step.
Qed.

Lemma no_blank_message_witness :
  Forall (fun m => content m ≠ []) (messages ClientSample.sending).
Proof.
  apply no_blank_message.
  apply (reachable_step _ (Submitted 1 2)).
  - apply (reachable_step _ (Typed ClientSample.hello)); [|exact I].
    apply (reachable_step _ (Mounted None 7)); [|exact I].
    apply reachable_initial.
  - vm_compute. by intros ?%list_elem_of_In.
Defined.

Lemma show_acc_keys d acc prev :
  (fun m => (id m, role m)) <$> show_acc d acc prev
  = (fun m => (id m, role m)) <$> prev.
Proof.
  unfold show_acc. rewrite <- list_fmap_compose. apply list_fmap_ext.
  intros _ m _. cbn. by destruct (decide (id m = d)).
Qed.

(** X11. The transcript only grows, and only by a submission: whatever
    happens to the component, the messages it had keep their place,
    their identifier and their role, and either none is added or the
    event is a submission and exactly a user message and an assistant
    message are added at the end, with the identifiers drawn for
    them. *)
Theorem transcript_grows st e :
  let key m := (id m, role m) in
  ∃ added,
    key <$> messages (step st e) = (key <$> messages st) ++ added
    ∧ (added = []
       ∨ ∃ r1 r2, e = Submitted r1 r2
                  ∧ added = [(UUID.v4 r1, user); (UUID.v4 r2, assistant)]).
Proof.
  intros key.
  assert (∀ st', messages st' = messages st ->
            ∃ added,
              key <$> messages st' = (key <$> messages st) ++ added
              ∧ (added = []
                 ∨ ∃ r1 r2, e = Submitted r1 r2
                            ∧ added = [(UUID.v4 r1, user);
                                       (UUID.v4 r2, assistant)])) as Hsame.
  { intros st' ->. exists []. by rewrite app_nil_r; split; [|left]. }
  destruct e as [stored random|value|r1 r2|i r]; cbn.
  - by apply Hsame.
  - apply Hsame. unfold type. by destruct (disabled st).
  - unfold onSubmit. destruct (JS.trim _) as [|c text]; [by apply Hsame|].
    unfold handleSend.
    destruct (negb (truthy (sessionId st))); [by apply Hsame|].
    cbn. eexists. rewrite fmap_app. split; [done|]. right. by eexists _, _.
  - unfold resume. destruct (running st !! i) as [a|]; [|by apply Hsame].
    destruct (at_ a) as [|decoder acc], r as [|ok has_body|value| |];
      cbn; try (by apply Hsame).
    + by destruct (negb ok || negb has_body); apply Hsame.
    + destruct (TextDecoder.decode decoder value true). cbn.
      exists []. rewrite app_nil_r. split; [|by left].
      apply show_acc_keys.
Qed.

End Reachable.

(** ** A whole turn, whatever the bytes and however it ends *)

Section Turn.
Import ChatView.
Implicit Types (st : State) (m : Message).






End Turn.

(** ** What the handler makes of a request of the component *)

Section Posted.
Implicit Types (st : ChatView.State) (P : Relay.Platform) (w : Relay.World).

Lemma keep_to_wire (l : list ChatView.Message) :
  Forall (fun m => ChatView.content m ≠ []) l ->
  List.filter Relay.keep (Wire.to_wire <$> l) = Wire.to_wire <$> l.
Proof.
  induction 1 as [|m l Hm Hl IH]; [done|]. cbn.
  replace (Relay.keep (Wire.to_wire m)) with true; [by rewrite IH|].
  unfold Relay.keep, Wire.to_wire. cbn.
  destruct (ChatView.content m); [done|]. by rewrite andb_false_r.
Qed.

(** X13. A request posted by the component from a state it reaches,
    handled with the credential in place, is stored under the session
    identifier of the component, never under one the handler draws, and
    the stored history is the history as posted, every message of it:
    the filter of the handler finds nothing to drop, since the
    placeholder of the turn is not posted and no other message of the
    transcript has empty content. *)
Theorem posted_history_stored st r1 P w apiKey :
  ChatView.reachable st ->
  ChatView.disabled st = false ->
  JS.trim (ChatView.input st) ≠ [] ->
  Relay.req_json P
  = Some (Wire.request_body (JS.trim (ChatView.input st)) r1 st) ->
  Relay.truthy (Relay.GEMINI_API_KEY P) = Some apiKey ->
  ∃ sid,
    ChatView.sessionId st = Some sid
    ∧ Relay.conversations (Relay.POST P w).2 !! sid
      = Some {| Relay.messages :=
                  Wire.to_wire
                  <$> (ChatView.messages st
                       ++ [ {| ChatView.id := UUID.v4 r1;
                               ChatView.role := ChatView.user;
                               ChatView.content :=
                                 JS.trim (ChatView.input st) |} ]);
                Relay.expiresAt := Relay.now_set P + Relay.CONVO_TTL_MS |}.
Proof.
  intros Hst Hdis Htext Hreq Hkey.
  assert (Forall (fun m => ChatView.content m ≠ []) (ChatView.messages st))
    as Hcontent.
  { clear Hdis Htext Hreq.
    induction Hst as [|st e Hst IH Hfresh]; [by constructor|].
    by apply not_blank_step. }
  apply orb_false_iff in Hdis as [_ Hsid%negb_false_iff].
  destruct (ChatView.sessionId st) as [[|c sid]|] eqn:Esid; try done.
  exists (c :: sid). split; [done|].
  rewrite (POST_with_key P w _ apiKey Hreq Hkey). cbn [snd Relay.conversations].
  assert (Relay.sid_of P (Wire.request_body (JS.trim (ChatView.input st))
                            r1 st) = c :: sid) as ->.
  { unfold Relay.sid_of, Wire.request_body. cbn. by rewrite Esid. }
  rewrite lookup_insert_eq. f_equal. unfold Relay.entry_of. f_equal.
  cbn. apply keep_to_wire. apply Forall_app. split; [done|].
  by repeat constructor.
Qed.

Lemma posted_history_stored_witness :
  Relay.messages
  <$> (Relay.conversations
         (Relay.POST
            (Sample.platform
               (Wire.request_body (JS.trim (ChatView.input ClientSample.typed))
                  1 ClientSample.typed)
               Sample.secret Sample.t0 Relay.NetworkError)
            Sample.no_world).2 !! UUID.v4 7)
  = Some [ {| Relay.role := Relay.user; Relay.content := JS.lit "hello" |} ].
Proof.
  destruct (posted_history_stored ClientSample.typed 1
              (Sample.platform
                 (Wire.request_body
                    (JS.trim (ChatView.input ClientSample.typed))
                    1 ClientSample.typed)
                 Sample.secret Sample.t0 Relay.NetworkError)
              Sample.no_world (JS.lit "key"))
    as (sid & Hsid & Hstored).
  - apply (ChatView.reachable_step _ (ChatView.Typed ClientSample.hello));
      [|exact I].
    apply (ChatView.reachable_step _ (ChatView.Mounted None 7)); [|exact I].
    apply ChatView.reachable_initial.
  - reflexivity.
  - vm_compute. discriminate.
  - reflexivity.
  - reflexivity.
  - injection Hsid as <-. rewrite Hstored. vm_compute. reflexivity.
Defined.

End Posted.

(* ===================================================================== *)
(** * Further properties of the stream of the reply *)
(* ===================================================================== *)

(** ** What the pattern captures *)

Section Captures.
Import Pattern Relay.
Implicit Types (s capture after : jsstring).

(** X14. Every payload the handler hands to [JSON.parse] stands in the
    decoded chunk right after the marker [data:] and white space, opens
    with a brace, closes with a brace and spans no line terminator;
    nothing else of the chunk is ever parsed. The payload runs up to the
    last closing brace of its line: a closing brace further on in the
    chunk lies beyond a line terminator. *)
Theorem matchAll_captures s capture :
  capture ∈ matchAll s ->
  framed capture = true
  ∧ ∃ before ws after,
      s = before ++ data_marker ++ ws ++ capture ++ after
      ∧ forallb JS.is_white_space ws = true
      ∧ ∀ pre post, after = pre ++ close_brace :: post ->
                    ∃ t, t ∈ pre ∧ JS.is_line_terminator t = true.
Proof.
  remember (length s) as n eqn:Hn. revert s Hn.
  induction n as [n IH] using lt_wf_ind. intros s -> Hin.
  rewrite matchAll_unfold in Hin.
  destruct (match_at s) as [[c after]|] eqn:Hm.
  - pose proof (match_at_length s c after Hm) as Hshorter.
    destruct (match_at_inv s c after Hm)
      as (Hframed & (ws & Hs & Hws) & Hmax).
    apply elem_of_cons in Hin as [->|Hin].
    + split; [done|]. by exists [], ws, after.
    + destruct (IH _ Hshorter after eq_refl Hin)
        as (Hf & before' & ws' & after' & Hafter & Hws' & Hmax').
      split; [done|].
      exists (data_marker ++ ws ++ c ++ before'), ws', after'.
      split; [|done]. rewrite Hs, Hafter. by rewrite <- !app_assoc.
  - destruct s as [|x s]; [by apply elem_of_nil in Hin|].
    destruct (IH (length s) (Nat.lt_succ_diag_r _) s eq_refl Hin)
      as (Hf & before' & ws' & after' & Hafter & Hws' & Hmax').
    split; [done|]. exists (x :: before'), ws', after'.
    split; [|done]. by rewrite Hafter.
Qed.

Lemma matchAll_captures_witness :
  framed (JS.dq "{'candidates': oops}") = true
  ∧ ∃ before ws after,
      decode_once Sample.four_events
      = before ++ data_marker ++ ws ++ JS.dq "{'candidates': oops}" ++ after
      ∧ forallb JS.is_white_space ws = true
      ∧ ∀ pre post, after = pre ++ close_brace :: post ->
                    ∃ t, t ∈ pre ∧ JS.is_line_terminator t = true.
Proof.
  apply matchAll_captures. vm_compute.
  apply list_elem_of_In. right. left. reflexivity.
Defined.

End Captures.

(** ** Encoding and decoding *)

Section RoundTrip.
Import UTF8 Unicode.
(* Division and remainder by constants, for [lia]. *)
Ltac Zify.zify_post_hook ::= Z.to_euclidean_division_equations.

Lemma to_N_byte_of_N n : n < 256 -> Byte.to_N (byte_of_N n) = n.
Proof.
  intros Hn. unfold byte_of_N. rewrite N.mod_small by done.
  destruct (Byte.of_N n) as [b|] eqn:Hb.
  - by apply Byte.to_of_N.
  - apply Byte.of_N_None_iff in Hb. lia.
Qed.

Lemma small_bits b k n : b < 2 ^ k -> k <= n -> N.testbit b n = false.
Proof.
  intros Hb Hn. destruct (N.eq_dec b 0) as [->|Hb0]; [apply N.bits_0|].
  apply N.bits_above_log2. apply N.log2_lt_pow2; [lia|].
  eapply N.lt_le_trans; [exact Hb|]. apply N.pow_le_mono_r; lia.
Qed.

Lemma lor_shiftl_add a b k :
  b < 2 ^ k -> N.lor (N.shiftl a k) b = a * 2 ^ k + b.
Proof.
  intros H. rewrite N.shiftl_mul_pow2.
  assert (N.land (a * 2 ^ k) b = 0) as Hland.
  { apply N.bits_inj. intros n. rewrite N.land_spec, N.bits_0.
    destruct (N.lt_ge_cases n k).
    - rewrite N.mul_pow2_bits_low by assumption. reflexivity.
    - rewrite (small_bits b k n) by assumption. apply Bool.andb_false_r. }
  rewrite <- N.lxor_lor by exact Hland. symmetry.
  apply N.add_nocarry_lxor. exact Hland.
Qed.

Lemma land_mod x k : N.land x (N.ones k) = x mod 2 ^ k.
Proof. apply N.land_ones. Qed.

Lemma land_63 x : N.land x 0x3F = x mod 64.
Proof. exact (land_mod x 6). Qed.
Lemma land_31 x : N.land x 0x1F = x mod 32.
Proof. exact (land_mod x 5). Qed.
Lemma land_15 x : N.land x 0xF = x mod 16.
Proof. exact (land_mod x 4). Qed.
Lemma land_7 x : N.land x 0x7 = x mod 8.
Proof. exact (land_mod x 3). Qed.
Lemma land_1023 x : N.land x 0x3FF = x mod 1024.
Proof. exact (land_mod x 10). Qed.

Lemma shiftr_6 x : N.shiftr x 6 = x / 64.
Proof. exact (N.shiftr_div_pow2 x 6). Qed.
Lemma shiftr_12 x : N.shiftr x 12 = x / 4096.
Proof. exact (N.shiftr_div_pow2 x 12). Qed.
Lemma shiftr_18 x : N.shiftr x 18 = x / 262144.
Proof. exact (N.shiftr_div_pow2 x 18). Qed.
Lemma shiftr_10 x : N.shiftr x 10 = x / 1024.
Proof. exact (N.shiftr_div_pow2 x 10). Qed.
Lemma shiftl_10 x : N.shiftl x 10 = x * 1024.
Proof. exact (N.shiftl_mul_pow2 x 10). Qed.

Lemma lor_6 a b : N.lor (N.shiftl a 6) (b mod 64) = a * 64 + b mod 64.
Proof. apply (lor_shiftl_add a (b mod 64) 6). change (2 ^ 6) with 64. lia. Qed.

(** The arithmetic reading of the decoder's handler. *)
Lemma lead_ascii b : b <= 0x7F -> lead b = (Emit b, init).
Proof.
  intros H. unfold lead, between.
  destruct (N.leb_spec 0 b); [|lia]. destruct (N.leb_spec b 0x7F); [done|lia].
Qed.

Ltac leb_cases :=
  repeat match goal with
         | |- context [?a <=? ?b] =>
             destruct (N.leb_spec a b); try lia; cbn [andb negb orb]
         | |- context [?a =? ?b] =>
             destruct (N.eqb_spec a b); try lia; cbn [andb negb orb]
         end.

Lemma lead_two b :
  0xC2 <= b <= 0xDF -> lead b = (Continue, State (b mod 32) 0 1 0x80 0xBF).
Proof.
  intros H. unfold lead, between. rewrite land_31. by leb_cases.
Qed.

Lemma lead_three b :
  0xE0 <= b <= 0xEF ->
  lead b = (Continue, State (b mod 16) 0 2
                        (if b =? 0xE0 then 0xA0 else 0x80)
                        (if b =? 0xED then 0x9F else 0xBF)).
Proof.
  intros H. unfold lead, between. rewrite land_15.
  destruct (N.leb_spec 0 b); [|lia]. destruct (N.leb_spec b 0x7F); [lia|].
  destruct (N.leb_spec 0xC2 b); [|lia]. destruct (N.leb_spec b 0xDF); [lia|].
  destruct (N.leb_spec 0xE0 b); [|lia]. destruct (N.leb_spec b 0xEF); [|lia].
  done.
Qed.

Lemma lead_four b :
  0xF0 <= b <= 0xF4 ->
  lead b = (Continue, State (b mod 8) 0 3
                        (if b =? 0xF0 then 0x90 else 0x80)
                        (if b =? 0xF4 then 0x8F else 0xBF)).
Proof.
  intros H. unfold lead, between. rewrite land_7.
  destruct (N.leb_spec 0 b); [|lia]. destruct (N.leb_spec b 0x7F); [lia|].
  destruct (N.leb_spec 0xC2 b); [|lia]. destruct (N.leb_spec b 0xDF); [lia|].
  destruct (N.leb_spec 0xE0 b); [|lia]. destruct (N.leb_spec b 0xEF); [lia|].
  destruct (N.leb_spec 0xF0 b); [|lia]. destruct (N.leb_spec b 0xF4); [|lia].
  done.
Qed.

Lemma process_lead b r s :
  lead b = (r, s) -> is_error r = false -> process init b = ([r], s).
Proof.
  intros Hl Hr. unfold process, handler. cbn. rewrite Hl.
  by destruct r as [| |[]].
Qed.

Lemma process_more cp seen needed lo hi b :
  needed ≠ 0 -> lo <= b <= hi -> seen + 1 ≠ needed ->
  process (State cp seen needed lo hi) b
  = ([Continue], State (cp * 64 + b mod 64) (seen + 1) needed 0x80 0xBF).
Proof.
  intros Hn Hb Hseen. unfold process, handler, between. cbn.
  destruct (N.eqb_spec needed 0); [done|].
  destruct (N.leb_spec lo b); [|lia]. destruct (N.leb_spec b hi); [|lia].
  cbn. rewrite land_63, lor_6.
  by destruct (N.eqb_spec (seen + 1) needed).
Qed.

Lemma process_last cp seen needed lo hi b :
  needed ≠ 0 -> lo <= b <= hi -> seen + 1 = needed ->
  process (State cp seen needed lo hi) b
  = ([Emit (cp * 64 + b mod 64)], init).
Proof.
  intros Hn Hb Hseen. unfold process, handler, between. cbn.
  destruct (N.eqb_spec needed 0); [done|].
  destruct (N.leb_spec lo b); [|lia]. destruct (N.leb_spec b hi); [|lia].
  cbn. rewrite land_63, lor_6.
  by destruct (N.eqb_spec (seen + 1) needed).
Qed.

Lemma run_encode_scalar cp :
  is_scalar cp ->
  ∃ rs, run init (encode_scalar cp) = (rs, init)
        ∧ scalars rs = [cp]
        ∧ forallb (fun r => negb (is_error r)) rs = true.
Proof.
  intros Hcp. unfold encode_scalar.
  rewrite ?land_63, ?shiftr_6, ?shiftr_12, ?shiftr_18.
  destruct (N.leb_spec cp 0x7F); [|destruct (N.leb_spec cp 0x7FF);
    [|destruct (N.leb_spec cp 0xFFFF)]]; cbn [run].
  - rewrite to_N_byte_of_N by lia.
    rewrite (process_lead cp _ _ (lead_ascii cp ltac:(lia))) by done.
    by eexists.
  - rewrite !to_N_byte_of_N by lia.
    rewrite (process_lead _ _ _ (lead_two (0xC0 + cp / 64) ltac:(lia)))
      by done.
    rewrite process_last by lia. cbn.
    eexists. split; [done|]. split; [|done]. cbn. f_equal. lia.
  - rewrite !to_N_byte_of_N by lia.
    rewrite (process_lead _ _ _ (lead_three (0xE0 + cp / 4096) ltac:(lia)))
      by done.
    rewrite process_more; [|done| |done].
    2:{ destruct (N.eqb_spec (0xE0 + cp / 4096) 0xE0),
                 (N.eqb_spec (0xE0 + cp / 4096) 0xED);
          unfold is_scalar in Hcp; lia. }
    rewrite process_last by lia. cbn.
    eexists. split; [done|]. split; [|done]. cbn. f_equal. lia.
  - assert (cp < 0x110000) by (unfold is_scalar in Hcp; lia).
    rewrite !to_N_byte_of_N by lia.
    rewrite (process_lead _ _ _ (lead_four (0xF0 + cp / 262144) ltac:(lia)))
      by done.
    rewrite process_more; [|done| |done].
    2:{ destruct (N.eqb_spec (0xF0 + cp / 262144) 0xF0),
                 (N.eqb_spec (0xF0 + cp / 262144) 0xF4); lia. }
    rewrite process_more by lia.
    rewrite process_last by lia. cbn.
    eexists. split; [done|]. split; [|done]. cbn. f_equal. lia.
Qed.


Lemma run_encode_scalars cps :
  Forall is_scalar cps ->
  ∃ rs, run init (cps ≫= encode_scalar) = (rs, init)
        ∧ scalars rs = cps
        ∧ forallb (fun r => negb (is_error r)) rs = true.
Proof.
  induction 1 as [|cp cps Hcp Hcps (rs & Hrun & Hscalars & Hok)].
  - by exists [].
  - destruct (run_encode_scalar cp Hcp) as (r1 & Hrun1 & Hscalars1 & Hok1).
    exists (r1 ++ rs). cbn. rewrite run_app, Hrun1, Hrun.
    split; [done|]. rewrite scalars_app, Hscalars1, Hscalars.
    split; [done|]. rewrite forallb_app. by rewrite Hok1, Hok.
Qed.

Lemma surrogate_pair c d :
  is_high_surrogate c = true -> is_low_surrogate d = true ->
  let cp := 0x10000 + N.shiftl (c - 0xD800) 10 + (d - 0xDC00) in
  0x10000 <= cp < 0x110000 ∧ code_units cp = [c; d].
Proof.
  unfold is_high_surrogate, is_low_surrogate, between.
  intros [Hc1%N.leb_le Hc2%N.leb_le]%andb_true_iff
         [Hd1%N.leb_le Hd2%N.leb_le]%andb_true_iff.
  cbn zeta. unfold code_units. rewrite shiftl_10, shiftr_10, land_1023.
  split; [lia|].
  destruct (N.ltb_spec (65536 + (c - 55296) * 1024 + (d - 56320)) 65536);
    [lia|].
  f_equal; [lia|]. f_equal. lia.
Qed.

(** Conversion to scalar values gives scalar values. *)
Lemma to_scalars_scalar s :
  Forall (fun c => c < 0x10000) s -> Forall is_scalar (to_scalars s).
Proof.
  remember (length s) as n eqn:Hn. revert s Hn.
  induction n as [n IH] using lt_wf_ind. intros s -> Hs.
  destruct s as [|c s]; [by constructor|].
  apply Forall_cons in Hs as [Hc Hs]. cbn [to_scalars].
  assert (is_scalar 0xFFFD) as Hrep by (right; lia).
  assert (Forall is_scalar (to_scalars s)) as Hrest.
  { by apply (IH (length s) (Nat.lt_succ_diag_r _)). }
  destruct (is_high_surrogate c) eqn:Hhigh.
  - destruct s as [|d s]; [by repeat constructor|].
    destruct (is_low_surrogate d) eqn:Hlow; [|by constructor].
    apply Forall_cons in Hs as [Hd Hs]. constructor.
    + destruct (surrogate_pair c d Hhigh Hlow) as [Hcp _]. right. lia.
    + apply (IH (length s)); [cbn; lia|done|done].
  - destruct (is_low_surrogate c) eqn:Hlow; [by constructor|].
    constructor; [|done]. unfold is_high_surrogate, is_low_surrogate,
      between in Hhigh, Hlow. unfold is_scalar.
    destruct (N.leb_spec 55296 c), (N.leb_spec c 56319),
             (N.leb_spec 56320 c), (N.leb_spec c 57343); cbn in *; try done;
      lia.
Qed.

Lemma well_formed_units s :
  well_formed s = true -> Forall (fun c => c < 0x10000) s.
Proof.
  remember (length s) as n eqn:Hn. revert s Hn.
  induction n as [n IH] using lt_wf_ind. intros s -> Hs.
  destruct s as [|c s]; [by constructor|]. cbn [well_formed] in Hs.
  destruct (is_high_surrogate c) eqn:Hhigh.
  - destruct s as [|d s]; [done|].
    apply andb_true_iff in Hs as [Hlow Hs].
    unfold is_high_surrogate, is_low_surrogate, between in Hhigh, Hlow.
    apply andb_true_iff in Hhigh as [_ Hc%N.leb_le].
    apply andb_true_iff in Hlow as [_ Hd%N.leb_le].
    constructor; [lia|]. constructor; [lia|].
    apply (IH (length s)); [cbn; lia|done|done].
  - apply andb_true_iff in Hs as [[_ Hc%N.ltb_lt]%andb_true_iff Hs].
    constructor; [done|].
    by apply (IH (length s) (Nat.lt_succ_diag_r _)).
Qed.

(** A well-formed string is the code units of its scalar values. *)
Lemma well_formed_code_units s :
  well_formed s = true -> to_scalars s ≫= code_units = s.
Proof.
  remember (length s) as n eqn:Hn. revert s Hn.
  induction n as [n IH] using lt_wf_ind. intros s -> Hs.
  destruct s as [|c s]; [done|]. cbn [well_formed to_scalars] in *.
  destruct (is_high_surrogate c) eqn:Hhigh.
  - destruct s as [|d s]; [done|].
    apply andb_true_iff in Hs as [Hlow Hs]. rewrite Hlow. cbn.
    destruct (surrogate_pair c d Hhigh Hlow) as [_ ->]. cbn. do 2 f_equal.
    apply (IH (length s)); [cbn; lia|done|done].
  - apply andb_true_iff in Hs as [[Hlow%negb_true_iff Hc]%andb_true_iff Hs].
    rewrite Hlow. cbn. unfold code_units at 1. rewrite Hc. cbn. f_equal.
    by apply (IH (length s) (Nat.lt_succ_diag_r _)).
Qed.


Lemma serialize_scalars cps :
  Forall is_scalar cps ->
  (TextDecoder.serialize false cps).1 = strip_bom (cps ≫= code_units).
Proof.
  intros Hcps. destruct cps as [|cp cps]; [done|]. cbn.
  apply Forall_cons in Hcps as [Hcp _].
  destruct (N.eqb_spec cp 65279) as [->|Hne]; [done|]. cbn.
  unfold code_units at 1 3.
  destruct (N.ltb_spec cp 65536); cbn.
  - by destruct (N.eqb_spec cp 65279).
  - rewrite shiftr_10.
    destruct (N.eqb_spec (55296 + (cp - 65536) / 1024) 65279); [|done].
    unfold is_scalar in Hcp. lia.
Qed.


(** X15. The encoder and the decoder undo each other: the bytes
    [TextEncoder.encode] makes of a well-formed string are valid UTF-8,
    and decoding them gives the string back, less the byte order mark
    when the string starts with one, which the decoder drops. *)
Theorem encode_then_decode s :
  well_formed s = true ->
  valid (TextEncoder.encode s) = true
  ∧ (TextDecoder.decode TextDecoder.new (TextEncoder.encode s) false).1
    = strip_bom s.
Proof.
  intros Hs.
  pose proof (to_scalars_scalar s (well_formed_units s Hs)) as Hscalars.
  destruct (run_encode_scalars (to_scalars s) Hscalars)
    as (rs & Hrun & Hrs & Hok).
  unfold valid, TextDecoder.decode, TextEncoder.encode. cbn.
  rewrite Hrun. cbn. rewrite Hok. split; [done|].
  rewrite app_nil_r, Hrs.
  pose proof (serialize_scalars (to_scalars s) Hscalars) as Hser.
  destruct (TextDecoder.serialize false (to_scalars s)) as [text bom].
  cbn in *. by rewrite Hser, well_formed_code_units.
Qed.

Lemma encode_then_decode_witness :
  valid (TextEncoder.encode [0xFEFF; 0xD83D; 0xDE00; 0xE9]) = true
  ∧ (TextDecoder.decode TextDecoder.new
       (TextEncoder.encode [0xFEFF; 0xD83D; 0xDE00; 0xE9]) false).1
    = [0xD83D; 0xDE00; 0xE9].
Proof.
  exact (encode_then_decode [0xFEFF; 0xD83D; 0xDE00; 0xE9] eq_refl).
Defined.


End RoundTrip.

(** ** From the upstream to the transcript *)

Section EndToEnd.
Import ChatView.
Implicit Types (st : State).




End EndToEnd.

(** ** The usual events *)

Section Payload.
Import JSON Upstream Pattern Framing.
Implicit Types (s t key rest : jsstring) (v : value).

Lemma parse_chars_unescaped t rest :
  forallb unescaped t = true -> parse_chars (t ++ 34 :: rest) = Some (t, rest).
Proof.
  induction t as [|c t IH]; [done|]. cbn [forallb app].
  intros [Hc Ht]%andb_true_iff. cbn [parse_chars]. rewrite (IH Ht).
  unfold unescaped in Hc.
  apply andb_true_iff in Hc as [[Hc1 Hc2]%andb_true_iff Hc3].
  apply negb_true_iff in Hc2, Hc3. rewrite Hc2, Hc3.
  apply N.leb_le in Hc1. by destruct (N.ltb_spec c 32); [lia|].
Qed.

Lemma unescaped_no_quote t : forallb unescaped t = true -> 34 ∉ t.
Proof.
  induction t as [|c t IH]; [intros _; apply not_elem_of_nil|]. cbn.
  intros [Hc Ht]%andb_true_iff. apply not_elem_of_cons. split; [|by apply IH].
  intros <-. done.
Qed.

Lemma parse_value_string fuel t rest :
  forallb unescaped t = true ->
  parse_value (S fuel) (34 :: t ++ 34 :: rest) = Ok (Str t) rest.
Proof. intros Ht. cbn. by rewrite parse_chars_unescaped. Qed.

(** An object with one member, written without white space. *)
Lemma parse_value_member fuel key s v rest :
  forallb unescaped key = true ->
  skip_ws s = s ->
  parse_value fuel s = Ok v (125 :: rest) ->
  parse_value (S (S fuel)) (123 :: 34 :: key ++ 34 :: 58 :: s)
  = Ok (Obj [(key, v)]) rest.
Proof.
  intros Hkey Hs Hv. cbn. rewrite parse_chars_unescaped by done. cbn.
  by rewrite Hs, Hv.
Qed.

(** An array with one element, written without white space. *)
Lemma parse_value_element fuel c s v rest :
  is_ws c = false -> (c =? 93) = false ->
  parse_value fuel (c :: s) = Ok v (93 :: rest) ->
  parse_value (S (S fuel)) (91 :: c :: s) = Ok (Arr [v]) rest.
Proof.
  intros Hws Hc Hv. cbn. rewrite Hws, Hc. by rewrite Hv.
Qed.

Lemma parse_payload t :
  forallb unescaped t = true ->
  parse (payload_of t)
  = Some (Obj [(Relay.candidates,
                Arr [Obj [(Relay.content_,
                           Obj [(Relay.parts,
                                 Arr [Obj [(Relay.text, Str t)]])])]])]).
Proof.
  intros Ht. unfold parse, parse_text.
  assert (∃ k, fuel_for (payload_of t) = (13 + k)%nat) as [k ->].
  { exists (fuel_for (payload_of t) - 13)%nat. unfold fuel_for, payload_of.
    rewrite !length_app. cbn. lia. }
  change (skip_ws (payload_of t)) with (payload_of t).
  unfold payload_of.
  change (JS.dq "{'candidates':[{'content':{'parts':[{'text':'")
    with ([123; 34] ++ Relay.candidates ++ [34; 58; 91; 123; 34]
          ++ Relay.content_ ++ [34; 58; 123; 34] ++ Relay.parts
          ++ [34; 58; 91; 123; 34] ++ Relay.text ++ [34; 58; 34]).
  change (JS.dq "'}]}}]}") with [34; 125; 93; 125; 125; 93; 125].
  rewrite <- !app_assoc. cbn [app Nat.add].
  match goal with |- context [parse_value ?f ?p] =>
    assert (parse_value f p
            = Ok (Obj [(Relay.candidates,
                        Arr [Obj [(Relay.content_,
                                   Obj [(Relay.parts,
                                         Arr [Obj [(Relay.text, Str t)]])])]])])
                 []) as ->
  end; [|done].
  apply parse_value_member; [done|done|].
  apply parse_value_element; [done|done|].
  apply parse_value_member; [done|done|].
  apply parse_value_member; [done|done|].
  apply parse_value_element; [done|done|].
  apply parse_value_member; [done|done|].
  by apply parse_value_string.
Qed.

Lemma payload_framed t :
  one_line t = true -> Relay.framed (payload_of t) = true.
Proof.
  intros Ht. unfold payload_of.
  change (JS.dq "{'candidates':[{'content':{'parts':[{'text':'")
    with (123 :: JS.dq "'candidates':[{'content':{'parts':[{'text':'").
  cbn [app Relay.framed]. apply andb_true_iff. split.
  - apply andb_true_iff. split; [done|]. apply bool_decide_eq_true_2.
    rewrite app_assoc.
    change (JS.dq "'}]}}]}") with ([34; 125; 93; 125; 125; 93] ++ [125]).
    rewrite app_assoc. apply last_snoc.
  - rewrite !forallb_app. rewrite !andb_true_iff. by split_and!.
Qed.

Lemma payload_fragment t :
  t ≠ [] -> forallb unescaped t = true ->
  Relay.text_fragment (payload_of t) = Some t.
Proof.
  intros Hne Ht. unfold Relay.text_fragment. rewrite parse_payload by done.
  destruct t as [|c t]; [done|]. reflexivity.
Qed.

(** *** A payload that is not read to its end *)

(** Without a closing quotation mark a string does not end. *)
Lemma parse_chars_none s : 34 ∉ s -> parse_chars s = None.
Proof.
  induction s as [s IH] using (induction_ltof1 _ (@length N)).
  unfold ltof in IH. destruct s as [|c rest]; [done|].
  intros [Hc Hrest]%not_elem_of_cons. cbn [parse_chars].
  destruct (N.eqb_spec c 34) as [->|_]; [done|].
  destruct (c =? 92).
  - destruct rest as [|e rest1]; [done|].
    apply not_elem_of_cons in Hrest as [He Hrest1].
    destruct (e =? 117).
    + destruct rest1 as [|h1 [|h2 [|h3 [|h4 rest2]]]]; try done.
      destruct (hex_digit h1), (hex_digit h2), (hex_digit h3),
        (hex_digit h4); try done.
      rewrite IH; [done|cbn; lia|].
      by repeat apply not_elem_of_cons in Hrest1 as [_ Hrest1].
    + destruct (unescape e); [|done]. rewrite IH; [done|cbn; lia|done].
  - destruct (c <? 32); [done|]. rewrite IH; [done|cbn; lia|done].
Qed.

(** An object needs two quotation marks to have a member, and without a
    member it has no text. *)
Lemma few_quotes_no_fragment rest :
  (∀ a b, rest = a ++ 34 :: b -> 34 ∉ b) ->
  Relay.text_fragment (123 :: rest) = None.
Proof.
  intros Hfew. unfold Relay.text_fragment, parse, parse_text.
  change (skip_ws (123 :: rest)) with (123 :: rest).
  assert (∃ k, fuel_for (123 :: rest) = S (S k)) as [k ->].
  { exists (2 * length rest + 2)%nat. unfold fuel_for. cbn. lia. }
  cbn [parse_value N.eqb Pos.eqb].
  destruct (skip_ws_suffix rest) as [ws Hws].
  destruct (skip_ws rest) as [|c r]; [done|].
  destruct (c =? 125).
  - by destruct (skip_ws r).
  - cbn [parse_members]. destruct (N.eqb_spec c 34) as [->|]; [|done].
    by rewrite parse_chars_none by by eapply Hfew.
Qed.

Lemma parse_value_string_fail fuel t :
  parse_chars t = None -> parse_value (S fuel) (34 :: t) = SyntaxError.
Proof. intros Ht. cbn. by rewrite Ht. Qed.

Lemma parse_value_member_fail fuel key s :
  forallb unescaped key = true ->
  skip_ws s = s ->
  parse_value fuel s = SyntaxError ->
  parse_value (S (S fuel)) (123 :: 34 :: key ++ 34 :: 58 :: s) = SyntaxError.
Proof.
  intros Hkey Hs Hv. cbn. rewrite parse_chars_unescaped by done. cbn.
  by rewrite Hs, Hv.
Qed.

Lemma parse_value_element_fail fuel c s :
  is_ws c = false -> (c =? 93) = false ->
  parse_value fuel (c :: s) = SyntaxError ->
  parse_value (S (S fuel)) (91 :: c :: s) = SyntaxError.
Proof. intros Hws Hc Hv. cbn. rewrite Hws, Hc. by rewrite Hv. Qed.

(** The payload cut within its text is no JSON: the string of the text
    does not end. *)
Lemma payload_cut_no_fragment t :
  34 ∉ t ->
  Relay.text_fragment
    (JS.dq "{'candidates':[{'content':{'parts':[{'text':'" ++ t) = None.
Proof.
  intros Ht. unfold Relay.text_fragment, parse, parse_text.
  set (p := JS.dq "{'candidates':[{'content':{'parts':[{'text':'" ++ t).
  assert (∃ k, fuel_for p = (13 + k)%nat) as [k ->].
  { exists (fuel_for p - 13)%nat. unfold fuel_for, p.
    rewrite !length_app. cbn. lia. }
  change (skip_ws p) with p. unfold p.
  change (JS.dq "{'candidates':[{'content':{'parts':[{'text':'")
    with ([123; 34] ++ Relay.candidates ++ [34; 58; 91; 123; 34]
          ++ Relay.content_ ++ [34; 58; 123; 34] ++ Relay.parts
          ++ [34; 58; 91; 123; 34] ++ Relay.text ++ [34; 58; 34]).
  rewrite <- !app_assoc. cbn [app Nat.add].
  match goal with |- context [parse_value ?f ?q] =>
    assert (parse_value f q = SyntaxError) as ->
  end; [|done].
  apply parse_value_member_fail; [done|done|].
  apply parse_value_element_fail; [done|done|].
  apply parse_value_member_fail; [done|done|].
  apply parse_value_member_fail; [done|done|].
  apply parse_value_element_fail; [done|done|].
  apply parse_value_member_fail; [done|done|].
  apply parse_value_string_fail. by apply parse_chars_none.
Qed.

(** *** A text that holds a line separator *)

(** Nothing is forwarded from a text in which no capture has a text
    fragment. *)
Lemma fragments_none s :
  (∀ x c a, x `suffix_of` s -> match_at x = Some (c, a) ->
            Relay.text_fragment c = None) ->
  omap Relay.text_fragment (matchAll s) = [].
Proof.
  induction s as [s IH] using (induction_ltof1 _ (@length N)).
  unfold ltof in IH. intros Hs. rewrite matchAll_unfold.
  destruct (match_at s) as [[c a]|] eqn:Hm.
  - cbn. rewrite (Hs s c a) by done. apply IH.
    + by eapply match_at_length.
    + intros x c' a' Hx. apply Hs. etrans; [exact Hx|].
      destruct (match_at_inv s c a Hm) as (_ & (ws & -> & _) & _).
      rewrite !app_assoc. by apply suffix_app_r.
  - destruct s as [|b s]; [done|]. apply IH; [cbn; lia|].
    intros x c' a' Hx. apply Hs. by apply suffix_cons_r.
Qed.

Lemma quote_unique t : ∀ u (r1 r2 : jsstring),
  34 ∉ t -> 34 ∉ r2 -> t ++ 34 :: r2 = u ++ 34 :: r1 -> r1 = r2.
Proof.
  induction t as [|c t IH]; intros u r1 r2 Ht Hr Heq.
  - destruct u as [|b u]; cbn in Heq.
    + by injection Heq as <-.
    + injection Heq as <- ->. exfalso. apply Hr.
      apply elem_of_app. right. by left.
  - apply not_elem_of_cons in Ht as [Hc Ht].
    destruct u as [|b u]; cbn in Heq.
    + by injection Heq as -> _.
    + injection Heq as _ Heq. by eapply IH.
Qed.

(** In the text of an event and what follows it in the payload, no
    capture has a text fragment: the one quotation mark left does not
    make a member. *)
Lemma text_tail_silent t x :
  34 ∉ t ->
  x `suffix_of` t ++ JS.dq "'}]}}]}" ->
  omap Relay.text_fragment (matchAll x) = [].
Proof.
  intros Ht Hx. apply fragments_none. intros y c a Hy Hm.
  destruct (match_at_inv y c a Hm) as (Hc & (ws & -> & _) & _).
  apply framed_inv in Hc as (mid & -> & _).
  apply few_quotes_no_fragment. intros a1 b1 Heq.
  destruct (transitivity Hy Hx) as [pre Hpre].
  change (JS.dq "'}]}}]}") with (34 :: [125; 93; 125; 125; 93; 125]) in Hpre.
  assert (b1 ++ a = [125; 93; 125; 125; 93; 125]) as Hb.
  { eapply (quote_unique t (pre ++ data_marker ++ ws ++ 123 :: a1));
      [done| |].
    - intros Hin. repeat (apply elem_of_cons in Hin as [?|Hin]; [done|]).
      by apply elem_of_nil in Hin.
    - rewrite Hpre. change (open_brace :: mid ++ [close_brace])
        with (123 :: (mid ++ [close_brace])).
      rewrite Heq, <- !app_assoc. cbn. by rewrite <- !app_assoc. }
  intros Hin. assert (34 ∈ b1 ++ a) as Hin' by (apply elem_of_app; by left).
  rewrite Hb in Hin'.
  repeat (apply elem_of_cons in Hin' as [?|Hin']; [done|]).
  by apply elem_of_nil in Hin'.
Qed.

Lemma one_line_split t :
  one_line t = false ->
  ∃ t1 sep t2, t = t1 ++ sep :: t2 ∧ one_line t1 = true
               ∧ JS.is_line_terminator sep = true.
Proof.
  unfold one_line. induction t as [|c t IH]; [done|]. cbn.
  destruct (JS.is_line_terminator c) eqn:Hc; cbn.
  - intros _. by exists [], c, t.
  - intros (t1 & sep & t2 & -> & Ht1 & Hsep)%IH.
    exists (c :: t1), sep, t2. cbn. by rewrite Hc, Ht1.
Qed.

Lemma after_marker_brace rest :
  after_marker (123 :: rest)
  = match dot_star_brace rest with
    | Some (m, after) => Some (123 :: m, after)
    | None => None
    end.
Proof. done. Qed.

Lemma matchAll_cons_other c s : c ≠ 100 -> matchAll (c :: s) = matchAll s.
Proof. intros Hc. by rewrite matchAll_unfold, match_at_other. Qed.

Lemma matchAll_cons_d c s :
  c ≠ 97 -> matchAll (100 :: c :: s) = matchAll (c :: s).
Proof.
  intros Hc. rewrite matchAll_unfold.
  assert (match_at (100 :: c :: s) = None) as ->; [|done].
  unfold match_at, data_marker. cbn [strip_prefix].
  change (100 =? 100) with true. cbn match.
  by destruct (N.eqb_spec 97 c); [subst|].
Qed.

(** The marker does not stand in the head of the payload. *)
Lemma matchAll_head s :
  matchAll (JS.dq "{'candidates':[{'content':{'parts':[{'text':'" ++ s)
  = matchAll s.
Proof.
  let l := eval vm_compute in
             (JS.dq "{'candidates':[{'content':{'parts':[{'text':'") in
  change (JS.dq "{'candidates':[{'content':{'parts':[{'text':'") with l.
  cbn [app].
  repeat first [ rewrite matchAll_cons_other by done
               | rewrite matchAll_cons_d by done ].
  done.
Qed.

(** What the handler forwards for one event of the usual form: the
    text, unless a line separator cuts the payload. *)
Lemma event_text t :
  t ≠ [] -> forallb unescaped t = true ->
  omap Relay.text_fragment
       (matchAll (data_marker ++ [32] ++ payload_of t))
  = if one_line t then [t] else [].
Proof.
  intros Hne Ht. rewrite matchAll_event by done.
  pose proof (unescaped_no_quote t Ht) as Hquote.
  destruct (one_line t) eqn:Hline.
  - assert (after_marker (payload_of t) = Some (payload_of t, [])) as Hm.
    { apply after_marker_spec. exists []. rewrite app_nil_r.
      split_and!; [done|done|by apply payload_framed|].
      intros pre post Heq. by destruct pre. }
    unfold captured, beyond. rewrite Hm. cbn.
    by rewrite payload_fragment.
  - apply one_line_split in Hline as (t1 & sep & t2 & -> & Ht1 & Hsep).
    unfold captured, beyond.
    destruct (after_marker (payload_of (t1 ++ sep :: t2)))
      as [[c a]|] eqn:Hm; cbn [fmap option_fmap option_map fst].
    + unfold payload_of in Hm.
      change (JS.dq "{'candidates':[{'content':{'parts':[{'text':'")
        with (123 :: JS.dq "'candidates':[{'content':{'parts':[{'text':'")
        in Hm.
      cbn [app] in Hm. rewrite after_marker_brace in Hm.
      rewrite <- (app_assoc t1), (app_assoc _ t1) in Hm.
      cbn [app] in Hm. rewrite dot_star_brace_app in Hm by done.
      destruct (dot_star_brace _) as [[m a']|] eqn:Hd; [|done].
      injection Hm as <- <-.
      destruct (dot_star_brace_inv _ m a' Hd) as (Heq & Hlast & _ & _).
      apply app_eq_inv in Heq as [(k & Hhead & _)|(k & -> & ->)].
      * exfalso. apply last_Some in Hlast as [m' ->].
        assert (125 ∈ JS.dq "'candidates':[{'content':{'parts':[{'text':'")
          as Hin.
        { rewrite Hhead, <- app_assoc. apply elem_of_app. right. by left. }
        revert Hin. vm_compute.
        intros Hin. repeat (apply elem_of_cons in Hin as [?|Hin]; [done|]).
        by apply elem_of_nil in Hin.
      * cbn [omap list_omap].
        change (123 :: JS.dq "'candidates':[{'content':{'parts':[{'text':'"
                ++ k)
          with (JS.dq "{'candidates':[{'content':{'parts':[{'text':'" ++ k).
        rewrite payload_cut_no_fragment.
        -- apply (text_tail_silent ((k ++ a') ++ sep :: t2)); [done|].
           rewrite <- !app_assoc. by apply suffix_app_r.
        -- intros Hin. apply Hquote. rewrite <- app_assoc.
           apply elem_of_app. by left.
    + unfold payload_of. rewrite matchAll_head.
      by apply (text_tail_silent (t1 ++ sep :: t2)).
Qed.

Lemma texts_forwarded ts :
  Forall (fun t => t ≠ [] ∧ forallb unescaped t = true) ts ->
  omap Relay.text_fragment
       (matchAll (concat (Relay.render ∘ Relay.event ∘ payload_of <$> ts)))
  = List.filter one_line ts.
Proof.
  intros Hts.
  assert (Relay.render ∘ Relay.event ∘ payload_of <$> ts
          = Relay.render <$> (Relay.event ∘ payload_of <$> ts)) as ->
    by by rewrite <- list_fmap_compose.
  rewrite matchAll_ended.
  - induction Hts as [|t ts [Hne Ht] Hts IH]; [done|].
    cbn [fmap list_fmap mbind list_bind List.filter].
    rewrite omap_app, IH.
    change (Relay.gap ((Relay.event ∘ payload_of) t)) with [32].
    change (Relay.payload ((Relay.event ∘ payload_of) t))
      with (payload_of t).
    rewrite event_text by done. by destruct (one_line t).
  - apply forallb_forall.
    by intros e [t [-> _]]%list_elem_of_In%list_elem_of_fmap.
Qed.

(** X17. The events of the upstream as they usually come: each carries
    one candidate with one part of text, not empty and written out
    without escapes, after the marker and a space, and is followed by an
    empty line. However such events are grouped into chunks, as long as
    none is cut, the handler streams the texts that hold no line
    separator U+2028 or U+2029, each as one chunk of its UTF-8 bytes,
    in the order of the events. An event whose text holds such a
    separator is dropped: the pattern stops at the separator, and
    nothing it captures in such a payload is JSON with a text. *)
Theorem events_forwarded (upstream : list bytes)
    (texts : list (list jsstring)) :
  Forall2 (fun value ts =>
             Relay.decode_once value
             = concat (Relay.render ∘ Relay.event ∘ payload_of <$> ts))
          upstream texts ->
  Forall (Forall (fun t => t ≠ [] ∧ forallb unescaped t = true)) texts ->
  ByteStream.chunks (Relay.start (ByteStream.Make upstream false))
  = TextEncoder.encode <$> List.filter one_line (concat texts).
Proof.
  intros Hchunks Htexts. unfold Relay.start. cbn [ByteStream.chunks].
  rewrite pump_chunks by done.
  induction Hchunks as [|value ts upstream texts Hvalue Hrest IH]; [done|].
  apply Forall_cons in Htexts as [Hts Htexts].
  cbn. rewrite List.filter_app, fmap_app, (IH Htexts). f_equal. f_equal.
  rewrite Hvalue. by apply texts_forwarded.
Qed.

Lemma events_forwarded_witness :
  ByteStream.chunks
    (Relay.start
       (ByteStream.Make
          [ TextEncoder.encode
              (Relay.render Sample.Hel ++ Relay.render Sample.separated);
            TextEncoder.encode (Relay.render Sample.lo) ] false))
  = [ TextEncoder.encode (JS.lit "Hel"); TextEncoder.encode (JS.lit "lo") ].
Proof.
  apply (events_forwarded _
           [[JS.lit "Hel"; [72; 0x2028; 105]]; [JS.lit "lo"]]).
  - constructor; [vm_compute; reflexivity|].
    constructor; [vm_compute; reflexivity|]. constructor.
  - constructor; [|constructor; [|constructor]].
    + constructor; [split; [discriminate|reflexivity]|].
      constructor; [split; [discriminate|reflexivity]|constructor].
    + constructor; [split; [discriminate|reflexivity]|constructor].
Defined.

End Payload.

(* ===================================================================== *)
(** * Further properties across requests *)
(* ===================================================================== *)

Section Worlds.
Import Relay.
Implicit Types (P : Platform) (w : World) (req : RequestBody).
Implicit Types (sid : jsstring) (entry : StoredConversation).

Lemma keep_spec (m : ClientMessage) :
  keep m = true ↔ ¬ (role m = assistant ∧ content m = []).
Proof.
  unfold keep. destruct (decide (role m = assistant)) as [Hr|Hr].
  - rewrite bool_decide_eq_true_2 by done.
    destruct (content m); cbn; split; try done.
    + intros H. exfalso. by apply H.
    + by intros _ [_ ?].
  - rewrite bool_decide_eq_false_2 by done. cbn. split; [|done].
    by intros _ [? _].
Qed.

(** X18. In every world the handler reaches from the empty map, each
    entry of the map was put there by the [set] of a request that
    passed the credential check, under a key that is not the empty
    string, and its history holds no assistant message with empty
    content. *)
Theorem stored_entries_provenance w sid entry :
  reachable w ->
  conversations w !! sid = Some entry ->
  Stored sid entry ∈ trace w
  ∧ sid ≠ []
  ∧ Forall (fun m => ¬ (role m = assistant ∧ content m = []))
           (messages entry).
Proof.
  intros Hw. revert sid entry.
  induction Hw as [|w P Hw IH]; intros sid entry; [done|].
  assert (cleanupExpired (now_sweep P) (conversations w) !! sid = Some entry
          -> conversations w !! sid = Some entry) as Hswept.
  { rewrite cleanupExpired_lookup.
    destruct (conversations w !! sid) as [v|]; [|done].
    by destruct (expiresAt v <=? now_sweep P)%Z. }
  destruct (req_json P) as [req|] eqn:Hreq.
  - destruct (truthy (GEMINI_API_KEY P)) as [apiKey|] eqn:Hkey.
    + rewrite (POST_with_key P w req apiKey Hreq Hkey). cbn.
      destruct (decide (sid_of P req = sid)) as [<-|Hne].
      * rewrite lookup_insert_eq. intros [= <-]. split_and!.
        -- apply elem_of_app. right. apply elem_of_cons. right.
           apply elem_of_cons. by left.
        -- apply sid_of_not_empty.
        -- cbn. apply Forall_forall. intros m Hm. apply keep_spec.
           apply list_elem_of_In, filter_In in Hm. by destruct Hm.
      * rewrite lookup_insert_ne by done. intros Hin%Hswept.
        destruct (IH sid entry Hin) as (Htrace & Hsid & Hkeep).
        split_and!; try done. apply elem_of_app. by left.
    + rewrite (POST_missing_key P w req Hreq Hkey). cbn.
      intros Hin%Hswept.
      destruct (IH sid entry Hin) as (Htrace & Hsid & Hkeep).
      split_and!; try done. apply elem_of_app. by left.
  - rewrite (POST_bad_json P w Hreq). apply IH.
Qed.

Lemma stored_entries_provenance_witness :
  Stored Sample.s1 {| messages := [Sample.hi]; expiresAt := Sample.t1 |}
    ∈ trace Sample.stale_world
  ∧ Sample.s1 ≠ []
  ∧ Forall (fun m => ¬ (role m = assistant ∧ content m = [])) [Sample.hi].
Proof.
  apply (stored_entries_provenance Sample.stale_world Sample.s1
           {| messages := [Sample.hi]; expiresAt := Sample.t1 |}).
  - apply (reachable_POST _ Sample.P_network). apply reachable_start.
  - vm_compute. reflexivity.
Defined.

(** X19. The handler carries nothing from one chunk of the upstream
    body to the next: what it streams for a body is what it streams for
    the chunks read first followed by what it streams for the chunks read
    after them, as if each part were a body of its own. Neither the
    decoder nor the text accumulated so far has a say in what follows. *)
Theorem start_chunkwise (before after : list bytes) (errored : bool) :
  ByteStream.chunks (start (ByteStream.Make (before ++ after) errored))
  = ByteStream.chunks (start (ByteStream.Make before errored))
    ++ ByteStream.chunks (start (ByteStream.Make after errored)).
Proof.
  unfold start. cbn [ByteStream.chunks]. rewrite !pump_chunks by done.
  apply bind_app.
Qed.

End Worlds.

(* ===================================================================== *)
(** * Further properties of a submission *)
(* ===================================================================== *)

Section Trimmed.
Import ChatView.
Implicit Types (s ws text : jsstring) (st : State).

Lemma trim_start_nil s :
  JS.trim_start s = [] -> forallb JS.is_white_space s = true.
Proof.
  induction s as [|c s IH]; [done|]. cbn.
  destruct (JS.is_white_space c); [|done]. exact IH.
Qed.

Lemma trim_start_head s c rest :
  JS.trim_start s = c :: rest -> JS.is_white_space c = false.
Proof.
  induction s as [|x s IH]; [done|]. cbn.
  destruct (JS.is_white_space x) eqn:Hx; [exact IH|]. by intros [= <- _].
Qed.

Lemma forallb_rev (f : N -> bool) s :
  forallb f (rev s) = forallb f s.
Proof.
  induction s as [|c s IH]; [done|]. cbn.
  rewrite forallb_app, IH. cbn. rewrite andb_true_r. apply andb_comm.
Qed.

Lemma last_rev (s : jsstring) : last (rev s) = head s.
Proof. destruct s as [|c s]; [done|]. cbn. apply last_snoc. Qed.

Lemma trim_end_split s :
  ∃ ws, s = JS.trim_end s ++ ws ∧ forallb JS.is_white_space ws = true.
Proof.
  unfold JS.trim_end.
  destruct (trim_start_split (rev s)) as (ws & Hs & Hws).
  exists (rev ws). split; [|by rewrite forallb_rev].
  rewrite <- rev_app_distr, <- Hs. by rewrite rev_involutive.
Qed.

Lemma trim_nil s :
  JS.trim s = [] -> forallb JS.is_white_space s = true.
Proof.
  unfold JS.trim. intros Hnil.
  destruct (trim_end_split (JS.trim_start s)) as (ws & Hs & Hws).
  rewrite Hnil in Hs. cbn in Hs.
  destruct (JS.trim_start s) as [|c rest] eqn:Hstart.
  - by apply trim_start_nil.
  - apply trim_start_head in Hstart. subst ws. cbn in Hws.
    by rewrite Hstart in Hws.
Qed.

(** What [trim] leaves: the string without the white space around it. *)
Lemma trim_spec s :
  ∃ ws1 ws2,
    s = ws1 ++ JS.trim s ++ ws2
    ∧ forallb JS.is_white_space ws1 = true
    ∧ forallb JS.is_white_space ws2 = true
    ∧ (∀ c, head (JS.trim s) = Some c -> JS.is_white_space c = false)
    ∧ (∀ c, last (JS.trim s) = Some c -> JS.is_white_space c = false).
Proof.
  destruct (trim_start_split s) as (ws1 & Hs & Hws1).
  destruct (trim_end_split (JS.trim_start s)) as (ws2 & Hstart & Hws2).
  exists ws1, ws2. fold (JS.trim s) in Hstart. split_and!; try done.
  - by rewrite <- Hstart.
  - intros c Hc. destruct (JS.trim s) as [|c' text]; [done|].
    injection Hc as ->. rewrite Hstart in Hs.
    destruct (JS.trim_start s) as [|x rest] eqn:E; [done|].
    injection Hstart as -> _. by apply trim_start_head in E.
  - intros c. unfold JS.trim, JS.trim_end. rewrite last_rev.
    destruct (JS.trim_start (rev (JS.trim_start s))) as [|x rest] eqn:E;
      [done|].
    intros [= <-]. by apply trim_start_head in E.
Qed.

(** X20. A submission changes nothing exactly when the form is
    disabled or the input holds white space only; in every other case
    it starts a turn. *)
Theorem submission_ignored st r1 r2 :
  onSubmit r1 r2 st = st
  ↔ disabled st = true ∨ forallb JS.is_white_space (input st) = true.
Proof.
  split.
  - intros Hsame. destruct (disabled st) eqn:Hdis; [by left|]. right.
    apply trim_nil. destruct (JS.trim (input st)) as [|c text] eqn:E; [done|].
    exfalso. apply (f_equal (fun st => length (messages st))) in Hsame.
    rewrite onSubmit_enabled in Hsame by (by rewrite ?E).
    cbn in Hsame. rewrite length_app in Hsame. cbn in Hsame. lia.
  - intros [Hdis|Hblank]; [by apply onSubmit_disabled|].
    unfold onSubmit, FormData_get.
    destruct (disabled st); cbn; [done|]. by rewrite trim_white.
Qed.

(** X21. The user message a submission appends carries the input
    without the white space around it: the input is white space, the
    text of the message, white space, and the text neither starts nor
    ends with a white-space character. White space inside the text is
    kept. *)
Theorem user_message_trimmed st r1 r2 :
  disabled st = false ->
  JS.trim (input st) ≠ [] ->
  ∃ ws1 text ws2,
    input st = ws1 ++ text ++ ws2
    ∧ forallb JS.is_white_space ws1 = true
    ∧ forallb JS.is_white_space ws2 = true
    ∧ (∃ c, head text = Some c ∧ JS.is_white_space c = false)
    ∧ (∃ c, last text = Some c ∧ JS.is_white_space c = false)
    ∧ messages (onSubmit r1 r2 st) !! length (messages st)
      = Some {| id := UUID.v4 r1; role := user; content := text |}.
Proof.
  intros Hdis Htext.
  destruct (trim_spec (input st)) as (ws1 & ws2 & Hs & Hws1 & Hws2 & Hh & Hl).
  exists ws1, (JS.trim (input st)), ws2. split_and!; try done.
  - destruct (JS.trim (input st)) as [|c text]; [done|].
    exists c. split; [done|]. by apply Hh.
  - destruct (last (JS.trim (input st))) as [c|] eqn:E.
    + exists c. split; [done|]. by apply Hl.
    + by apply last_None in E.
  - rewrite onSubmit_enabled by done. cbn.
    by rewrite list_lookup_middle.
Qed.

Lemma user_message_trimmed_witness :
  ∃ ws1 text ws2,
    input ClientSample.typed = ws1 ++ text ++ ws2
    ∧ forallb JS.is_white_space ws1 = true
    ∧ forallb JS.is_white_space ws2 = true
    ∧ (∃ c, head text = Some c ∧ JS.is_white_space c = false)
    ∧ (∃ c, last text = Some c ∧ JS.is_white_space c = false)
    ∧ messages (onSubmit 1 2 ClientSample.typed)
      !! length (messages ClientSample.typed)
      = Some {| id := UUID.v4 1; role := user; content := text |}.
Proof.
  apply (user_message_trimmed ClientSample.typed 1 2 eq_refl).
  vm_compute. discriminate.
Defined.

End Trimmed.

(* ===================================================================== *)
(** * Further properties of a turn that fails *)
(* ===================================================================== *)

Section Failure.
Import ChatView.
Implicit Types (st : State).

(** X22. A turn whose request fails, because [fetch] rejects or
    because the response is not accepted, ends with the error message
    set and [loading] cleared, and leaves the placeholder in the
    transcript with the sentinel as its content. The next request the
    component posts therefore carries the sentinel as a message of the
    assistant, which the handler passes on to the upstream as a message
    of the model. *)
Theorem failed_request_keeps_sentinel st r1 r2 (outcome : Settled) :
  disabled st = false ->
  JS.trim (input st) ≠ [] ->
  outcome = FetchRejected
  ∨ (∃ ok has_body, outcome = FetchResolved ok has_body
                    ∧ ok && has_body = false) ->
  let failed := resume (length (running st)) outcome (onSubmit r1 r2 st) in
  failed
  = {| messages :=
         messages st
         ++ [ {| id := UUID.v4 r1; role := user;
                 content := JS.trim (input st) |};
              {| id := UUID.v4 r2; role := assistant;
                 content := Thinking |} ];
       loading := false;
       error := Some went_wrong;
       sessionId := sessionId st;
       input := [];
       running := running st |}
  ∧ ∀ text r3,
      {| Gemini.role := JS.lit "model";
         Gemini.parts := [ {| Gemini.text := Thinking |} ] |}
      ∈ Relay.contents_of (Wire.request_body text r3 failed).
Proof.
  intros Hdis Htext Houtcome failed.
  assert (failed
          = {| messages :=
                 messages st
                 ++ [ {| id := UUID.v4 r1; role := user;
                         content := JS.trim (input st) |};
                      {| id := UUID.v4 r2; role := assistant;
                         content := Thinking |} ];
               loading := false;
               error := Some went_wrong;
               sessionId := sessionId st;
               input := [];
               running := running st |}) as Hfailed.
  { unfold failed, resume. rewrite onSubmit_enabled by done.
    cbn [running]. rewrite list_lookup_middle by done. cbn [at_].
    assert (leave (length (running st)) true
              {| messages :=
                   messages st
                   ++ [ {| id := UUID.v4 r1; role := user;
                           content := JS.trim (input st) |};
                        {| id := UUID.v4 r2; role := assistant;
                           content := Thinking |} ];
                 error := None; loading := true;
                 sessionId := sessionId st; input := [];
                 running := running st
                            ++ [ {| assistantDraft := UUID.v4 r2;
                                    at_ := AtFetch |} ] |}
            = {| messages :=
                   messages st
                   ++ [ {| id := UUID.v4 r1; role := user;
                           content := JS.trim (input st) |};
                        {| id := UUID.v4 r2; role := assistant;
                           content := Thinking |} ];
                 loading := false;
                 error := Some went_wrong;
                 sessionId := sessionId st;
                 input := [];
                 running := running st |}) as Hleave.
    { unfold leave. cbn. by rewrite delete_middle, app_nil_r. }
    destruct Houtcome as [->|(ok & has_body & -> & Hnot)]; [done|].
    by destruct ok, has_body. }
  split; [done|]. intros text r3. rewrite Hfailed.
  unfold Relay.contents_of, Wire.request_body. cbn.
  rewrite !fmap_app. cbn. apply elem_of_app. left. apply elem_of_app. right.
  apply elem_of_cons. right. by apply elem_of_cons; left.
Qed.

Lemma failed_request_keeps_sentinel_witness :
  {| Gemini.role := JS.lit "model";
     Gemini.parts := [ {| Gemini.text := Thinking |} ] |}
  ∈ Relay.contents_of
      (Wire.request_body (JS.lit "again") 3
         (resume 0 (FetchResolved false true) ClientSample.sending)).
Proof.
  apply (proj2 (failed_request_keeps_sentinel ClientSample.typed 1 2
                  (FetchResolved false true) eq_refl
                  ltac:(vm_compute; discriminate)
                  (or_intror (ex_intro _ false
                     (ex_intro _ true (conj eq_refl eq_refl)))))).
Defined.

End Failure.

(* ===================================================================== *)
(** * Further properties of the upstream call *)
(* ===================================================================== *)

Section Address.
Import URI.
Implicit Types (s e : jsstring).

Lemma hex_upper_unreserved d : d < 16 -> unreserved (hex_upper d) = true.
Proof.
  intros Hd. unfold hex_upper, unreserved, UTF8.between.
  destruct (N.ltb_spec d 10).
  - replace ((48 <=? 48 + d) && (48 + d <=? 57)) with true.
    + by rewrite !orb_true_r.
    + symmetry. apply andb_true_iff. split; apply N.leb_le; lia.
  - replace ((65 <=? 55 + d) && (55 + d <=? 90)) with true; [done|].
    symmetry. apply andb_true_iff. split; apply N.leb_le; lia.
Qed.

Lemma to_N_bound (b : byte) : Byte.to_N b < 256.
Proof. by destruct b. Qed.

Lemma escapes_safe (bs : bytes) : forallb safe (bs ≫= percent) = true.
Proof.
  induction bs as [|b bs IH]; [done|]. cbn [mbind list_bind percent].
  change (forallb safe ([37; hex_upper (Byte.to_N b / 16);
                         hex_upper (Byte.to_N b mod 16)] ++ (bs ≫= percent))
          = true).
  rewrite forallb_app, IH. cbn. unfold safe at 1 2.
  pose proof (to_N_bound b) as Hb.
  rewrite !hex_upper_unreserved; [done| |].
  - apply N.mod_lt. lia.
  - apply N.Div0.div_lt_upper_bound. lia.
Qed.

Lemma encodeURIComponent_safe s : ∀ e,
  encodeURIComponent s = Some e -> forallb safe e = true.
Proof.
  remember (length s) as n eqn:Hn. revert s Hn.
  induction n as [n IH] using lt_wf_ind. intros s -> e.
  destruct s as [|c s]; [by intros [= <-]|]. cbn [encodeURIComponent].
  destruct (unreserved c) eqn:Hc.
  - destruct (encodeURIComponent s) as [e'|] eqn:He; [|done].
    intros [= <-]. cbn. unfold safe at 1. rewrite Hc. cbn.
    by apply (IH (length s) (Nat.lt_succ_diag_r _) s eq_refl).
  - destruct (UTF8.is_high_surrogate c).
    + destruct s as [|d s]; [done|].
      destruct (UTF8.is_low_surrogate d); [|done].
      destruct (encodeURIComponent s) as [e'|] eqn:He; [|done].
      intros [= <-]. rewrite forallb_app, escapes_safe. cbn.
      by apply (IH (length s) ltac:(cbn; lia) s eq_refl).
    + destruct (UTF8.is_low_surrogate c); [done|].
      destruct (encodeURIComponent s) as [e'|] eqn:He; [|done].
      intros [= <-]. rewrite forallb_app, escapes_safe. cbn.
      by apply (IH (length s) (Nat.lt_succ_diag_r _) s eq_refl).
Qed.

Lemma encodeURIComponent_defined s :
  Forall (fun c => c < 0x10000) s ->
  (is_Some (encodeURIComponent s) ↔ Unicode.well_formed s = true).
Proof.
  remember (length s) as n eqn:Hn. revert s Hn.
  induction n as [n IH] using lt_wf_ind. intros s -> Hs.
  destruct s as [|c s]; [done|].
  apply Forall_cons in Hs as [Hc Hs].
  cbn [encodeURIComponent Unicode.well_formed].
  pose proof (IH (length s) (Nat.lt_succ_diag_r _) s eq_refl Hs) as IHs.
  assert (unreserved c = true ->
          UTF8.is_high_surrogate c = false
          ∧ UTF8.is_low_surrogate c = false) as Hplain.
  { unfold unreserved, UTF8.is_high_surrogate, UTF8.is_low_surrogate,
      UTF8.between. intros Hu.
    assert (c < 55296) as Hlow.
    { revert Hu.
      repeat match goal with
             | |- context [?a <=? ?b] => destruct (N.leb_spec a b); try lia
             | |- context [?a =? ?b] => destruct (N.eqb_spec a b); try lia
             end; done. }
    destruct (N.leb_spec 55296 c); [lia|].
    destruct (N.leb_spec 56320 c); [lia|]. done. }
  apply N.ltb_lt in Hc.
  destruct (unreserved c) eqn:Hu.
  - destruct (Hplain eq_refl) as [-> ->]. rewrite Hc. cbn.
    rewrite <- IHs. by rewrite fmap_is_Some.
  - destruct (UTF8.is_high_surrogate c).
    + destruct s as [|d s]; [by split; [intros []|]|].
      destruct (UTF8.is_low_surrogate d); cbn; [|by split; [intros []|]].
      apply Forall_cons in Hs as [_ Hs].
      rewrite fmap_is_Some. apply (IH (length s)); [cbn; lia|done|done].
    + destruct (UTF8.is_low_surrogate c); cbn; [by split; [intros []|]|].
      rewrite Hc. cbn. rewrite <- IHs. by rewrite fmap_is_Some.
Qed.

Lemma encodeURIComponent_unreserved s :
  forallb unreserved s = true -> encodeURIComponent s = Some s.
Proof.
  induction s as [|c s IH]; [done|]. cbn.
  intros [-> Hs]%andb_true_iff. by rewrite (IH Hs).
Qed.

(** X23. The address of the upstream call, for a credential made of
    code units. The call is addressed to the fixed model, written into
    the path as it is, and carries the credential as the last query
    parameter, encoded: the encoded credential is made of unreserved
    characters and percent escapes only, so no character of the
    credential can end the parameter or start another one, and a
    credential of unreserved characters stands in the address unchanged.
    Encoding fails exactly on a credential with a surrogate that is not
    part of a pair. *)
Theorem upstream_address apiKey :
  Forall (fun c => c < 0x10000) apiKey ->
  match url Relay.model apiKey with
  | Some u =>
      Unicode.well_formed apiKey = true
      ∧ ∃ k,
          u = JS.lit "https://generativelanguage.googleapis.com/v1/models/"
              ++ JS.lit "gemini-2.5-flash"
              ++ JS.lit ":streamGenerateContent?alt=sse&key=" ++ k
          ∧ forallb safe k = true
          ∧ (38 ∉ k) ∧ (61 ∉ k) ∧ (35 ∉ k)
          ∧ (forallb unreserved apiKey = true -> k = apiKey)
  | None => Unicode.well_formed apiKey = false
  end.
Proof.
  intros Hunits. unfold url.
  change (encodeURIComponent Relay.model) with (Some Relay.model).
  cbn [mbind option_bind].
  pose proof (encodeURIComponent_defined apiKey Hunits) as Hdefined.
  destruct (encodeURIComponent apiKey) as [k|] eqn:Hk; cbn.
  - split; [by apply Hdefined|]. exists k.
    pose proof (encodeURIComponent_safe apiKey k Hk) as Hsafe.
    assert (∀ c, safe c = false -> c ∉ k) as Hnot.
    { intros c Hc Hin%list_elem_of_In.
      apply (proj1 (forallb_forall _ _) Hsafe) in Hin. congruence. }
    split_and!; try done; try (by apply Hnot).
    intros Hplain. rewrite encodeURIComponent_unreserved in Hk by done.
    by injection Hk.
  - destruct (Unicode.well_formed apiKey); [|done].
    by destruct (proj2 Hdefined eq_refl).
Qed.

Lemma upstream_address_witness :
  url Relay.model (JS.lit "a&b=c")
  = Some (JS.lit "https://generativelanguage.googleapis.com/v1/models/"
          ++ JS.lit "gemini-2.5-flash"
          ++ JS.lit ":streamGenerateContent?alt=sse&key="
          ++ JS.lit "a%26b%3Dc")
  ∧ match url Relay.model (JS.lit "a&b=c") with
  | Some u =>
      Unicode.well_formed (JS.lit "a&b=c") = true
      ∧ ∃ k,
          u = JS.lit "https://generativelanguage.googleapis.com/v1/models/"
              ++ JS.lit "gemini-2.5-flash"
              ++ JS.lit ":streamGenerateContent?alt=sse&key=" ++ k
          ∧ forallb safe k = true
          ∧ (38 ∉ k) ∧ (61 ∉ k) ∧ (35 ∉ k)
          ∧ (forallb unreserved (JS.lit "a&b=c") = true -> k = JS.lit "a&b=c")
  | None => Unicode.well_formed (JS.lit "a&b=c") = false
  end.
Proof.
  split; [vm_compute; reflexivity|].
  apply upstream_address. apply List.Forall_forall. intros c Hc.
  apply N.ltb_lt. revert c Hc. apply forallb_forall. vm_compute. reflexivity.
Defined.

End Address.

(* ===================================================================== *)
(** * Further properties of the body of the request *)
(* ===================================================================== *)

Section Quoting.
Import JSON Stringify.
Implicit Types (s rest : jsstring).
(* Division and remainder by constants, for [lia]. *)
Ltac Zify.zify_post_hook ::= Z.to_euclidean_division_equations.

Lemma hex_digit_lower d : d < 16 -> hex_digit (hex_lower d) = Some d.
Proof.
  intros Hd. unfold hex_digit, hex_lower, UTF8.between.
  destruct (N.ltb_spec d 10).
  - destruct (N.leb_spec 48 (48 + d)); [|lia].
    destruct (N.leb_spec (48 + d) 57); [|lia]. cbn. f_equal. lia.
  - destruct (N.leb_spec 48 (87 + d)); [|lia].
    destruct (N.leb_spec (87 + d) 57); [lia|].
    destruct (N.leb_spec 97 (87 + d)); [|lia].
    destruct (N.leb_spec (87 + d) 102); [|lia]. cbn. f_equal. lia.
Qed.

Lemma parse_unicode_escape c tail :
  c < 0x10000 ->
  parse_chars (unicode_escape c ++ tail)
  = match parse_chars tail with
    | Some (str, r) => Some (c :: str, r)
    | None => None
    end.
Proof.
  intros Hc. unfold unicode_escape. cbn [app parse_chars].
  change (92 =? 34) with false. change (92 =? 92) with true.
  change (117 =? 117) with true. cbv iota.
  rewrite !hex_digit_lower by lia.
  destruct (parse_chars tail) as [[str r]|]; [|done].
  do 2 f_equal. f_equal. lia.
Qed.

Lemma parse_plain_char c tail :
  c ≠ 34 -> c ≠ 92 -> 0x20 <= c ->
  parse_chars (c :: tail)
  = match parse_chars tail with
    | Some (str, r) => Some (c :: str, r)
    | None => None
    end.
Proof.
  intros H1 H2 H3. cbn [parse_chars].
  destruct (N.eqb_spec c 34); [done|]. destruct (N.eqb_spec c 92); [done|].
  by destruct (N.ltb_spec c 32); [lia|].
Qed.

(** Reading back what [QuoteJSONString] wrote. *)
Lemma parse_quote_chars s : ∀ rest,
  Forall (fun c => c < 0x10000) s ->
  parse_chars (quote_chars s ++ 34 :: rest) = Some (s, rest).
Proof.
  remember (length s) as n eqn:Hn. revert s Hn.
  induction n as [n IH] using lt_wf_ind. intros s -> rest Hs.
  destruct s as [|c s]; [done|].
  apply Forall_cons in Hs as [Hc Hs].
  pose proof (IH (length s) (Nat.lt_succ_diag_r _) s eq_refl rest Hs) as IHs.
  cbn [quote_chars].
  destruct (N.eqb_spec c 8) as [->|]; [by cbn; rewrite IHs|].
  destruct (N.eqb_spec c 9) as [->|]; [by cbn; rewrite IHs|].
  destruct (N.eqb_spec c 10) as [->|]; [by cbn; rewrite IHs|].
  destruct (N.eqb_spec c 12) as [->|]; [by cbn; rewrite IHs|].
  destruct (N.eqb_spec c 13) as [->|]; [by cbn; rewrite IHs|].
  destruct (N.eqb_spec c 34) as [->|]; [by cbn; rewrite IHs|].
  destruct (N.eqb_spec c 92) as [->|]; [by cbn; rewrite IHs|].
  destruct (N.ltb_spec c 32).
  { rewrite <- app_assoc, parse_unicode_escape by done. by rewrite IHs. }
  destruct (UTF8.is_high_surrogate c) eqn:Hhigh.
  - destruct s as [|d s].
    + cbn [app]. change (unicode_escape c ++ 34 :: rest)
        with (unicode_escape c ++ ([] ++ 34 :: rest)).
      by rewrite parse_unicode_escape.
    + destruct (UTF8.is_low_surrogate d) eqn:Hlow.
      * apply Forall_cons in Hs as [Hd Hs]. cbn [app].
        unfold UTF8.is_low_surrogate, UTF8.between in Hlow.
        apply andb_true_iff in Hlow as [Hd1%N.leb_le _].
        rewrite parse_plain_char by lia.
        rewrite parse_plain_char by lia.
        by rewrite (IH (length s) ltac:(cbn; lia) s eq_refl rest Hs).
      * rewrite <- app_assoc, parse_unicode_escape by done. by rewrite IHs.
  - destruct (UTF8.is_low_surrogate c).
    + rewrite <- app_assoc, parse_unicode_escape by done. by rewrite IHs.
    + cbn [app]. rewrite parse_plain_char by lia. by rewrite IHs.
Qed.



(** Induction on a value, with the property in hand for the elements
    of an array and the values of the members of an object. *)
Lemma value_induction (P : value -> Prop) :
  P Null -> (∀ b, P (Bool b)) -> (∀ n, P (Num n)) -> (∀ s, P (Str s)) ->
  (∀ l, Forall P l -> P (Arr l)) ->
  (∀ ms, Forall (fun kx => P kx.2) ms -> P (Obj ms)) ->
  ∀ v, P v.
Proof.
  intros HNull HBool HNum HStr HArr HObj.
  fix IH 1. intros [| | | |l|ms]; [done|done|done|done| |].
  - apply HArr. induction l as [|x l IHl]; constructor; [apply IH|exact IHl].
  - apply HObj. induction ms as [|[k x] ms IHms]; constructor;
      [apply IH|exact IHms].
Qed.

Lemma stringify_opens v : plain_value v = true -> opens (stringify v).
Proof.
  destruct v as [|[]|n|s|l|ms]; cbn; try done; intros _;
    by eexists _, _.
Qed.

Lemma opens_skip_ws s rest : opens s -> skip_ws (s ++ rest) = s ++ rest.
Proof. intros (c & tail & -> & Hc & _). cbn. by rewrite Hc. Qed.

Lemma parse_elements_join l : 
  Forall (fun x => plain_value x = true ∧ reads_back x) l ->
  l ≠ [] ->
  ∀ fuel acc rest,
    parse_elements fuel (join (map stringify l) ++ 93 :: rest) acc
    = Ok (Arr (rev acc ++ l)) rest
    ∨ parse_elements fuel (join (map stringify l) ++ 93 :: rest) acc
      = OutOfFuel.
Proof.
  induction 1 as [|x l [Hx Hback] Hl IH]; [done|]. intros _ fuel acc rest.
  destruct fuel as [|fuel]; [by right|]. cbn [parse_elements map join].
  destruct l as [|y l].
  - cbn [map]. destruct (Hback fuel (93 :: rest)) as [->| ->]; [|by right].
    by left.
  - cbn [map]. cbn [map] in IH.
    apply Forall_cons in Hl as [[Hy _] _].
    assert (opens (join (stringify y :: map stringify l))) as Hopens.
    { destruct (stringify_opens y Hy) as (c & tail & Hc & ?).
      cbn [join]. rewrite Hc. destruct (map stringify l); by eexists _, _. }
    specialize (IH ltac:(done) fuel (x :: acc) rest).
    set (J := join (stringify y :: map stringify l)) in *. clearbody J.
    rewrite <- app_assoc. cbn [app].
    destruct (Hback fuel (44 :: J ++ 93 :: rest)) as [->| ->]; [|by right].
    cbn. rewrite opens_skip_ws by done.
    destruct IH as [->| ->]; [|by right].
    left. cbn. by rewrite <- app_assoc.
Qed.

Lemma units_spec s :
  forallb (fun c => c <? 0x10000) s = true -> Forall (fun c => c < 0x10000) s.
Proof.
  intros H. apply List.Forall_forall. intros c Hc. apply N.ltb_lt.
  revert c Hc. by apply forallb_forall.
Qed.

Lemma parse_members_join (ms : list (jsstring * value)) :
  Forall (fun kx => forallb (fun c => c <? 0x10000) kx.1 = true
                    ∧ plain_value kx.2 = true ∧ reads_back kx.2) ms ->
  ms ≠ [] ->
  ∀ fuel acc rest,
    parse_members fuel
      (join (map (fun '(k, x) => quote k ++ 58 :: stringify x) ms)
       ++ 125 :: rest) acc
    = Ok (Obj (rev acc ++ ms)) rest
    ∨ parse_members fuel
        (join (map (fun '(k, x) => quote k ++ 58 :: stringify x) ms)
         ++ 125 :: rest) acc
      = OutOfFuel.
Proof.
  induction 1 as [|[k x] ms (Hk & Hx & Hback) Hms IH]; [done|].
  intros _ fuel acc rest. cbn [fst snd] in *.
  destruct fuel as [|fuel]; [by right|]. cbn [map join].
  assert (∀ tail,
            parse_members (S fuel)
              ((quote k ++ 58 :: stringify x) ++ tail) acc
            = match parse_value fuel (stringify x ++ tail) with
              | Ok v r3 =>
                  match skip_ws r3 with
                  | c3 :: r4 =>
                      if c3 =? 44 then
                        parse_members fuel (skip_ws r4) ((k, v) :: acc)
                      else if c3 =? 125 then Ok (Obj (rev ((k, v) :: acc))) r4
                      else SyntaxError
                  | [] => SyntaxError
                  end
              | SyntaxError => SyntaxError
              | OutOfFuel => OutOfFuel
              end) as Hmember.
  { intros tail. unfold quote. cbn [app parse_members].
    change (34 =? 34) with true. cbv iota.
    rewrite <- !app_assoc. cbn [app].
    rewrite parse_quote_chars by (by apply units_spec).
    cbn [skip_ws]. change (is_ws 58) with false. cbv iota.
    change (58 =? 58) with true. cbv iota.
    by rewrite (opens_skip_ws _ _ (stringify_opens x Hx)). }
  destruct ms as [|[k' y] ms].
  - cbn [map]. rewrite Hmember.
    destruct (Hback fuel (125 :: rest)) as [->| ->]; [|by right].
    by left.
  - cbn [map]. cbn [map] in IH.
    assert (opens (join ((quote k' ++ 58 :: stringify y)
                         :: map (fun '(k, x) => quote k ++ 58 :: stringify x)
                                ms))) as Hopens.
    { cbn [join]. unfold quote. cbn [app].
      destruct (map _ ms); eexists 34, _; by split_and!. }
    specialize (IH ltac:(done) fuel ((k, x) :: acc) rest).
    set (J := join ((quote k' ++ 58 :: stringify y) :: _)) in *. clearbody J.
    rewrite <- (app_assoc (quote k ++ 58 :: stringify x)). cbn [app].
    rewrite Hmember.
    destruct (Hback fuel (44 :: J ++ 125 :: rest)) as [->| ->]; [|by right].
    cbn. rewrite opens_skip_ws by done.
    destruct IH as [->| ->]; [|by right].
    left. cbn. by rewrite <- app_assoc.
Qed.

Lemma plain_reads_back v : plain_value v = true -> reads_back v.
Proof.
  induction v as [|b|n|s|l IH|ms IH] using value_induction;
    intros Hplain fuel rest; (destruct fuel as [|fuel]; [by right|]).
  - by left.
  - left. by destruct b.
  - done.
  - left. unfold stringify, quote. cbn [app parse_value].
    change (34 =? 123) with false. change (34 =? 91) with false.
    change (34 =? 34) with true. cbv iota.
    rewrite <- app_assoc. cbn [app].
    by rewrite parse_quote_chars by (by apply units_spec).
  - cbn [stringify]. cbn [app parse_value].
    change (91 =? 123) with false. change (91 =? 91) with true. cbv iota.
    rewrite <- app_assoc. cbn [app].
    destruct l as [|x l]; [by left|].
    assert (Forall (fun x => plain_value x = true ∧ reads_back x) (x :: l))
      as Hall.
    { cbn [plain_value] in Hplain. apply Forall_forall. intros y Hy.
      assert (plain_value y = true) as Hyp
        by (by apply (proj1 (forallb_forall _ _) Hplain), list_elem_of_In).
      split; [done|]. by apply (proj1 (Forall_forall _ _) IH y Hy). }
    assert (opens (join (map stringify (x :: l)))) as Hopens.
    { apply Forall_cons in Hall as [[Hx _] _].
      destruct (stringify_opens x Hx) as (c & tail & Hc & ?).
      cbn [map join]. rewrite Hc. destruct (map stringify l); by eexists _, _. }
    pose proof (parse_elements_join (x :: l) Hall ltac:(done) fuel [] rest)
      as Helements.
    rewrite (opens_skip_ws _ _ Hopens).
    destruct Hopens as (c & tail & Hc & _ & Hne & _).
    rewrite Hc in *. cbn [app] in *.
    destruct (N.eqb_spec c 93); [done|]. exact Helements.
  - cbn [stringify]. cbn [app parse_value].
    change (123 =? 123) with true. cbv iota.
    rewrite <- app_assoc. cbn [app].
    destruct ms as [|[k x] ms]; [by left|].
    assert (Forall (fun kx => forallb (fun c => c <? 0x10000) kx.1 = true
                              ∧ plain_value kx.2 = true ∧ reads_back kx.2)
                   ((k, x) :: ms)) as Hall.
    { cbn [plain_value] in Hplain. apply Forall_forall. intros [k' y] Hy.
      assert (forallb (fun c => c <? 0x10000) k' && plain_value y = true)
        as [Hk Hyp]%andb_true_iff
        by (by apply (proj1 (forallb_forall _ _) Hplain (k', y)),
                     list_elem_of_In).
      split_and!; [done|done|].
      by apply (proj1 (Forall_forall _ _) IH (k', y) Hy). }
    assert (opens (join (map (fun '(k, x) => quote k ++ 58 :: stringify x)
                             ((k, x) :: ms)))) as Hopens.
    { cbn [map join]. unfold quote. cbn [app].
      destruct (map _ ms); eexists 34, _; by split_and!. }
    pose proof (parse_members_join ((k, x) :: ms) Hall ltac:(done) fuel []
                  rest) as Hmembers.
    rewrite (opens_skip_ws _ _ Hopens).
    destruct Hopens as (c & tail & Hc & _ & _ & Hne).
    rewrite Hc in *. cbn [app] in *.
    destruct (N.eqb_spec c 125); [done|]. exact Hmembers.
Qed.

(** X24. [JSON.parse] reads back what [JSON.stringify] writes: for
    every value without numbers whose strings and names are made of
    code units, the text of the value parses, and parses to the value.
    In particular every string survives quoting and unquoting, whatever
    control characters, quotation marks, reverse solidi or unpaired
    surrogates it holds. *)
Theorem parse_stringify v :
  plain_value v = true -> parse (stringify v) = Some v.
Proof.
  intros Hplain. pose proof (stringify_opens v Hplain) as Hopens.
  destruct (parse_total (stringify v)) as [Hfuel _]. revert Hfuel.
  unfold parse, parse_text.
  pose proof (opens_skip_ws _ [] Hopens) as Hskip.
  pose proof (plain_reads_back v Hplain (fuel_for (stringify v)) [])
    as Hback.
  rewrite app_nil_r in Hskip, Hback. rewrite Hskip.
  by destruct Hback as [->| ->].
Qed.

Lemma parse_stringify_witness :
  parse (stringify
           (Obj [(JS.lit "text", Arr [Str [8; 34; 0xD800; 0xE9]; Null])]))
  = Some (Obj [(JS.lit "text", Arr [Str [8; 34; 0xD800; 0xE9]; Null])]).
Proof. by apply parse_stringify. Defined.

Lemma typed_messages (l : list ChatView.Message) :
  mapM Body.typed_message (Body.message <$> l) = Some (Wire.to_wire <$> l).
Proof.
  induction l as [|m l IH]; [done|]. cbn [fmap list_fmap mapM].
  fold (Body.message <$> l). rewrite IH.
  destruct m as [i [] c]; reflexivity.
Qed.

(** X25. What the handler reads is what the component posted: the
    text [handleSend] makes of the transcript, the new user message and
    the session identifier parses, and read at the type the handler
    gives it, it is the history without the identifiers of the messages,
    in the same order, and the same session identifier. *)
Theorem posted_body_read text r1 st :
  plain_value (Body.posted text r1 st) = true ->
  JSON.parse (Body.text_of_request text r1 st) ≫= Body.typed
  = Some (Wire.request_body text r1 st).
Proof.
  intros Hplain. unfold Body.text_of_request.
  assert (parse (stringify (Body.posted text r1 st))
          = Some (Body.posted text r1 st)) as ->.
  { pose proof (stringify_opens _ Hplain) as Hopens.
    destruct (parse_total (stringify (Body.posted text r1 st)))
      as [Hfuel _]. revert Hfuel.
    unfold parse, parse_text.
    pose proof (opens_skip_ws _ [] Hopens) as Hskip.
    pose proof (plain_reads_back _ Hplain
                  (fuel_for (stringify (Body.posted text r1 st))) [])
      as Hback.
    rewrite app_nil_r in Hskip, Hback. rewrite Hskip.
    by destruct Hback as [->| ->]. }
  cbn [mbind option_bind].
  unfold Body.typed, Body.posted, Wire.request_body.
  set (history := ChatView.messages st ++ _).
  change (ES.Get (Obj [(Body.messages_name, Arr (Body.message <$> history));
                       (Body.sessionId_name, ?x)])
                 (ES.Name Body.messages_name))
    with (Some (Arr (Body.message <$> history))).
  cbv beta iota. rewrite typed_messages.
  cbn [fmap option_fmap option_map mbind option_bind].
  by destruct (ChatView.sessionId st).
Qed.

Lemma posted_body_read_witness :
  JSON.parse (Body.text_of_request (JS.lit "hello") 1 ClientSample.typed)
  ≫= Body.typed
  = Some {| Relay.body_messages :=
              Some [ {| Relay.role := Relay.user;
                        Relay.content := JS.lit "hello" |} ];
            Relay.body_sessionId := Some (UUID.v4 7) |}.
Proof.
  exact (posted_body_read (JS.lit "hello") 1 ClientSample.typed eq_refl).
Defined.

End Quoting.

(* ===================================================================== *)
(** * Further properties of the copy button *)
(* ===================================================================== *)

Section Copying.
Import CodeBlock.
Implicit Types (st : State) (e : Event).

Lemma run_timers_pending now st :
  (copied st = true -> timers st ≠ []) ->
  copied (run_timers now st) = true -> timers (run_timers now st) ≠ [].
Proof.
  intros Hinv. unfold run_timers. cbn.
  destruct (existsb (fun due => due <=? now) (timers st)) eqn:Hdue; [done|].
  intros Hc Hnil. apply (Hinv Hc).
  destruct (timers st) as [|due l] eqn:E; [done|]. exfalso.
  cbn in Hdue, Hnil. apply orb_false_iff in Hdue as [Hdue _].
  destruct (N.leb_spec due now); [done|].
  by destruct (N.ltb_spec now due); [|lia].
Qed.

(** X26. While a code block shows the label of a copy made, a timeout
    that will put the label back is pending, whatever copies were made
    or refused and however time passed; and a refused write to the
    clipboard changes nothing but the timeouts that were due. *)
Theorem copied_is_pending st :
  reachable st ->
  (copied st = true -> timers st ≠ [])
  ∧ ∀ now, step st (Settled false now) = step st (Passed now).
Proof.
  intros Hst. split; [|done].
  induction Hst as [|st e Hst IH]; [done|].
  destruct e as [[] now|now]; cbn.
  - intros _ Hnil. by apply app_eq_nil in Hnil as [_ ?].
  - by apply run_timers_pending.
  - by apply run_timers_pending.
Qed.

Lemma copied_is_pending_witness :
  (copied (step initial (Settled true 5)) = true ->
   timers (step initial (Settled true 5)) ≠ [])
  ∧ ∀ now, step (step initial (Settled true 5)) (Settled false now)
           = step (step initial (Settled true 5)) (Passed now).
Proof.
  apply copied_is_pending.
  apply (reachable_step _ (Settled true 5)). apply reachable_initial.
Defined.

(** X27. The label is put back by the timeout of the first of two
    copies made one after the other within 1200 ms: when that timeout
    runs the label reads as before any copy, although the second copy
    is less than 1200 ms old, and the timeout of the second copy is
    still pending. *)
Theorem label_reverts_early t1 t2 :
  t1 < t2 -> t2 < t1 + 1200 ->
  let st := step (step (step initial (Settled true t1)) (Settled true t2))
                 (Passed (t1 + 1200)) in
  copied st = false ∧ timers st = [t2 + 1200].
Proof.
  intros H12 Hlt. cbn.
  destruct (N.leb_spec (t1 + 1200) t2); [lia|]. cbn.
  destruct (N.ltb_spec t2 (t1 + 1200)); [|lia]. cbn.
  destruct (N.leb_spec (t1 + 1200) (t1 + 1200)); [|lia]. cbn.
  destruct (N.ltb_spec (t1 + 1200) (t1 + 1200)); [lia|].
  by destruct (N.ltb_spec (t1 + 1200) (t2 + 1200)); [|lia].
Qed.

Lemma label_reverts_early_witness :
  copied (step (step (step initial (Settled true 0)) (Settled true 1000))
               (Passed 1200)) = false.
Proof.
  exact (proj1 (label_reverts_early 0 1000 ltac:(lia) ltac:(lia))).
Defined.

End Copying.
